(** * pyroed: regression model, posterior fitting and experiment bookkeeping

    A shallow embedding of [pyroed/models.py], [pyroed/inference.py] and of
    the driver [examples/rollout_tf8.py], with the properties of the
    design document stated and proved over it.

    Conventions.
    - A Python exception is a value of [exn]; fallible code returns
      [result A].
    - A [dict] is an association list in insertion order ([PyDict]).
    - A torch tensor is a shape together with its entries in row-major
      order ([tensor A]); integer tensors are [tensor Z], floating-point
      tensors are [tensor Q] (exact rational arithmetic stands for the
      floating-point arithmetic of torch).
    - [pyro.sample] is an operation of a state-and-error monad whose state
      is the trace of the sites visited so far and the random stream.  The
      model runs under a trace, as every inference algorithm runs it: a
      site whose name the trace already holds is refused. *)

From Stdlib Require Import List ZArith QArith Qround Qabs Bool Arith Lia String Ascii.
From Stdlib Require Import Permutation Sorted.
From Stdlib Require DecimalString DecimalNat.
From Stdlib Require Reals Lra.
Import ListNotations.

Local Open Scope nat_scope.

(** ** Exceptions and fallible computations *)

Inductive exn : Type :=
| AssertionError
| KeyError
| IndexError
| TypeError
| RuntimeError
| StopIteration
| ZeroDivisionError
| ValueError.

Inductive result (A : Type) : Type :=
| Ok (a : A)
| Err (e : exn).
Arguments Ok {A} a.
Arguments Err {A} e.

Definition rbind {A B} (r : result A) (k : A -> result B) : result B :=
  match r with
  | Ok a => k a
  | Err e => Err e
  end.

Declare Scope result_scope.
Delimit Scope result_scope with res.
Notation "x <- c ;; k" := (rbind c (fun x => k))
  (at level 61, c at next level, right associativity) : result_scope.
Notation "c ;;; k" := (rbind c (fun _ => k))
  (at level 61, right associativity) : result_scope.

(** [assert b]: the Python statement [assert b]. *)
Definition assert (b : bool) : result unit :=
  if b then Ok tt else Err AssertionError.

Definition of_option {A} (e : exn) (o : option A) : result A :=
  match o with
  | Some a => Ok a
  | None => Err e
  end.

Fixpoint mapM {A B} (f : A -> result B) (l : list A) : result (list B) :=
  match l with
  | [] => Ok []
  | x :: xs =>
      match f x with
      | Err e => Err e
      | Ok y =>
          match mapM f xs with
          | Err e => Err e
          | Ok ys => Ok (y :: ys)
          end
      end
  end.

(** ** Python dictionaries: association lists in insertion order *)

Module PyDict.
Section Dict.
Context {K V : Type} (eqb : K -> K -> bool).

Definition dict := list (K * V).

(** [d.get(k)] *)
Fixpoint get (k : K) (d : dict) : option V :=
  match d with
  | [] => None
  | (k', v) :: d' => if eqb k k' then Some v else get k d'
  end.

(** [k in d] *)
Definition mem (k : K) (d : dict) : bool :=
  match get k d with Some _ => true | None => false end.

(** [d[k]] *)
Definition getitem (k : K) (d : dict) : result V :=
  of_option KeyError (get k d).

(** [d[k] = v]: an existing key keeps its position, a new one goes last. *)
Fixpoint set (k : K) (v : V) (d : dict) : dict :=
  match d with
  | [] => [(k, v)]
  | (k', v') :: d' =>
      if eqb k k' then (k', v) :: d' else (k', v') :: set k v d'
  end.

(** [dict(pairs)] and dict comprehensions. *)
Definition of_pairs (l : list (K * V)) : dict :=
  fold_left (fun d kv => set (fst kv) (snd kv) d) l [].

(** [d.keys()] and [d.values()], in insertion order. *)
Definition keys (d : dict) : list K := map fst d.
Definition values (d : dict) : list V := map snd d.
End Dict.
End PyDict.

Definition list_eqb {A} (eqb : A -> A -> bool) : list A -> list A -> bool :=
  fix go (l1 l2 : list A) : bool :=
    match l1, l2 with
    | [], [] => true
    | x :: l1', y :: l2' => eqb x y && go l1' l2'
    | _, _ => false
    end.

(** ** Tensors *)

Record tensor (A : Type) : Type := mkTensor {
  tshape : list nat;
  tdata : list A;
}.
Arguments mkTensor {A} tshape tdata.
Arguments tshape {A} t.
Arguments tdata {A} t.

Definition numel (shape : list nat) : nat := fold_right Nat.mul 1 shape.

(** The entries of a tensor fill its shape. *)
Definition twf {A} (t : tensor A) : Prop :=
  List.length (tdata t) = numel (tshape t).

Definition twfb {A} (t : tensor A) : bool :=
  List.length (tdata t) =? numel (tshape t).

(** [torch.tensor(a)], a 0-dimensional tensor. *)
Definition scalar {A} (a : A) : tensor A := mkTensor [] [a].

(** [t.dim()] *)
Definition tdim {A} (t : tensor A) : nat := List.length (tshape t).

(** [torch.zeros(shape)] *)
Definition zeros (shape : list nat) : tensor Q :=
  mkTensor shape (repeat 0%Q (numel shape)).

Definition tmap {A B} (f : A -> B) (t : tensor A) : tensor B :=
  mkTensor (tshape t) (map f (tdata t)).

Definition shape_eqb : list nat -> list nat -> bool := list_eqb Nat.eqb.

(** [t.size(-1)] *)
Definition size_last {A} (t : tensor A) : result nat :=
  match rev (tshape t) with
  | [] => Err IndexError
  | n :: _ => Ok n
  end.

(** [t.size(0)] *)
Definition size0 {A} (t : tensor A) : result nat :=
  match tshape t with
  | [] => Err IndexError
  | n :: _ => Ok n
  end.

(** [t.shape[:-1]] *)
Definition shape_init (shape : list nat) : list nat := removelast shape.

(** The [r]-th row of length [p] of a row-major list. *)
Definition row {A} (p : nat) (l : list A) (r : nat) : list A :=
  firstn p (skipn (r * p) l).

(** [t.unbind(-1)]: one tensor per position of the last axis. *)
Definition unbind_last (t : tensor Z) : result (list (tensor Z)) :=
  match rev (tshape t) with
  | [] => Err RuntimeError
  | p :: _ =>
      let batch := shape_init (tshape t) in
      Ok (map (fun j =>
                 mkTensor batch
                   (map (fun r => nth j (row p (tdata t) r) 0%Z)
                        (seq 0 (numel batch))))
              (seq 0 p))
  end.

(** A possibly negative index into an axis of size [n]. *)
Definition norm_index (n : nat) (i : Z) : result nat :=
  if ((0 <=? i) && (i <? Z.of_nat n))%Z then Ok (Z.to_nat i)
  else if ((- Z.of_nat n <=? i) && (i <? 0))%Z then Ok (Z.to_nat (i + Z.of_nat n))
  else Err IndexError.

(** Row-major offset of the block selected by a multi-index that fixes the
    leading axes of [shape], with the shape of the axes left over. *)
Fixpoint ravel (shape : list nat) (idx : list Z) (acc : nat) {struct idx}
  : result (nat * list nat) :=
  match idx with
  | [] => Ok (acc, shape)
  | i :: idx' =>
      match shape with
      | [] => Err IndexError
      | n :: shape' =>
          match norm_index n i with
          | Ok j => ravel shape' idx' (acc * n + j)
          | Err e => Err e
          end
      end
  end.

(** [t[i1, ..., ik]] for integers [i1..ik]: the entries of the selected
    block and its shape. *)
Definition block {A} (t : tensor A) (idx : list Z) : result (tensor A) :=
  match ravel (tshape t) idx 0 with
  | Ok (off, rest) =>
      Ok (mkTensor rest (row (numel rest) (tdata t) off))
  | Err e => Err e
  end.

(** [coef[index]] for a tuple [index] of integer tensors of one common
    shape, indexing the leading axes of [coef]: the result has the shape of
    the index tensors followed by the axes left over.  The empty tuple
    yields [coef] itself. *)
Definition index_tuple {A} (coef : tensor A) (index : list (tensor Z))
  : result (tensor A) :=
  match index with
  | [] => Ok coef
  | i0 :: _ =>
      match mapM (fun r => block coef (map (fun t => nth r (tdata t) 0%Z) index))
                 (seq 0 (numel (tshape i0))) with
      | Ok bs =>
          Ok (mkTensor (tshape i0 ++ skipn (List.length index) (tshape coef))
                (List.concat (map tdata bs)))
      | Err e => Err e
      end
  end.

(** *** Broadcasting *)

(** The common shape of two shapes, both given last axis first. *)
Fixpoint broadcast_rev (r1 r2 : list nat) : result (list nat) :=
  match r1, r2 with
  | [], r => Ok r
  | r, [] => Ok r
  | a :: r1', b :: r2' =>
      match broadcast_rev r1' r2' with
      | Err e => Err e
      | Ok r =>
          if a =? b then Ok (a :: r)
          else if a =? 1 then Ok (b :: r)
          else if b =? 1 then Ok (a :: r)
          else Err RuntimeError
      end
  end.

Definition broadcast_shapes (s1 s2 : list nat) : result (list nat) :=
  match broadcast_rev (rev s1) (rev s2) with
  | Ok r => Ok (rev r)
  | Err e => Err e
  end.

(** The multi-index, last axis first, of the row-major offset [k]. *)
Fixpoint unravel_rev (rshape : list nat) (k : nat) : list nat :=
  match rshape with
  | [] => []
  | n :: rshape' => (k mod n) :: unravel_rev rshape' (k / n)
  end.

(** The offset in an operand of shape [rshape] (last axis first) of the
    entry that is broadcast to the multi-index [ridx]. *)
Fixpoint operand_offset (rshape : list nat) (ridx : list nat) : nat :=
  match rshape, ridx with
  | n :: rshape', i :: ridx' =>
      (if n =? 1 then 0 else i) + n * operand_offset rshape' ridx'
  | _, _ => 0
  end.

(** An elementwise binary operation with torch broadcasting. *)
Definition broadcast2 {A B C} (f : A -> B -> C) (t1 : tensor A) (t2 : tensor B)
  : result (tensor C) :=
  match broadcast_shapes (tshape t1) (tshape t2) with
  | Err e => Err e
  | Ok shape =>
      match
        mapM (fun k =>
                let ridx := unravel_rev (rev shape) k in
                match nth_error (tdata t1) (operand_offset (rev (tshape t1)) ridx),
                      nth_error (tdata t2) (operand_offset (rev (tshape t2)) ridx) with
                | Some a, Some b => Ok (f a b)
                | _, _ => Err IndexError
                end)
             (seq 0 (numel shape))
      with
      | Ok es => Ok (mkTensor shape es)
      | Err e => Err e
      end
  end.

(** [t1 + t2] *)
Definition tadd : tensor Q -> tensor Q -> result (tensor Q) :=
  broadcast2 Qplus.

(** The inner product of two vectors. *)
Definition dot (x y : list Q) : Q :=
  fold_left (fun acc xy => (acc + fst xy * snd xy)%Q) (combine x y) 0%Q.

(** [m @ v] for a vector [v]: the inner product of every row of [m] along
    its last axis with [v].  [linear_response] asserts that [v] is a vector
    before it multiplies; other ranks of [v] are not modelled. *)
Definition matvec (m v : tensor Q) : result (tensor Q) :=
  match rev (tshape m), tshape v with
  | f :: _, [f'] =>
      if f =? f' then
        let batch := shape_init (tshape m) in
        Ok (mkTensor batch
              (map (fun r => dot (row f (tdata m) r) (tdata v))
                   (seq 0 (numel batch))))
      else Err RuntimeError
  | _, _ => Err RuntimeError
  end.

(** ** models.py *)

(** A schema: variable names, in order, with their domains. *)
Definition Schema := list (string * list string).

(** A key of the coefficient dictionary: a tuple of variable names, or
    [None] for the coefficients of the extra features. *)
Definition Key := option (list string).

Definition Coefs := list (Key * tensor Q).

Definition block_eqb : list string -> list string -> bool := list_eqb String.eqb.

Definition key_eqb (k1 k2 : Key) : bool :=
  match k1, k2 with
  | None, None => true
  | Some b1, Some b2 => block_eqb b1 b2
  | _, _ => false
  end.

Definition is_some {A} (o : option A) : bool :=
  match o with Some _ => true | None => false end.

(** A [for] loop threading an accumulator, left at the first exception. *)
Fixpoint foldM {A S} (f : S -> A -> result S) (l : list A) (s : S) : result S :=
  match l with
  | [] => Ok s
  | x :: xs =>
      match f s x with
      | Ok s' => foldM f xs s'
      | Err e => Err e
      end
  end.

Local Open Scope result_scope.

(** The body of the loop of [linear_response] (lines 45-54). *)
Definition response_step (coefs : Coefs) (choices : list (string * tensor Z))
    (extra_features : option (tensor Q))
    (acc : tensor Q) (item : Key * tensor Q) : result (tensor Q) :=
  let (key, coef) := item in
  match key with
  | None =>
      ef <- of_option AssertionError extra_features ;;
      cN <- PyDict.getitem key_eqb None coefs ;;
      t <- matvec ef cN ;;
      tadd acc t
  | Some names =>
      assert (tdim coef =? List.length names) ;;;
      index <- mapM (fun name => PyDict.getitem String.eqb name choices) names ;;
      t <- index_tuple coef index ;;
      tadd acc t
  end.

(** [linear_response] (lines 11-56), in eager execution: the tracing state
    is unset, so every assertion is checked. *)
Definition linear_response (schema : Schema) (coefs : Coefs)
    (sequence : tensor Z) (extra_features : option (tensor Q))
  : result (tensor Q) :=
  p <- size_last sequence ;;
  assert (p =? List.length schema) ;;;
  match extra_features with
  | None => assert (negb (PyDict.mem key_eqb None coefs))
  | Some ef =>
      assert (PyDict.mem key_eqb None coefs) ;;;
      cN <- PyDict.getitem key_eqb None coefs ;;
      assert (tdim cN =? 1) ;;;
      assert (shape_eqb (tshape ef) (shape_init (tshape sequence) ++ tshape cN))
  end ;;;
  assert (Bool.eqb (is_some extra_features) (PyDict.mem key_eqb None coefs)) ;;;
  cols <- unbind_last sequence ;;
  let choices := PyDict.of_pairs String.eqb (combine (PyDict.keys schema) cols) in
  foldM (response_step coefs choices extra_features) coefs (scalar 0%Q).

(** A single design as a tensor: a vector of category indices. *)
Definition design_tensor (d : list Z) : tensor Z := mkTensor [List.length d] d.

(** *** The linear response, as the design document words it *)

Fixpoint mapO {A B} (f : A -> option B) (l : list A) : option (list B) :=
  match l with
  | [] => Some []
  | x :: xs =>
      match f x, mapO f xs with
      | Some y, Some ys => Some (y :: ys)
      | _, _ => None
      end
  end.

(** The category index that the design [d] gives to the variable [name]. *)
Definition category (schema : Schema) (d : list Z) (name : string) : option Z :=
  PyDict.get String.eqb name (combine (PyDict.keys schema) d).

(** The entry of [coef] at a full multi-index. *)
Definition coef_at (coef : tensor Q) (zs : list Z) : option Q :=
  match ravel (tshape coef) zs 0 with
  | Ok (off, []) => nth_error (tdata coef) off
  | _ => None
  end.

(** The contribution of one item of the coefficient dictionary to the
    response of the design [d]: the coefficient entry at the design's
    categories in the block's variables, or, under the key [None], the dot
    product of the extra features with the [None]-keyed coefficients. *)
Definition contribution (schema : Schema) (coefs : Coefs) (d : list Z)
    (extra_features : option (tensor Q)) (item : Key * tensor Q) : option Q :=
  match fst item with
  | None =>
      match extra_features, PyDict.get key_eqb None coefs with
      | Some ef, Some cN => Some (dot (tdata ef) (tdata cN))
      | _, _ => None
      end
  | Some names =>
      match mapO (category schema d) names with
      | Some zs => coef_at (snd item) zs
      | None => None
      end
  end.

(** The size of the domain of a variable. *)
Definition dom_size (schema : Schema) (name : string) : option nat :=
  option_map (@List.length string) (PyDict.get String.eqb name schema).

(** Data model: a design has one category index per variable, each within
    the variable's domain. *)
Definition design_fits (schema : Schema) (d : list Z) : Prop :=
  Forall2 (fun z v => (0 <= z < Z.of_nat (List.length (snd v)))%Z) d schema.

(** Data model: the coefficient tensor of a block has one axis per variable
    of the block, of the size of the variable's domain. *)
Definition coefs_fit (schema : Schema) (coefs : Coefs) : Prop :=
  forall names coef, In (Some names, coef) coefs ->
    twf coef /\ mapO (dom_size schema) names = Some (tshape coef).

(** The asserted relation between the extra features of one design and the
    [None]-keyed coefficients: both present or both absent, and vectors of
    one length. *)
Definition extra_fit (coefs : Coefs) (extra_features : option (tensor Q)) : Prop :=
  match extra_features, PyDict.get key_eqb None coefs with
  | None, None => True
  | Some ef, Some cN =>
      exists f, tshape cN = [f] /\ tshape ef = [f] /\ twf ef /\ twf cN
  | _, _ => False
  end.

(** *** Experiments *)

(** The experiment dictionary: [sequences] of shape [(N, P)], [batch_ids] of
    shape [(N,)], and optionally [responses] of shape [(N,)]. *)
Record Experiment : Type := mkExperiment {
  sequences : tensor Z;
  responses : option (tensor Q);
  batch_ids : tensor Z;
}.

(** [int(t.max())]; the maximum of an empty tensor is an error. *)
Definition tmax (t : tensor Z) : result Z :=
  match tdata t with
  | [] => Err RuntimeError
  | z :: zs => Ok (fold_left Z.max zs z)
  end.

(** *** Distributions, sample sites and the sampling monad *)

(** The distributions the model uses.  Only the shapes of their parameters
    are looked at; [Binomial] also rejects a negative number of trials.
    [MaskedDelta v] is [Delta(v, event_dim=v.ndim).mask(False)], the
    distribution that [pyro.deterministic] gives to its site. *)
Inductive Dist : Type :=
| Normal (loc scale : tensor Q)
| LogNormal (loc scale : tensor Q)
| Binomial (total_count : Z) (logits : tensor Q)
| ToEvent (n : nat) (d : Dist)
| MaskedDelta (v : tensor Q).

(** The shape of one draw. *)
Fixpoint dist_shape (d : Dist) : result (list nat) :=
  match d with
  | Normal loc scale => broadcast_shapes (tshape loc) (tshape scale)
  | LogNormal loc scale => broadcast_shapes (tshape loc) (tshape scale)
  | Binomial n logits =>
      if (n <? 0)%Z then Err ValueError else Ok (tshape logits)
  | ToEvent n d' =>
      match dist_shape d' with
      | Ok s => if n <=? List.length s then Ok s else Err ValueError
      | Err e => Err e
      end
  | MaskedDelta v => Ok (tshape v)
  end.

(** One entry of the execution trace: a sample site with its distribution,
    its value, and whether the value was given ([is_observed]).  The field
    [s_dist] is optional for traces built by hand; every site that the
    model records carries its distribution. *)
Record Site : Type := mkSite {
  s_name : string;
  s_dist : option Dist;
  s_value : tensor Q;
  s_observed : bool;
}.

(** [(response * quantization_bins).round()]: rounding half to even, here
    of the exact product; the code rounds the product of floats, which can
    fall on the other side of a tie. *)
Definition round_half_even (q : Q) : Q :=
  let f := Qfloor q in
  let r := (q - inject_Z f)%Q in
  match (r ?= 1 # 2)%Q with
  | Lt => inject_Z f
  | Gt => inject_Z (f + 1)
  | Eq => if Z.even f then inject_Z f else inject_Z (f + 1)
  end.

(** [str(n)] *)
Definition str (n : nat) : string :=
  DecimalString.NilEmpty.string_of_uint (Nat.to_uint n).

(** [enumerate(l)] *)
Definition enumerate {A} (l : list A) : list (nat * A) :=
  combine (seq 0 (List.length l)) l.

Section Model.
(** The random stream and the sampler of the library: [draw g d shape]
    draws a tensor of the given shape from [d] and advances the stream. *)
Variable RNG : Type.
Variable draw : RNG -> Dist -> list nat -> tensor Q * RNG.

(** [pyroed.typing.validate(schema, experiment=experiment)] *)
Variable validate : Schema -> Experiment -> result unit.

Record MState : Type := mkMState {
  trace : list Site;
  rng : RNG;
}.

Definition M (A : Type) : Type := MState -> MState * result A.

Definition ret {A} (a : A) : M A := fun st => (st, Ok a).

Definition bind {A B} (m : M A) (k : A -> M B) : M B :=
  fun st =>
    match m st with
    | (st', Ok a) => k a st'
    | (st', Err e) => (st', Err e)
    end.

Definition lift {A} (r : result A) : M A := fun st => (st, r).

Definition raise {A} (e : exn) : M A := fun st => (st, Err e).

Notation "x <- c ;; k" := (bind c (fun x => k))
  (at level 61, c at next level, right associativity).
Notation "c ;;; k" := (bind c (fun _ => k))
  (at level 61, right associativity).

Fixpoint foldMM {A S} (f : S -> A -> M S) (l : list A) (s : S) : M S :=
  match l with
  | [] => ret s
  | x :: xs => s' <- f s x ;; foldMM f xs s'
  end.

(** The shape of a site inside [pyro.plate(_, size)]: the distribution is
    expanded along the last axis to the size of the plate. *)
Definition plate_shape (plate : option nat) (d : Dist) : result (list nat) :=
  match dist_shape d, plate with
  | Ok s, None => Ok s
  | Ok s, Some size => broadcast_shapes s [size]
  | Err e, _ => Err e
  end.

(** Whether the trace already holds a site of this name. *)
Definition visited (name : string) (st : MState) : bool :=
  existsb (fun s => String.eqb name (s_name s)) (trace st).

(** [pyro.sample(name, d, obs=obs)], run under a trace as every inference
    algorithm runs the model: an observed site takes the value [obs];
    otherwise a value is drawn.  The site is then recorded, which the trace
    refuses with [RuntimeError] when it already holds a site of this
    name. *)
Definition sample (plate : option nat) (name : string) (d : Dist)
    (obs : option (tensor Q)) : M (tensor Q) :=
  fun st =>
    match plate_shape plate d with
    | Err e => (st, Err e)
    | Ok shape =>
        match obs with
        | Some v =>
            if visited name st then (st, Err RuntimeError)
            else (mkMState (trace st ++ [mkSite name (Some d) v true]) (rng st),
                  Ok v)
        | None =>
            let (v, g) := draw (rng st) d shape in
            if visited name st then (mkMState (trace st) g, Err RuntimeError)
            else (mkMState (trace st ++ [mkSite name (Some d) v false]) g, Ok v)
        end
    end.

(** [pyro.deterministic(name, v)]: a sample site observed at [v], with a
    masked [Delta] distribution. *)
Definition deterministic (name : string) (v : tensor Q) : M unit :=
  fun st =>
    if visited name st then (st, Err RuntimeError)
    else (mkMState (trace st ++ [mkSite name (Some (MaskedDelta v)) v true])
            (rng st),
          Ok tt).

(** [with pyro.plate(name, size)]: an empty plate is refused with
    [ZeroDivisionError]; a negative size fails in [torch.arange] with
    [RuntimeError]. *)
Definition plate (size : Z) : M nat :=
  if (size =? 0)%Z then raise ZeroDivisionError
  else if (size <? 0)%Z then raise RuntimeError
  else ret (Z.to_nat size).

(** *** The model (models.py, lines 59-177)

    In eager execution with assertions enabled: [__debug__] holds and the
    tracing state is unset. *)

(** Lines 81-89: the number of rows [N], the number of batches [B], and
    the checks made before anything is sampled. *)
Definition model_checks (schema : Schema) (extra_features : option (tensor Q))
    (experiment : Experiment) (max_batch_id : option Z) : result (nat * Z) :=
  (max_batch_id <- match max_batch_id with
                   | None => tmax (batch_ids experiment)
                   | Some m => Ok m
                   end ;;
   N <- size0 (sequences experiment) ;;
   let B := (1 + max_batch_id)%Z in
   validate schema experiment ;;;
   match extra_features with
   | Some ef =>
       assert (tdim ef =? 2) ;;;
       n0 <- size0 ef ;;
       assert (n0 =? N)
   | None => Ok tt
   end ;;;
   Ok (N, B))%res.

(** Line 90: [{name: i for i, name in enumerate(schema)}] *)
Definition name_to_int (schema : Schema) : list (string * nat) :=
  PyDict.of_pairs String.eqb
    (map (fun ix => (snd ix, fst ix)) (enumerate (PyDict.keys schema))).

(** Lines 98-111: the body of the loop over the blocks. *)
Definition sample_block (schema : Schema)
    (coef_scale_loc coef_scale_scale : tensor Q)
    (coefs : Coefs) (block : list string) : M Coefs :=
  shape <- lift (mapM (fun name =>
                         (dom <- PyDict.getitem String.eqb name schema ;;
                          Ok (List.length dom))%res) block) ;;
  ps <- lift (mapM (fun name =>
                      PyDict.getitem String.eqb name (name_to_int schema)) block) ;;
  let suffix := String.concat "_" (map str ps) in
  coef_scale <- sample None ("coef_scale_" ++ suffix)
                  (LogNormal coef_scale_loc coef_scale_scale) None ;;
  coef <- sample None ("coef_" ++ suffix)
            (ToEvent (List.length shape) (Normal (zeros shape) coef_scale)) None ;;
  ret (PyDict.set key_eqb (Some block) coef coefs).

(** Lines 92-120: the hierarchical coefficients. *)
Definition sample_coefs (schema : Schema) (feature_blocks : list (list string))
    (extra_features : option (tensor Q)) : M Coefs :=
  coef_scale_loc <- sample None "coef_scale_loc"
                      (Normal (scalar (-2)%Q) (scalar 1%Q)) None ;;
  coef_scale_scale <- sample None "coef_scale_scale"
                        (LogNormal (scalar 0%Q) (scalar 1%Q)) None ;;
  let trivial_blocks : list (list string) := [[]] in
  coefs <- foldMM (sample_block schema coef_scale_loc coef_scale_scale)
             (trivial_blocks ++ feature_blocks) [] ;;
  match extra_features with
  | Some ef =>
      let shape := skipn (List.length (tshape ef) - 1) (tshape ef) in
      coef_scale <- sample None "coef_scale"
                      (LogNormal coef_scale_loc coef_scale_scale) None ;;
      coef <- sample None "coef"
                (ToEvent 1 (Normal (zeros shape) coef_scale)) None ;;
      ret (PyDict.set key_eqb None coef coefs)
  | None => ret coefs
  end.

(** Lines 131-143: the within-batch scale and location. *)
Definition batch_effect (B : Z) (response_loc : tensor Q) (ids : tensor Z)
  : M (tensor Q * tensor Q) :=
  within_batch_scale <- sample None "within_batch_scale"
                          (LogNormal (scalar 0%Q) (scalar 1%Q)) None ;;
  within_batch_loc <-
    (if (B =? 1)%Z then ret response_loc
     else
       across_batch_scale <- sample None "across_batch_scale"
                               (LogNormal (scalar 0%Q) (scalar 1%Q)) None ;;
       b <- plate B ;;
       batch_response <- sample (Some b) "batch_response"
                           (Normal (scalar 0%Q) across_batch_scale) None ;;
       lift (assert (shape_eqb (tshape batch_response) [b])) ;;;
       t <- lift (index_tuple batch_response [ids]) ;;
       lift (tadd response_loc t)) ;;
  ret (within_batch_loc, within_batch_scale).

(** Lines 146-175: the likelihood. *)
Definition likelihood (N : nat) (response_type : string)
    (quantization_bins : Z) (experiment : Experiment)
    (within_batch_loc within_batch_scale : tensor Q) : M unit :=
  n <- plate (Z.of_nat N) ;;
  if String.eqb response_type "real" then
    sample (Some n) "responses"
      (Normal within_batch_loc within_batch_scale) (responses experiment) ;;;
    ret tt
  else if String.eqb response_type "unit_interval" then
    logits <- sample (Some n) "logits"
                (Normal within_batch_loc within_batch_scale) None ;;
    let response := responses experiment in
    let quantized_obs :=
      option_map
        (tmap (fun r => round_half_even (r * inject_Z quantization_bins)%Q))
        response in
    quantized_obs <- sample (Some n) "quantized_response"
                       (Binomial quantization_bins logits) quantized_obs ;;
    match response with
    | None =>
        deterministic "responses"
          (tmap (fun q => (q / inject_Z quantization_bins)%Q) quantized_obs)
    | Some _ => ret tt
    end
  else raise ValueError.

Definition model (schema : Schema) (feature_blocks : list (list string))
    (extra_features : option (tensor Q)) (experiment : Experiment)
    (max_batch_id : option Z) (response_type : string)
    (quantization_bins : Z) : M Coefs :=
  nb <- lift (model_checks schema extra_features experiment max_batch_id) ;;
  let (N, B) := nb : nat * Z in
  coefs <- sample_coefs schema feature_blocks extra_features ;;
  response_loc <- lift (linear_response schema coefs (sequences experiment)
                          extra_features) ;;
  ls <- batch_effect B response_loc (batch_ids experiment) ;;
  likelihood N response_type quantization_bins experiment (fst ls) (snd ls) ;;;
  ret coefs.

(** *** The model without a batch-effect term

    The same model with the batch term left out: the location of the
    likelihood is the linear response. *)
Definition model_without_batch_effect (schema : Schema)
    (feature_blocks : list (list string))
    (extra_features : option (tensor Q)) (experiment : Experiment)
    (max_batch_id : option Z) (response_type : string)
    (quantization_bins : Z) : M Coefs :=
  nb <- lift (model_checks schema extra_features experiment max_batch_id) ;;
  let (N, B) := nb : nat * Z in
  coefs <- sample_coefs schema feature_blocks extra_features ;;
  response_loc <- lift (linear_response schema coefs (sequences experiment)
                          extra_features) ;;
  within_batch_scale <- sample None "within_batch_scale"
                          (LogNormal (scalar 0%Q) (scalar 1%Q)) None ;;
  likelihood N response_type quantization_bins experiment
    response_loc within_batch_scale ;;;
  ret coefs.

End Model.

Arguments mkMState {RNG} trace rng.
Arguments trace {RNG} m.
Arguments rng {RNG} m.
Arguments visited {RNG} name st.

(** What the model relies on from the sampler of the library: a draw has
    the shape asked for, and a [Binomial] draw counts successes among
    [total_count] trials. *)
Definition sampler_ok {RNG : Type}
    (draw : RNG -> Dist -> list nat -> tensor Q * RNG) : Prop :=
  forall g d shape,
    tshape (fst (draw g d shape)) = shape /\
    forall n logits, d = Binomial n logits -> (0 <= n)%Z ->
      Forall (fun q => (0 <= q <= inject_Z n)%Q) (tdata (fst (draw g d shape))).

(** *** A validation function *)

(** Modelled from the spec: [pyroed/typing.py], which defines [validate], is
    not among the sources.  The checks are the invariants of the data model:
    every domain is non-empty; [sequences] is a matrix with one column per
    variable whose entries are category indices within the domains;
    [batch_ids] and [responses] have one entry per row; batch ids are
    non-negative.  The model itself takes [validate] as a parameter; this
    instance serves the examples. *)
Definition validate_spec (schema : Schema) (experiment : Experiment)
  : result unit :=
  let seqs := sequences experiment in
  (assert (forallb (fun v => 1 <=? List.length (snd v)) schema) ;;;
   assert (tdim seqs =? 2) ;;;
   N <- size0 seqs ;;
   p <- size_last seqs ;;
   assert (p =? List.length schema) ;;;
   assert (twfb seqs) ;;;
   assert (forallb
             (fun r =>
                forallb (fun zv => ((0 <=? fst zv) &&
                                    (fst zv <? Z.of_nat (List.length (snd (snd zv)))))%Z)
                        (combine (row p (tdata seqs) r) schema))
             (seq 0 N)) ;;;
   assert (shape_eqb (tshape (batch_ids experiment)) [N]) ;;;
   assert (twfb (batch_ids experiment)) ;;;
   assert (forallb (fun b => (0 <=? b)%Z) (tdata (batch_ids experiment))) ;;;
   match responses experiment with
   | Some r => assert (shape_eqb (tshape r) [N] && twfb r)
   | None => Ok tt
   end)%res.

(** *** A sampler reading pre-drawn variates from a tape

    [Normal] draws are [loc + scale * eps] for the standard variates [eps] on
    the tape, [LogNormal] draws are positive, [Binomial] draws are counts
    between [0] and [total_count].  A tape that runs out reads as zeros. *)
Definition take_tape (k : nat) (tape : list Q) : list Q * list Q :=
  (firstn k (tape ++ repeat 0%Q k), skipn k tape).

Definition clamp (lo hi z : Z) : Z := Z.max lo (Z.min hi z).

Fixpoint draw_value (d : Dist) (shape : list nat) (eps : tensor Q) : tensor Q :=
  match d with
  | Normal loc scale =>
      match (t <- broadcast2 Qmult scale eps ;; tadd loc t)%res with
      | Ok v => if shape_eqb (tshape v) shape then v else eps
      | Err _ => eps
      end
  | LogNormal _ _ => tmap (fun e => (1 + Qabs e)%Q) eps
  | Binomial n _ => tmap (fun e => inject_Z (clamp 0 n (Qfloor e))) eps
  | ToEvent _ d' => draw_value d' shape eps
  | MaskedDelta v => if shape_eqb (tshape v) shape && twfb v then v else eps
  end.

Definition draw_tape (tape : list Q) (d : Dist) (shape : list nat)
  : tensor Q * list Q :=
  let (eps, tape') := take_tape (numel shape) tape in
  (draw_value d shape (mkTensor shape eps), tape').

(** A small configuration used to exercise the definitions: two variables,
    a constant term, a singleton block, a pairwise block and two extra
    features. *)
Module Example.
Definition schema : Schema :=
  [("a", ["x"; "y"]); ("b", ["p"; "q"; "r"])]%string.

Definition coefs : Coefs :=
  [(Some [], scalar (1 # 2));
   (Some ["a"%string], mkTensor [2] [1; 2]%Q);
   (None, mkTensor [2] [10; 100]%Q);
   (Some ["a"; "b"]%string, mkTensor [2; 3] [3; 4; 5; 6; 7; 8]%Q)].

Definition design : list Z := [1; 2]%Z.

Definition extra : tensor Q := mkTensor [2] [1; 1]%Q.

Definition feature_blocks : list (list string) :=
  [["a"]; ["b"]; ["a"; "b"]]%string.

(** Three observed designs, all of batch [0]. *)
Definition experiment : Experiment :=
  mkExperiment (mkTensor [3; 2] [0; 0; 1; 2; 0; 1]%Z)
               (Some (mkTensor [3] [1 # 10; 9 # 10; 1 # 2]))
               (mkTensor [3] [0; 0; 0]%Z).

(** The same designs without responses, for simulation. *)
Definition unobserved : Experiment :=
  mkExperiment (sequences experiment) None (batch_ids experiment).

(** The same designs, all of batch [2]. *)
Definition late_batch : Experiment :=
  mkExperiment (sequences experiment) (responses experiment)
               (mkTensor [3] [2; 2; 2]%Z).

Definition tape : list Q :=
  [1; 2; 3; -1; 1 # 2; 5; 7; -3; 2; 1; 4; 1 # 3; 6; 2; 2; 40; 60; 250; 3;
   1; -100; 0; 30; 45; 120]%Q.

Definition start : MState (list Q) := mkMState [] tape.

Definition run (feature_blocks : list (list string))
    (extra_features : option (tensor Q)) (experiment : Experiment)
    (max_batch_id : option Z) (response_type : string) (bins : Z) :=
  model (list Q) draw_tape validate_spec schema feature_blocks
    extra_features experiment max_batch_id response_type bins start.
End Example.

(** ** inference.py *)

(** [len(t)]: the size of the first axis; a 0-dimensional tensor has none. *)
Definition tlen {A} (t : tensor A) : result nat :=
  match tshape t with
  | [] => Err TypeError
  | n :: _ => Ok n
  end.

(** [torch.randint(low, high, ())]: the finitely many outcomes, each as
    likely as the others; an empty range is an error. *)
Definition randint (low high : Z) : result (list Z) :=
  if (low <? high)%Z
  then Ok (map (fun k => (low + Z.of_nat k)%Z) (seq 0 (Z.to_nat (high - low))))
  else Err RuntimeError.

Module Sampler.
(** The fields of a [Sampler] object. *)
Record t : Type := mk {
  samples : list (string * tensor Q);
  num_samples : nat;
}.

(** [Sampler.__init__] (lines 89-91) *)
Definition init (samples : list (string * tensor Q)) : result t :=
  match PyDict.values samples with
  | [] => Err StopIteration
  | v :: _ =>
      match tlen v with
      | Ok n => Ok (mk samples n)
      | Err e => Err e
      end
  end.

(** [{k: v[i] for k, v in self.samples.items()}] *)
Definition assignment (self : t) (i : Z) : result (list (string * tensor Q)) :=
  mapM (fun kv =>
          match index_tuple (snd kv) [scalar i] with
          | Ok x => Ok (fst kv, x)
          | Err e => Err e
          end)
       (samples self).

(** [Sampler.__call__] (lines 93-95): for every outcome of [randint],
    the value returned (or the exception raised) and the object after the
    call. *)
Definition call (self : t)
  : result (list (result (list (string * tensor Q)) * t)) :=
  match randint 0 (Z.of_nat (num_samples self)) with
  | Ok outcomes => Ok (map (fun i => (assignment self i, self)) outcomes)
  | Err e => Err e
  end.
End Sampler.

(** [fit_mcmc] (lines 52-79): the chain is run by the library, [get_samples]
    gives the draws kept after warm-up.  A run of the library that fails is
    not modelled. *)
Definition fit_mcmc {Model : Type}
    (mcmc_samples : Model -> nat -> nat -> nat -> bool -> list (string * tensor Q))
    (model : Model) (num_samples warmup_steps num_chains : nat)
    (jit_compile : option bool) : result Sampler.t :=
  let jit_compile := match jit_compile with None => true | Some b => b end in
  let samples := mcmc_samples model num_samples warmup_steps num_chains jit_compile in
  Sampler.init samples.

Module SVI.
Import Reals.
Local Open Scope R_scope.

(** The state of [ClippedAdam]: the learning rate and its decay factor. *)
Record ClippedAdam : Type := mkAdam {
  lr : R;
  lrd : R;
}.

Section Fit.
(** The library: models, guides, the contents of the parameter store and
    the random stream.  The constructor of the guide is given the parameter
    store, which it may read and extend; [elbo_update jit model guide lr
    params g] is the gradient step of one [svi.step()] taken at learning
    rate [lr], returning the loss. *)
Variables Model Guide Params RNG : Type.
Variable empty_params : Params.
Variable AutoLowRankMultivariateNormal : Model -> Params -> Guide * Params.
Variable elbo_update :
  bool -> Model -> Guide -> R -> Params -> RNG -> R * Params * RNG.

(** The global state of Pyro. *)
Record Pyro : Type := mkPyro {
  param_store : Params;
  rng : RNG;
}.

(** [pyro.clear_param_store()] *)
Definition clear_param_store (p : Pyro) : Pyro :=
  mkPyro empty_params (rng p).

(** Line 32: [ClippedAdam({"lr": lr, "lrd": 0.1 ** (1 / num_steps)})] *)
Definition make_optim (lr0 : R) (num_steps : Z) : result ClippedAdam :=
  if (num_steps =? 0)%Z then Err ZeroDivisionError
  else Ok (mkAdam lr0 (Rpower (1 / 10) (1 / IZR num_steps))).

(** [svi.step()]: the optimizer multiplies its learning rate by [lrd],
    then updates the parameters. *)
Definition svi_step (jit : bool) (model : Model) (guide : Guide)
    (s : ClippedAdam * Pyro) : R * (ClippedAdam * Pyro) :=
  let (optim, p) := s in
  let optim' := mkAdam (lr optim * lrd optim) (lrd optim) in
  match elbo_update jit model guide (lr optim') (param_store p) (rng p) with
  | (loss, params, g) => (loss, (optim', mkPyro params g))
  end.

(** Lines 35-38: [for step in range(num_steps)]. *)
Fixpoint svi_loop (n : nat) (jit : bool) (model : Model) (guide : Guide)
    (losses : list R) (s : ClippedAdam * Pyro)
  : list R * (ClippedAdam * Pyro) :=
  match n with
  | O => (losses, s)
  | S n' =>
      let (loss, s') := svi_step jit model guide s in
      svi_loop n' jit model guide (losses ++ [loss]) s'
  end.

(** [fit_svi] (lines 11-49); logging and plotting are left out. *)
Definition fit_svi (model : Model) (lr0 : R) (num_steps : Z)
    (jit_compile : option bool) (p : Pyro) : Pyro * result Guide :=
  let jit_compile := match jit_compile with None => false | Some b => b end in
  let p := clear_param_store p in
  let (guide, params) := AutoLowRankMultivariateNormal model (param_store p) in
  let p := mkPyro params (rng p) in
  match make_optim lr0 num_steps with
  | Err e => (p, Err e)
  | Ok optim =>
      let '(_, (_, p')) :=
        svi_loop (Z.to_nat num_steps) jit_compile model guide [] (optim, p) in
      (p', Ok guide)
  end.

(** The schedule of the learning rate as the documentation has it, an
    exponential decay: [n] gradient steps, of which the [k]-th, counted
    from [1] after [done] earlier steps, is taken at the rate
    [lr0 * lrd ^ (done + k)]. *)
Fixpoint scheduled_updates (n done : nat) (jit : bool) (model : Model)
    (guide : Guide) (lr0 lrd : R) (p : Pyro) : Pyro :=
  match n with
  | O => p
  | S n' =>
      match elbo_update jit model guide (lr0 * lrd ^ S done)
              (param_store p) (rng p) with
      | (_, params, g) =>
          scheduled_updates n' (S done) jit model guide lr0 lrd (mkPyro params g)
      end
  end.
End Fit.

(** A stand-in for the library: no parameters, a constant loss. *)
Definition still_update (_ : bool) (_ _ : unit) (_ : R) (_ _ : unit)
  : R * unit * unit := (0, tt, tt).

(** A stand-in for the library that keeps, as its parameters, the learning
    rates of the gradient steps it was asked to take. *)
Definition recording_update (_ : bool) (_ _ : unit) (rate : R)
    (rates : list R) (g : unit) : R * list R * unit :=
  (0, rates ++ [rate], g).

(** The learning rates at which [fit_svi] takes its gradient steps: the
    parameter store that a fit over [recording_update] leaves. *)
Definition rates_of_fit (lr0 : R) (num_steps : Z) : result (list R) :=
  match fit_svi unit unit (list R) unit [] (fun _ ps => (tt, ps))
          recording_update tt lr0 num_steps None
          (mkPyro (list R) unit [] tt) with
  | (p, Ok _) => Ok (param_store (list R) unit p)
  | (_, Err e) => Err e
  end.
End SVI.

(** ** examples/rollout_tf8.py *)

Module Rollout.
(** The dataset: all sequences with their responses, and the index of
    every sequence. *)
Record Data : Type := mkData {
  data_sequences : tensor Z;
  data_responses : tensor Q;
  seq_to_id : list (list Z * Z);
}.

Definition tuple_eqb : list Z -> list Z -> bool := list_eqb Z.eqb.

(** The order of Python tuples: [a <= b]. *)
Fixpoint tuple_leb (a b : list Z) : bool :=
  match a, b with
  | [], _ => true
  | _ :: _, [] => false
  | x :: a', y :: b' =>
      if (x <? y)%Z then true
      else if (y <? x)%Z then false
      else tuple_leb a' b'
  end.

Fixpoint insert (x : list Z) (l : list (list Z)) : list (list Z) :=
  match l with
  | [] => [x]
  | y :: l' => if tuple_leb x y then x :: l else y :: insert x l'
  end.

(** [sorted(design)] *)
Definition sorted (design : list (list Z)) : list (list Z) :=
  fold_right insert [] design.

(** [t[ids]] for a list of integers: the selected rows. *)
Definition take_rows {A} (t : tensor A) (ids : list Z) : result (tensor A) :=
  match tshape t with
  | [] => Err IndexError
  | n :: rest =>
      match mapM (fun i =>
                    match norm_index n i with
                    | Ok j => Ok (row (numel rest) (tdata t) j)
                    | Err e => Err e
                    end) ids with
      | Ok rows => Ok (mkTensor (List.length ids :: rest) (List.concat rows))
      | Err e => Err e
      end
  end.

(** [torch.cat([t1, t2])]: along the first axis; a tensor of shape [(0,)]
    is skipped. *)
Definition cat {A} (t1 t2 : tensor A) : result (tensor A) :=
  match tshape t1, tshape t2 with
  | [], _ | _, [] => Err RuntimeError
  | [0], _ => Ok t2
  | _, [0] => Ok t1
  | n1 :: r1, n2 :: r2 =>
      if shape_eqb r1 r2 then Ok (mkTensor (n1 + n2 :: r1) (tdata t1 ++ tdata t2))
      else Err RuntimeError
  end.

(** [update_experiment] (lines 52-60); [design] lists the elements of the
    set. *)
Definition update_experiment (experiment : Experiment)
    (design : list (list Z)) (data : Data) : result Experiment :=
  ids <- mapM (fun s => PyDict.getitem tuple_eqb s (seq_to_id data))
           (sorted design) ;;
  new_sequences <- take_rows (data_sequences data) ids ;;
  new_responses <- take_rows (data_responses data) ids ;;
  let new_batch_ids :=
    mkTensor [List.length ids] (repeat 0%Z (List.length ids)) in
  s <- cat (sequences experiment) new_sequences ;;
  r <- match responses experiment with
       | Some v => v' <- cat v new_responses ;; Ok (Some v')
       | None => Ok None
       end ;;
  b <- cat (batch_ids experiment) new_batch_ids ;;
  Ok (mkExperiment s r b).

(** Lines 91-93 of [main]: the index of every row of the dataset. *)
Definition make_seq_to_id (sequences : tensor Z) : list (list Z * Z) :=
  match tshape sequences with
  | [n; p] =>
      PyDict.of_pairs tuple_eqb
        (map (fun i => (row p (tdata sequences) i, Z.of_nat i)) (seq 0 n))
  | _ => []
  end.

(** The number of rows of an experiment. *)
Definition size (e : Experiment) : result nat := size0 (sequences e).

(** A toy dataset: the four sequences over two binary positions. *)
Definition toy_sequences : tensor Z :=
  mkTensor [4; 2] [0; 0; 0; 1; 1; 0; 1; 1]%Z.

Definition toy_data : Data :=
  mkData toy_sequences (mkTensor [4] [1 # 10; 2 # 10; 3 # 10; 4 # 10])
         (make_seq_to_id toy_sequences).

(** An experiment holding the second row of the toy dataset. *)
Definition toy_experiment : Experiment :=
  mkExperiment (mkTensor [1; 2] [0; 1]%Z) (Some (mkTensor [1] [2 # 10]))
               (mkTensor [1] [0]%Z).

Definition toy_design : list (list Z) := [[1; 1]; [0; 0]]%Z.
End Rollout.

(** The [i]-th stored draw of a site: [v[i]]. *)
Definition nth_sample (v : tensor Q) (i : nat) : tensor Q :=
  mkTensor (tl (tshape v)) (row (numel (tl (tshape v))) (tdata v) i).

(** Draws as the chain stores them: three joint draws of two sites. *)
Definition stored_draws : list (string * tensor Q) :=
  [("coef_0"%string, mkTensor [3; 2] [1; 2; 3; 4; 5; 6]%Q);
   ("within_batch_scale"%string, mkTensor [3] [7; 8; 9]%Q)].

(** What [get_samples] gives when no draw was kept. *)
Definition no_draws : list (string * tensor Q) :=
  [("coef_0"%string, mkTensor [0; 2] []);
   ("within_batch_scale"%string, mkTensor [0] [])].

(** *** Batch ids *)

(** Data model: batch ids are non-negative and dense from [0] upward. *)
Definition dense_batch_ids (ids : list Z) : Prop :=
  Forall (fun b => (0 <= b)%Z) ids /\
  forall b, In b ids -> forall c, (0 <= c <= b)%Z -> In c ids.

(** Exactly one distinct batch id. *)
Definition one_batch_id (ids : list Z) : Prop :=
  exists b, In b ids /\ forall c, In c ids -> c = b.

(** A site that is not one of the two sites of the batch effect. *)
Definition not_batch_site (s : Site) : Prop :=
  s_name s <> "across_batch_scale"%string /\ s_name s <> "batch_response"%string.

(** [grows P m]: running [m] only appends sites to the trace, and the sites
    it appends satisfy [P]. *)
Definition grows {RNG A : Type} (P : Site -> Prop) (m : M RNG A) : Prop :=
  forall st st' r, m st = (st', r) ->
    exists new, trace st' = trace st ++ new /\ Forall P new.

(** A latent variable: a site with a distribution whose value was drawn. *)
Definition latent_site (s : Site) : Prop :=
  s_observed s = false /\ s_dist s <> None.

(** The sites with another name than [name]. *)
Definition not_named (name : string) (s : Site) : Prop := s_name s <> name.

(** *** The names of the sites

    The names under which the model records its sites, as lines 93-120 and
    131-172 of models.py spell them. *)

(** Lines 99-100: [suffix = "_".join(map(str, ps))], with [ps] the
    positions in the schema of the variables of the block. *)
Definition block_suffix (schema : Schema) (block : list string) : result string :=
  match mapM (fun name => PyDict.getitem String.eqb name (name_to_int schema))
             block with
  | Ok ps => Ok (String.concat "_" (map str ps))
  | Err e => Err e
  end.

(** Lines 102-111: [f"coef_scale_{suffix}"] and [f"coef_{suffix}"]. *)
Definition block_site_names (schema : Schema) (block : list string)
  : list string :=
  match block_suffix schema block with
  | Ok suffix => [append "coef_scale_" suffix; append "coef_" suffix]
  | Err _ => []
  end.

(** The names of the sites of lines 93-120, in the order of the code. *)
Definition coef_site_names (schema : Schema) (feature_blocks : list (list string))
    (extra_features : option (tensor Q)) : list string :=
  ["coef_scale_loc"; "coef_scale_scale"]%string
  ++ flat_map (block_site_names schema) ([] :: feature_blocks)
  ++ match extra_features with
     | Some _ => ["coef_scale"; "coef"]%string
     | None => []
     end.

(** The names of the sites of lines 131-172, whichever branch is taken. *)
Definition response_site_names : list string :=
  ["within_batch_scale"; "across_batch_scale"; "batch_response";
   "logits"; "quantized_response"; "responses"]%string.

(** Every name under which a run of the model may record a site. *)
Definition model_site_names (schema : Schema) (feature_blocks : list (list string))
    (extra_features : option (tensor Q)) : list string :=
  coef_site_names schema feature_blocks extra_features ++ response_site_names.

(** No site of the trace carries one of the given names. *)
Definition fresh_for {RNG : Type} (names : list string) (st : MState RNG) : Prop :=
  forall name, In name names -> ~ In name (map s_name (trace st)).

(** The coefficient tensor of every block has one axis per variable of the
    block, of the size of the variable's domain. *)
Definition coefs_shaped (schema : Schema) (coefs : Coefs) : Prop :=
  forall b coef, PyDict.get key_eqb (Some b) coefs = Some coef ->
    mapO (dom_size schema) b = Some (tshape coef).

(** The invariant of tensors, for the coefficients and the extra features. *)
Definition tensors_wf (coefs : Coefs) (extra_features : option (tensor Q)) : Prop :=
  (forall key coef, In (key, coef) coefs -> twf coef) /\
  (forall ef, extra_features = Some ef -> twf ef).

(** ** More of examples/rollout_tf8.py: the blocks and the loop of [main] *)

Module Driver.
(** Lines 37-39: eight positions, four nucleotides each. *)
Definition SCHEMA : Schema :=
  fold_left
    (fun schema n =>
       PyDict.set String.eqb (append "Nucleotide" (str n))
         ["A"; "C"; "G"; "T"]%string schema)
    (seq 0 8) [].

(** Line 43: [[[name] for name in SCHEMA]] *)
Definition singletons (schema : Schema) : list (list string) :=
  map (fun name => [name]) (PyDict.keys schema).

(** Line 44: [[list(ns) for ns in zip(SCHEMA, list(SCHEMA)[1:])]] *)
Definition pairs (schema : Schema) : list (list string) :=
  map (fun ns => [fst ns; snd ns])
      (combine (PyDict.keys schema) (skipn 1 (PyDict.keys schema))).

(** Line 45: the windows of three consecutive names. *)
Definition triples (schema : Schema) : list (list string) :=
  map (fun ns => [fst (fst ns); snd (fst ns); snd ns])
      (combine (combine (PyDict.keys schema) (skipn 1 (PyDict.keys schema)))
               (skipn 2 (PyDict.keys schema))).

Definition SINGLETON_BLOCKS : list (list string) := singletons SCHEMA.
Definition PAIRWISE_BLOCKS : list (list string) := singletons SCHEMA ++ pairs SCHEMA.
Definition GIBBS_BLOCKS : list (list string) := triples SCHEMA.

(** [a if a >= b else b] on rationals. *)
Definition qmax (a b : Q) : Q := if Qle_bool a b then b else a.

(** [t.max().item()] of a floating-point tensor; the maximum of an empty
    tensor is an error. *)
Definition tmaxQ (t : tensor Q) : result Q :=
  match tdata t with
  | [] => Err RuntimeError
  | q :: qs => Ok (fold_left qmax qs q)
  end.

(** [e["responses"].max().item()] *)
Definition best_response (e : Experiment) : result Q :=
  match responses e with
  | Some r => tmaxQ r
  | None => Err KeyError
  end.

Section Main.
(** The design search and its state: [make_design] (lines 63-82) calls
    [pyroed.oed.thompson_sample], which consumes the random stream and the
    parameter store of the library. *)
Variable G : Type.
Variable make_design : Experiment -> G -> list (list Z) * G.
Variable data : Rollout.Data.

(** Lines 100-112: [num_batches] rounds, each appending the updated
    experiment to [experiments] and printing its best response. *)
Fixpoint run_batches (num_batches : nat) (experiments : list Experiment) (g : G)
  : result (list Experiment) * G :=
  match num_batches with
  | O => (Ok experiments, g)
  | S k =>
      match rev experiments with
      | [] => (Err IndexError, g)
      | current :: _ =>
          let (design, g') := make_design current g in
          match Rollout.update_experiment current design data with
          | Ok e' =>
              match best_response e' with
              | Ok _ => run_batches k (experiments ++ [e']) g'
              | Err e => (Err e, g')
              end
          | Err e => (Err e, g')
          end
      end
  end.

(** Line 121: [[e["responses"].max().item() for e in experiments]] *)
Definition response_curve (experiments : list Experiment) : result (list Q) :=
  mapM best_response experiments.

(** Lines 95-121 of [main]: from the initial experiment to the response
    curve; printing, timing and pickling are left out. *)
Definition rollout (num_batches : nat) (experiment : Experiment) (g : G)
  : result (list Experiment * list Q) * G :=
  match best_response experiment with
  | Err e => (Err e, g)
  | Ok _ =>
      match run_batches num_batches [experiment] g with
      | (Ok experiments, g') =>
          match response_curve experiments with
          | Ok curve => (Ok (experiments, curve), g')
          | Err e => (Err e, g')
          end
      | (Err e, g') => (Err e, g')
      end
  end.
End Main.
End Driver.

(** An experiment of [n] observed rows over [p] positions. *)
Definition observed_rows (e : Experiment) (n p : nat) : Prop :=
  tshape (sequences e) = [n; p] /\ twf (sequences e) /\
  tshape (batch_ids e) = [n] /\ twf (batch_ids e) /\
  exists r, responses e = Some r /\ tshape r = [n] /\ twf r.

(** A dataset of [m] rows over [p] positions, indexed as [main] does. *)
Definition dataset_rows (data : Rollout.Data) (m p : nat) : Prop :=
  tshape (Rollout.data_sequences data) = [m; p] /\
  twf (Rollout.data_sequences data) /\
  tshape (Rollout.data_responses data) = [m] /\
  twf (Rollout.data_responses data) /\
  Rollout.seq_to_id data = Rollout.make_seq_to_id (Rollout.data_sequences data).

(** A list of designs in the ascending order of Python tuples. *)
Definition ascending (l : list (list Z)) : Prop :=
  StronglySorted (fun a b => Rollout.tuple_leb a b = true) l.

(** A sequence of values each at least [q] and at least its predecessor. *)
Fixpoint climbs_from (q : Q) (l : list Q) : Prop :=
  match l with
  | [] => True
  | x :: l' => (q <= x)%Q /\ climbs_from x l'
  end.

(** A count of successes among [bins] trials, as a floating-point value. *)
Definition is_count (bins : Z) (q : Q) : Prop :=
  exists k : Z, q = inject_Z k /\ (0 <= k <= bins)%Z.

(** A value in the unit interval. *)
Definition in_unit_interval (q : Q) : Prop := (0 <= q <= 1)%Q.

(** A tensor holding one value per row of an experiment of [N] rows, or a
    single value that broadcasts to every row. *)
Definition per_row (N : nat) (t : tensor Q) : Prop :=
  (tshape t = [] \/ tshape t = [N]) /\ twf t.

(** The value that a per-row tensor holds for the row [r]. *)
Definition entry (t : tensor Q) (r : nat) : Q :=
  nth (match tshape t with [] => 0 | _ => r end) (tdata t) 0%Q.

(** The extra features of the row [r]: [extra_features[r]]. *)
Definition extra_row (extra_features : option (tensor Q)) (r : nat)
  : option (tensor Q) :=
  option_map (fun ef => nth_sample ef r) extra_features.

(** Data model of the batched call: extra features, when present, form a
    matrix with one row per design, and the [None]-keyed coefficients a
    vector over its columns; when absent, there is no [None] key. *)
Definition extras_fit (N : nat) (coefs : Coefs)
    (extra_features : option (tensor Q)) : Prop :=
  match extra_features, PyDict.get key_eqb None coefs with
  | None, None => True
  | Some ef, Some cN =>
      exists f, tshape ef = [N; f] /\ twf ef /\ tshape cN = [f] /\ twf cN
  | _, _ => False
  end.

(** The column [j] of [N] designs over [P] positions stored row by row:
    [sequence.unbind(-1)[j]]. *)
Definition column (P N : nat) (data : list Z) (j : nat) : tensor Z :=
  mkTensor [N] (map (fun r => nth j (row P data r) 0%Z) (seq 0 N)).

(** The position of a variable in the schema. *)
Definition position (schema : Schema) (name : string) : option nat :=
  PyDict.get String.eqb name
    (combine (PyDict.keys schema) (seq 0 (List.length schema))).

(** The contribution of an item to the response of a design, [0] where it
    is undefined. *)
Definition term (schema : Schema) (coefs : Coefs) (d : list Z)
    (extra_features : option (tensor Q)) (item : Key * tensor Q) : Q :=
  match contribution schema coefs d extra_features item with
  | Some q => q
  | None => 0%Q
  end.

(** What the model also relies on from the sampler: the entries of a draw
    fill its shape. *)
Definition sampler_wf {RNG : Type}
    (draw : RNG -> Dist -> list nat -> tensor Q * RNG) : Prop :=
  forall g d shape, twf (fst (draw g d shape)).

(** Data model of the experiment the model is run on: [N] designs over the
    variables of the schema, each within the domains, with one
    non-negative batch id per design. *)
Definition experiment_fits (schema : Schema) (e : Experiment) (N : nat) : Prop :=
  tshape (sequences e) = [N; List.length schema] /\
  twf (sequences e) /\
  (forall r, r < N ->
     design_fits schema (row (List.length schema) (tdata (sequences e)) r)) /\
  tshape (batch_ids e) = [N] /\
  twf (batch_ids e) /\
  Forall (fun b => (0 <= b)%Z) (tdata (batch_ids e)).

(** Data model of the extra features handed to the model: a matrix with
    one row per design. *)
Definition features_fit (N : nat) (extra_features : option (tensor Q)) : Prop :=
  forall ef, extra_features = Some ef ->
    exists f, tshape ef = [N; f] /\ twf ef.

(** An explicit [max_batch_id] bounds the batch ids. *)
Definition bounds_batch_ids (max_batch_id : option Z) (e : Experiment) : Prop :=
  forall m, max_batch_id = Some m ->
    Forall (fun b => (b <= m)%Z) (tdata (batch_ids e)).

(** The design [d] with the categories at the flagged positions written as
    negative indices, counted from the end of the domain. *)
Definition from_the_end (schema : Schema) (d : list Z) (flags : list bool)
  : list Z :=
  map (fun zvb : Z * ((string * list string) * bool) =>
         if snd (snd zvb)
         then (fst zvb - Z.of_nat (List.length (snd (fst (snd zvb)))))%Z
         else fst zvb)
      (combine d (combine schema flags)).

(** A site that a run without data records: a latent draw, or the site of
    [pyro.deterministic], which is marked observed although its value is
    computed by the model, under a masked [Delta] at that value. *)
Definition simulated_site (s : Site) : Prop :=
  latent_site s \/
  (s_name s = "responses"%string /\ s_observed s = true /\
   s_dist s = Some (MaskedDelta (s_value s))).

(** *** Decimal strings

    [str(n)] is a non-empty string of decimal digits; the suffix of a
    block joins such strings with underscores. *)
Definition digit (c : ascii) : bool :=
  match c with
  | "0" | "1" | "2" | "3" | "4" | "5" | "6" | "7" | "8" | "9" => true
  | _ => false
  end%char.

Fixpoint digits (s : string) : bool :=
  match s with
  | EmptyString => true
  | String c s' => digit c && digits s'
  end.

(** A string that is empty or starts with a digit. *)
Definition starts_with_digit (s : string) : bool :=
  match s with
  | EmptyString => true
  | String c _ => digit c
  end.

(* ================================================================== *)
(** * Properties *)

(** ** Dictionaries *)

Section DictFacts.
Context {K V : Type} (eqb : K -> K -> bool).
Hypothesis eqb_eq : forall a b, eqb a b = true <-> a = b.

Lemma set_fresh (k : K) (v : V) (d : list (K * V)) :
  ~ In k (map fst d) -> PyDict.set eqb k v d = d ++ [(k, v)].
Proof.
  induction d as [|[k' v'] d IH]; simpl; intros Hk; [reflexivity|].
  destruct (eqb k k') eqn:E.
  - apply eqb_eq in E. subst. tauto.
  - rewrite IH; tauto.
Qed.

Lemma fold_set_nodup (l acc : list (K * V)) :
  NoDup (map fst (acc ++ l)) ->
  fold_left (fun d kv => PyDict.set eqb (fst kv) (snd kv) d) l acc = acc ++ l.
Proof.
  revert acc. induction l as [|[k v] l IH]; intros acc Hnd; simpl.
  - now rewrite app_nil_r.
  - assert (Hacc : ~ In k (map fst acc)).
    { rewrite map_app in Hnd. simpl in Hnd.
      apply NoDup_remove_2 in Hnd. intros Hin. apply Hnd.
      apply in_or_app. now left. }
    rewrite set_fresh by assumption.
    rewrite IH; rewrite <- app_assoc; simpl; [reflexivity | assumption].
Qed.

Lemma of_pairs_nodup (l : list (K * V)) :
  NoDup (map fst l) -> PyDict.of_pairs eqb l = l.
Proof. intros H. unfold PyDict.of_pairs. now rewrite fold_set_nodup. Qed.

Lemma get_in (k : K) (v : V) (d : list (K * V)) :
  PyDict.get eqb k d = Some v -> In (k, v) d.
Proof.
  induction d as [|[k' v'] d IH]; simpl; [discriminate|].
  destruct (eqb k k') eqn:E.
  - apply eqb_eq in E. intros [= ->]. subst. now left.
  - intros H. right. now apply IH.
Qed.

Lemma get_set_same (k : K) (v : V) (d : list (K * V)) :
  PyDict.get eqb k (PyDict.set eqb k v d) = Some v.
Proof.
  induction d as [|[k0 v0] d IH]; simpl.
  - now rewrite (proj2 (eqb_eq k k) eq_refl).
  - destruct (eqb k k0) eqn:E; simpl; rewrite E; [reflexivity | exact IH].
Qed.

Lemma get_set_other (k k' : K) (v : V) (d : list (K * V)) :
  k' <> k -> PyDict.get eqb k' (PyDict.set eqb k v d) = PyDict.get eqb k' d.
Proof.
  intros Hne.
  assert (Hf : eqb k' k = false).
  { destruct (eqb k' k) eqn:E; [|reflexivity]. apply eqb_eq in E. congruence. }
  induction d as [|[k0 v0] d IH]; simpl.
  - now rewrite Hf.
  - destruct (eqb k k0) eqn:E; simpl.
    + apply eqb_eq in E. subst k0. now rewrite Hf.
    + destruct (eqb k' k0); [reflexivity | exact IH].
Qed.

Lemma get_fold_set (l acc : list (K * V)) (k : K) :
  In k (map fst l) \/ PyDict.get eqb k acc <> None ->
  PyDict.get eqb k
    (fold_left (fun d kv => PyDict.set eqb (fst kv) (snd kv) d) l acc) <> None.
Proof.
  revert acc. induction l as [|[k0 v0] l IH]; intros acc H; simpl.
  - destruct H as [[]|H]; exact H.
  - apply IH. simpl in H.
    assert (Hdec : k = k0 \/ k <> k0).
    { destruct (eqb k k0) eqn:E; [left; now apply eqb_eq|].
      right. intros ->. rewrite (proj2 (eqb_eq k0 k0) eq_refl) in E. discriminate. }
    destruct Hdec as [->|Hne].
    + right. rewrite get_set_same. discriminate.
    + destruct H as [[H|H]|H]; [congruence | now left |].
      right. now rewrite get_set_other.
Qed.

Lemma get_keys (k : K) (d : list (K * V)) :
  In k (map fst d) -> PyDict.get eqb k d <> None.
Proof.
  induction d as [|[k0 v0] d IH]; simpl; [tauto|].
  intros [->|H].
  - rewrite (proj2 (eqb_eq k k) eq_refl). discriminate.
  - destruct (eqb k k0); [discriminate | now apply IH].
Qed.

Lemma get_combine_map {W} (f : V -> W) (k : K) (ks : list K) (vs : list V) :
  PyDict.get eqb k (combine ks (map f vs))
  = option_map f (PyDict.get eqb k (combine ks vs)).
Proof.
  revert vs. induction ks as [|k' ks IH]; intros [|v vs]; simpl; try reflexivity.
  destruct (eqb k k'); [reflexivity | apply IH].
Qed.
End DictFacts.

(** ** Tensors *)

Lemma list_eqb_refl {A} (eqb : A -> A -> bool) (l : list A) :
  (forall a, eqb a a = true) -> list_eqb eqb l l = true.
Proof.
  intros H. induction l as [|a l IH]; simpl; [reflexivity|].
  now rewrite H, IH.
Qed.

Lemma list_eqb_eq {A} (eqb : A -> A -> bool) :
  (forall a b, eqb a b = true <-> a = b) ->
  forall l1 l2, list_eqb eqb l1 l2 = true <-> l1 = l2.
Proof.
  intros H. induction l1 as [|a l1 IH]; intros [|b l2]; simpl;
    try (split; [discriminate | discriminate]); try tauto.
  rewrite andb_true_iff, H, IH. split.
  - intros [-> ->]. reflexivity.
  - intros [= -> ->]. tauto.
Qed.

Lemma key_eqb_eq (k1 k2 : Key) : key_eqb k1 k2 = true <-> k1 = k2.
Proof.
  destruct k1 as [b1|], k2 as [b2|]; simpl;
    try (split; [discriminate | discriminate]); try tauto.
  unfold block_eqb. rewrite (list_eqb_eq String.eqb String.eqb_eq).
  split; [intros -> | intros [= ->]]; reflexivity.
Qed.

Lemma map_nth_seq {A B} (f : A -> B) (l : list A) (dflt : A) :
  map (fun j => f (nth j l dflt)) (seq 0 (List.length l)) = map f l.
Proof.
  induction l as [|a l IH]; simpl; [reflexivity|].
  f_equal. rewrite <- seq_shift, map_map. exact IH.
Qed.

Lemma unbind_last_design (d : list Z) :
  unbind_last (design_tensor d) = Ok (map scalar d).
Proof.
  unfold unbind_last, design_tensor. simpl.
  f_equal. unfold row. simpl. rewrite firstn_all.
  apply (map_nth_seq (fun z => mkTensor [] [z])).
Qed.

Lemma tadd_scalar (a b : Q) : tadd (scalar a) (scalar b) = Ok (scalar (a + b)%Q).
Proof. reflexivity. Qed.

Lemma matvec_vectors (ef cN : tensor Q) (f : nat) :
  tshape cN = [f] -> tshape ef = [f] -> twf ef ->
  matvec ef cN = Ok (scalar (dot (tdata ef) (tdata cN))).
Proof.
  unfold matvec, twf. intros Hc He Hwf. rewrite Hc, He in *. simpl in *.
  rewrite Nat.eqb_refl. unfold row, scalar. simpl.
  replace f with (List.length (tdata ef)) by lia.
  now rewrite firstn_all.
Qed.

Lemma ravel_full (shape : list nat) (zs : list Z) (acc off : nat) :
  ravel shape zs acc = Ok (off, []) -> List.length zs = List.length shape.
Proof.
  revert shape acc. induction zs as [|z zs IH]; intros shape acc; simpl.
  - intros H. inversion H. reflexivity.
  - destruct shape as [|n shape]; [discriminate|].
    destruct (norm_index n z); [|discriminate].
    intros H. simpl. f_equal. eapply IH. exact H.
Qed.

Lemma index_tuple_scalars (coef : tensor Q) (zs : list Z) (q : Q) :
  twf coef -> coef_at coef zs = Some q ->
  index_tuple coef (map scalar zs) = Ok (scalar q).
Proof.
  unfold coef_at, twf. intros Hwf Hq.
  destruct (ravel (tshape coef) zs 0) as [[off rest]|] eqn:Hr; [|discriminate].
  destruct rest; [|discriminate].
  pose proof (ravel_full _ _ _ _ Hr) as Hlen.
  destruct zs as [|z zs].
  - simpl in *. destruct coef as [sh dt]. simpl in *.
    destruct sh; [|discriminate]. simpl in Hwf.
    inversion Hr; subst off.
    destruct dt as [|a [|b dt]]; try discriminate.
    simpl in Hq. injection Hq as ->. reflexivity.
  - unfold index_tuple. cbn [map scalar tshape numel fold_right seq mapM].
    unfold block. rewrite map_map. cbn [tdata nth].
    rewrite map_id. change (nth 0 (tdata (scalar z)) 0%Z) with z.
    rewrite Hr. cbn [numel fold_right tshape tdata map List.concat app].
    change (scalar z :: map scalar zs) with (map (@scalar Z) (z :: zs)).
    rewrite List.length_map, Hlen, skipn_all, app_nil_r.
    unfold row, scalar. f_equal. f_equal. rewrite Nat.mul_1_r.
    apply nth_error_split in Hq. destruct Hq as [l1 [l2 [-> <-]]].
    rewrite skipn_app, skipn_all, Nat.sub_diag. reflexivity.
Qed.

(** ** The linear response *)

Lemma mapO_length {A B} (f : A -> option B) (l : list A) (r : list B) :
  mapO f l = Some r -> List.length r = List.length l.
Proof.
  revert r. induction l as [|a l IH]; simpl; intros r.
  - intros [= <-]. reflexivity.
  - destruct (f a); [|discriminate]. destruct (mapO f l); [|discriminate].
    intros [= <-]. simpl. f_equal. now apply IH.
Qed.

Lemma category_in_domain (schema : Schema) (d : list Z) (name : string) (n : nat) :
  design_fits schema d -> dom_size schema name = Some n ->
  exists z, category schema d name = Some z /\ (0 <= z < Z.of_nat n)%Z.
Proof.
  unfold design_fits, dom_size, category.
  induction 1 as [|z [k dom] d schema Hz Hfit IH]; simpl; [discriminate|].
  destruct (String.eqb name k).
  - intros [= <-]. exists z. split; [reflexivity | exact Hz].
  - exact IH.
Qed.

Lemma ravel_in_range (shape : list nat) (zs : list Z) :
  Forall2 (fun z n => (0 <= z < Z.of_nat n)%Z) zs shape ->
  forall acc, exists off,
    ravel shape zs acc = Ok (off, []) /\
    acc * numel shape <= off < (acc + 1) * numel shape.
Proof.
  induction 1 as [|z n zs shape Hz Hall IH]; intros acc; simpl.
  - exists acc. split; [reflexivity | lia].
  - unfold norm_index.
    replace ((0 <=? z)%Z && (z <? Z.of_nat n)%Z) with true
      by (symmetry; apply andb_true_iff; split; [apply Z.leb_le | apply Z.ltb_lt]; lia).
    destruct (IH (acc * n + Z.to_nat z)) as [off [Hoff Hb]].
    exists off. split; [exact Hoff|].
    assert (Z.to_nat z < n) by lia. nia.
Qed.

Lemma block_indices (schema : Schema) (d : list Z) (names : list string)
    (shape : list nat) :
  design_fits schema d -> mapO (dom_size schema) names = Some shape ->
  exists zs, mapO (category schema d) names = Some zs /\
             Forall2 (fun z n => (0 <= z < Z.of_nat n)%Z) zs shape.
Proof.
  intros Hfit. revert shape.
  induction names as [|name names IH]; simpl; intros shape.
  - intros [= <-]. exists []. split; [reflexivity | constructor].
  - destruct (dom_size schema name) as [n|] eqn:Hn; [|discriminate].
    destruct (mapO (dom_size schema) names) as [shape'|]; [|discriminate].
    intros [= <-].
    destruct (category_in_domain _ _ _ _ Hfit Hn) as [z [Hz Hr]].
    destruct (IH _ eq_refl) as [zs [Hzs Hall]].
    exists (z :: zs). rewrite Hz, Hzs. split; [reflexivity | now constructor].
Qed.

Lemma block_contribution_defined (schema : Schema) (coefs : Coefs) (d : list Z)
    (extra : option (tensor Q)) (names : list string) (coef : tensor Q) :
  design_fits schema d -> twf coef ->
  mapO (dom_size schema) names = Some (tshape coef) ->
  exists q, contribution schema coefs d extra (Some names, coef) = Some q.
Proof.
  intros Hfit Hwf Hshape. unfold contribution, coef_at. simpl.
  destruct (block_indices _ _ _ _ Hfit Hshape) as [zs [-> Hall]].
  destruct (ravel_in_range _ _ Hall 0) as [off [-> Hb]].
  destruct (nth_error (tdata coef) off) eqn:E; [eauto|].
  apply nth_error_None in E. unfold twf in Hwf. lia.
Qed.

Lemma contributions_defined (schema : Schema) (coefs : Coefs) (d : list Z)
    (extra : option (tensor Q)) :
  design_fits schema d -> coefs_fit schema coefs -> extra_fit coefs extra ->
  forall l, incl l coefs ->
  exists terms,
    Forall2 (fun item q => contribution schema coefs d extra item = Some q) l terms.
Proof.
  intros Hfit Hcoefs Hextra. induction l as [|[key coef] l IH]; intros Hincl.
  - exists []. constructor.
  - destruct IH as [terms Hterms].
    { intros x Hx. apply Hincl. now right. }
    assert (Hin : In (key, coef) coefs) by (apply Hincl; now left).
    destruct key as [names|].
    + destruct (Hcoefs _ _ Hin) as [Hwf Hshape].
      destruct (block_contribution_defined schema coefs d extra names coef Hfit Hwf Hshape)
        as [q Hq].
      exists (q :: terms). now constructor.
    + assert (Hmem : exists cN, PyDict.get key_eqb None coefs = Some cN).
      { clear - Hin. induction coefs as [|[k c] cs IHc]; [destruct Hin|].
        simpl. destruct k as [b|]; simpl; [|eauto].
        destruct Hin as [H|H]; [discriminate | auto]. }
      destruct Hmem as [cN HcN].
      unfold extra_fit in Hextra. rewrite HcN in Hextra.
      destruct extra as [ef|]; [|contradiction].
      exists (dot (tdata ef) (tdata cN) :: terms). constructor; [|exact Hterms].
      unfold contribution. simpl. now rewrite HcN.
Qed.

Lemma choices_lookup (schema : Schema) (d : list Z) (names : list string)
    (zs : list Z) :
  mapO (category schema d) names = Some zs ->
  mapM (fun name =>
          PyDict.getitem String.eqb name
            (combine (PyDict.keys schema) (map scalar d))) names
  = Ok (map scalar zs).
Proof.
  revert zs. induction names as [|name names IH]; simpl; intros zs.
  - intros [= <-]. reflexivity.
  - unfold PyDict.getitem at 1. rewrite get_combine_map.
    fold (category schema d name).
    destruct (category schema d name) as [z|]; [|discriminate].
    destruct (mapO (category schema d) names) as [zs'|]; [|discriminate].
    intros [= <-]. simpl. now rewrite (IH _ eq_refl).
Qed.

Lemma response_loop (schema : Schema) (coefs : Coefs) (d : list Z)
    (extra : option (tensor Q)) :
  coefs_fit schema coefs -> extra_fit coefs extra ->
  forall l terms a, incl l coefs ->
    Forall2 (fun item q => contribution schema coefs d extra item = Some q) l terms ->
    foldM (response_step coefs (combine (PyDict.keys schema) (map scalar d)) extra)
          l (scalar a)
    = Ok (scalar (fold_left Qplus terms a)).
Proof.
  intros Hcoefs Hextra l terms a Hincl Hterms. revert a.
  induction Hterms as [|[key coef] q l terms Hq Hterms IH]; intros a;
    cbn [foldM fold_left].
  - reflexivity.
  - assert (Hin : In (key, coef) coefs) by (apply Hincl; now left).
    assert (Hstep : response_step coefs (combine (PyDict.keys schema) (map scalar d))
                      extra (scalar a) (key, coef) = Ok (scalar (a + q)%Q)).
    { unfold response_step. destruct key as [names|].
      - destruct (Hcoefs _ _ Hin) as [Hwf Hshape].
        unfold contribution in Hq. simpl in Hq.
        destruct (mapO (category schema d) names) as [zs|] eqn:Hzs; [|discriminate].
        apply mapO_length in Hshape. unfold tdim. rewrite Hshape, Nat.eqb_refl. simpl.
        rewrite (choices_lookup _ _ _ _ Hzs). simpl.
        rewrite (index_tuple_scalars _ _ _ Hwf Hq). simpl.
        apply tadd_scalar.
      - unfold contribution in Hq. simpl in Hq. unfold extra_fit in Hextra.
        destruct extra as [ef|]; [|discriminate].
        destruct (PyDict.get key_eqb None coefs) as [cN|] eqn:HcN; [|discriminate].
        injection Hq as <-. destruct Hextra as [f [Hc [He [Hwf _]]]].
        simpl. unfold PyDict.getitem. rewrite HcN. simpl.
        rewrite (matvec_vectors _ _ f Hc He Hwf). simpl.
        apply tadd_scalar. }
    rewrite Hstep. apply IH. intros x Hx. apply Hincl. now right.
Qed.

Lemma category_frame (v name : string) (keys : list string) :
  name <> v ->
  forall d d' : list Z,
    (forall j, nth_error keys j <> Some v -> nth_error d' j = nth_error d j) ->
    PyDict.get String.eqb name (combine keys d')
    = PyDict.get String.eqb name (combine keys d).
Proof.
  intros Hne. induction keys as [|k keys IH]; intros d d' Hagree; [reflexivity|].
  assert (Htail : forall j, nth_error keys j <> Some v ->
                    nth_error (tl d') j = nth_error (tl d) j).
  { intros j Hj. specialize (Hagree (S j) Hj).
    destruct d, d'; simpl in *; try assumption;
      try (destruct j; simpl in *; congruence). }
  specialize (IH _ _ Htail).
  destruct (String.eqb name k) eqn:E.
  - apply String.eqb_eq in E. subst k.
    assert (H0 : nth_error d' 0 = nth_error d 0).
    { apply Hagree. simpl. congruence. }
    destruct d, d'; simpl in *; try discriminate; try reflexivity.
    rewrite String.eqb_refl. congruence.
  - destruct d as [|z d], d' as [|z' d']; simpl in *; rewrite ?E; try reflexivity.
    + rewrite IH. now destruct keys.
    + rewrite <- IH. now destruct keys.
    + exact IH.
Qed.

Lemma map_fst_combine {A B} (ks : list A) (vs : list B) :
  List.length ks = List.length vs -> map fst (combine ks vs) = ks.
Proof.
  revert vs. induction ks as [|k ks IH]; intros [|v vs]; simpl;
    try discriminate; try reflexivity.
  intros [= H]. f_equal. now apply IH.
Qed.

Lemma mapO_ext_in {A B} (f g : A -> option B) (l : list A) :
  (forall a, In a l -> f a = g a) -> mapO f l = mapO g l.
Proof.
  induction l as [|a l IH]; simpl; intros H; [reflexivity|].
  rewrite (H a) by now left. rewrite IH; [reflexivity|].
  intros b Hb. apply H. now right.
Qed.

Lemma norm_index_lt (n : nat) (z : Z) (j : nat) : norm_index n z = Ok j -> j < n.
Proof.
  unfold norm_index.
  destruct ((0 <=? z)%Z && (z <? Z.of_nat n)%Z) eqn:E1.
  - apply andb_true_iff in E1. destruct E1 as [H1 H2].
    apply Z.leb_le in H1. apply Z.ltb_lt in H2. intros [= <-]. lia.
  - destruct ((- Z.of_nat n <=? z)%Z && (z <? 0)%Z) eqn:E2; [|discriminate].
    apply andb_true_iff in E2. destruct E2 as [H1 H2].
    apply Z.leb_le in H1. apply Z.ltb_lt in H2. intros [= <-]. lia.
Qed.

Lemma ravel_bound (shape : list nat) (zs : list Z) (acc off : nat) :
  ravel shape zs acc = Ok (off, []) -> off < (acc + 1) * numel shape.
Proof.
  revert shape acc. induction zs as [|z zs IH]; intros shape acc; simpl.
  - intros H. inversion H; subst. simpl. lia.
  - destruct shape as [|n shape]; [discriminate|].
    destruct (norm_index n z) as [j|] eqn:E; [|discriminate].
    apply norm_index_lt in E. intros H. apply IH in H.
    change (numel (n :: shape)) with (n * numel shape). nia.
Qed.

Lemma choices_lookup_inv (schema : Schema) (d : list Z) (names : list string)
    (index : list (tensor Z)) :
  mapM (fun name =>
          PyDict.getitem String.eqb name
            (combine (PyDict.keys schema) (map scalar d))) names
  = Ok index ->
  exists zs, mapO (category schema d) names = Some zs /\ index = map scalar zs.
Proof.
  revert index. induction names as [|name names IH]; intros index; cbn [mapM mapO].
  - intros [= <-]. exists []. split; reflexivity.
  - unfold PyDict.getitem at 1. rewrite get_combine_map.
    fold (category schema d name).
    destruct (category schema d name) as [z|]; [|discriminate].
    cbn [option_map of_option].
    match goal with
    | |- context [mapM ?f names] => destruct (mapM f names) as [index'|]
    end; [|discriminate].
    intros [= <-]. destruct (IH _ eq_refl) as [zs [-> ->]].
    exists (z :: zs). split; reflexivity.
Qed.

Lemma index_tuple_scalars_inv (coef : tensor Q) (zs : list Z) (t : tensor Q) :
  twf coef -> tdim coef = List.length zs ->
  index_tuple coef (map scalar zs) = Ok t ->
  exists q, coef_at coef zs = Some q /\ t = scalar q.
Proof.
  unfold twf, tdim, coef_at. intros Hwf Hdim.
  destruct zs as [|z zs].
  - cbn [map index_tuple ravel]. intros [= <-].
    destruct coef as [sh dt]. cbn [tshape tdata] in *.
    destruct sh; [|discriminate]. cbn [numel fold_right] in Hwf.
    destruct dt as [|q [|q' dt]]; try discriminate.
    exists q. split; reflexivity.
  - unfold index_tuple. cbn [map scalar tshape numel fold_right seq mapM].
    unfold block. rewrite map_map. cbn [tdata nth].
    rewrite map_id. change (nth 0 (tdata (scalar z)) 0%Z) with z.
    destruct (ravel (tshape coef) (z :: zs) 0) as [[off rest]|] eqn:Hr;
      [|discriminate].
    cbn [numel fold_right tshape tdata map List.concat app].
    change (scalar z :: map scalar zs) with (map (@scalar Z) (z :: zs)).
    rewrite List.length_map, <- Hdim, skipn_all, app_nil_r.
    assert (Hrest : rest = []).
    { clear - Hr Hdim. revert Hr Hdim. generalize (tshape coef) as shape.
      generalize 0 as acc. generalize (z :: zs) as idx. clear.
      induction idx as [|i idx IH]; intros acc shape; simpl.
      - intros H Hlen. inversion H; subst. now destruct rest.
      - destruct shape as [|n shape]; [discriminate|].
        destruct (norm_index n i); [|discriminate].
        intros H Hlen. simpl in Hlen. eapply IH; [exact H | lia]. }
    subst rest. pose proof (ravel_bound _ _ _ _ Hr) as Hb.
    rewrite Nat.add_0_l, Nat.mul_1_l, <- Hwf in Hb.
    destruct (nth_error (tdata coef) off) as [q|] eqn:Hq;
      [|apply nth_error_None in Hq; lia].
    intros [= <-]. exists q. split; [reflexivity|].
    unfold row, scalar. f_equal. cbn [numel fold_right]. rewrite Nat.mul_1_r.
    apply nth_error_split in Hq. destruct Hq as [l1 [l2 [-> <-]]].
    rewrite skipn_app, skipn_all, Nat.sub_diag. reflexivity.
Qed.

Lemma tadd_scalar_inv (a : Q) (t r : tensor Q) (q : Q) :
  t = scalar q -> tadd (scalar a) t = Ok r -> r = scalar (a + q)%Q.
Proof. intros ->. rewrite tadd_scalar. now intros [= <-]. Qed.

Lemma response_step_inv (schema : Schema) (coefs : Coefs) (d : list Z)
    (extra : option (tensor Q)) (a : Q) (item : Key * tensor Q) (r : tensor Q) :
  extra_fit coefs extra -> twf (snd item) ->
  response_step coefs (combine (PyDict.keys schema) (map scalar d)) extra
    (scalar a) item = Ok r ->
  exists q, contribution schema coefs d extra item = Some q /\
            r = scalar (a + q)%Q.
Proof.
  destruct item as [key coef]. cbn [snd]. intros Hextra Hwf.
  unfold response_step, contribution. cbn [fst snd].
  destruct key as [names|].
  - destruct (tdim coef =? List.length names) eqn:Hdim; [|discriminate].
    apply Nat.eqb_eq in Hdim. cbn [assert rbind].
    match goal with
    | |- context [mapM ?f names] => destruct (mapM f names) as [index|] eqn:Hi
    end; [|discriminate].
    cbn [rbind]. apply choices_lookup_inv in Hi. destruct Hi as [zs [Hzs ->]].
    rewrite Hzs.
    destruct (index_tuple coef (map scalar zs)) as [t|] eqn:Ht; [|discriminate].
    cbn [rbind]. apply mapO_length in Hzs.
    apply index_tuple_scalars_inv in Ht; [|exact Hwf | congruence].
    destruct Ht as [q [Hq ->]]. intros H. exists q. split; [exact Hq|].
    now apply (tadd_scalar_inv a (scalar q)).
  - unfold extra_fit in Hextra. unfold PyDict.getitem.
    destruct extra as [ef|]; [|discriminate].
    destruct (PyDict.get key_eqb None coefs) as [cN|]; [|contradiction].
    destruct Hextra as [f [Hc [He [Hwfe _]]]].
    cbn [of_option rbind]. rewrite (matvec_vectors _ _ f Hc He Hwfe).
    cbn [rbind]. intros H. eexists. split; [reflexivity|].
    now apply (tadd_scalar_inv a (scalar (dot (tdata ef) (tdata cN)))).
Qed.

Lemma response_loop_inv (schema : Schema) (coefs : Coefs) (d : list Z)
    (extra : option (tensor Q)) :
  extra_fit coefs extra ->
  (forall key coef, In (key, coef) coefs -> twf coef) ->
  forall l a r, incl l coefs ->
    foldM (response_step coefs (combine (PyDict.keys schema) (map scalar d)) extra)
          l (scalar a) = Ok r ->
    exists terms,
      Forall2 (fun item q => contribution schema coefs d extra item = Some q) l terms /\
      r = scalar (fold_left Qplus terms a).
Proof.
  intros Hextra Hwf. induction l as [|[key coef] l IH]; intros a r Hincl;
    cbn [foldM].
  - intros [= <-]. exists []. split; [constructor | reflexivity].
  - destruct (response_step coefs _ extra (scalar a) (key, coef)) as [acc|] eqn:Hs;
      [|discriminate].
    apply (response_step_inv schema) in Hs;
      [|exact Hextra | apply (Hwf key); apply Hincl; now left].
    destruct Hs as [q [Hq ->]]. intros H.
    apply IH in H; [|intros x Hx; apply Hincl; now right].
    destruct H as [terms [Hterms ->]].
    exists (q :: terms). split; [now constructor | reflexivity].
Qed.

Lemma asserted_extra_fit (coefs : Coefs) (d : list Z) (extra : option (tensor Q)) :
  tensors_wf coefs extra ->
  match extra with
  | None => assert (negb (PyDict.mem key_eqb None coefs))
  | Some ef =>
      assert (PyDict.mem key_eqb None coefs) ;;;
      cN <- PyDict.getitem key_eqb None coefs ;;
      assert (tdim cN =? 1) ;;;
      assert (shape_eqb (tshape ef)
                (shape_init (tshape (design_tensor d)) ++ tshape cN))
  end = Ok tt ->
  extra_fit coefs extra.
Proof.
  intros [Hwfc Hwfe]. unfold extra_fit, PyDict.mem, PyDict.getitem.
  destruct (PyDict.get key_eqb None coefs) as [cN|] eqn:HcN;
    destruct extra as [ef|]; cbn [assert negb rbind of_option];
    try discriminate; [|auto].
  unfold tdim. destruct (tshape cN) as [|f [|f' sh]] eqn:Hc; try discriminate.
  cbn [List.length Nat.eqb assert rbind design_tensor tshape shape_init removelast app].
  destruct (shape_eqb (tshape ef) [f]) eqn:He; [|discriminate].
  apply (list_eqb_eq Nat.eqb Nat.eqb_eq) in He. intros _.
  exists f. repeat split; [exact He | now apply Hwfe |].
  apply (Hwfc None). now apply (get_in key_eqb key_eqb_eq).
Qed.

(** C1. [linear_response] returns the sum, over the items of the
    coefficient dictionary, of the coefficient entry at the design's
    category indices in the block's variables, with the dot product of the
    extra features and the [None]-keyed coefficients when extra features
    are present: whenever it returns, this sum is what it returns, and it
    does return for a design, coefficients and extra features that satisfy
    the asserted preconditions and the data model.  Changing the category
    of one variable [v] leaves the contribution of every block that does
    not contain [v] as it was. *)
Theorem linear_response_sum_of_block_lookups
    (schema : Schema) (coefs : Coefs) (d : list Z) (extra : option (tensor Q)) :
  NoDup (PyDict.keys schema) ->
  (tensors_wf coefs extra ->
   forall r, linear_response schema coefs (design_tensor d) extra = Ok r ->
     exists terms : list Q,
       Forall2 (fun item q => contribution schema coefs d extra item = Some q)
               coefs terms /\
       r = scalar (fold_left Qplus terms 0%Q)) /\
  (design_fits schema d -> coefs_fit schema coefs -> extra_fit coefs extra ->
   exists terms : list Q,
     Forall2 (fun item q => contribution schema coefs d extra item = Some q)
             coefs terms /\
     linear_response schema coefs (design_tensor d) extra
     = Ok (scalar (fold_left Qplus terms 0%Q))) /\
  (forall (v : string) (d' : list Z) (item : Key * tensor Q),
      (forall j, nth_error (PyDict.keys schema) j <> Some v ->
                 nth_error d' j = nth_error d j) ->
      In item coefs ->
      (forall names, fst item = Some names -> ~ In v names) ->
      contribution schema coefs d' extra item
      = contribution schema coefs d extra item).
Proof.
  intros Hnd.
  assert (Hchoices : List.length d = List.length schema ->
            PyDict.of_pairs String.eqb
              (combine (PyDict.keys schema) (map scalar d))
            = combine (PyDict.keys schema) (map (@scalar Z) d)).
  { intros Hlen. apply (of_pairs_nodup String.eqb String.eqb_eq).
    unfold PyDict.keys in *. rewrite map_fst_combine; [exact Hnd|].
    now rewrite !List.length_map. }
  split; [|split].
  - intros Hwf r. unfold linear_response.
    unfold size_last, design_tensor at 1. cbn [tshape rev app rbind].
    destruct (List.length d =? List.length schema) eqn:Hlen; [|discriminate].
    apply Nat.eqb_eq in Hlen. cbn [assert rbind].
    match goal with
    | |- context [rbind ?x _] => destruct x as [[]|] eqn:Hasserts
    end; [|discriminate].
    apply (asserted_extra_fit _ _ _ Hwf) in Hasserts. cbn [rbind].
    destruct (Bool.eqb (is_some extra) (PyDict.mem key_eqb None coefs));
      [|discriminate].
    cbn [assert rbind]. rewrite unbind_last_design. cbn [rbind].
    rewrite (Hchoices Hlen).
    apply (response_loop_inv schema coefs d extra Hasserts (proj1 Hwf) coefs).
    apply incl_refl.
  - intros Hfit Hcoefs Hextra.
    destruct (contributions_defined schema coefs d extra Hfit Hcoefs Hextra coefs
                (incl_refl _)) as [terms Hterms].
    exists terms. split; [exact Hterms|].
    unfold linear_response.
    assert (Hlen : List.length d = List.length schema)
      by (eapply Forall2_length; exact Hfit).
    unfold size_last, design_tensor at 1. cbn [tshape rev app rbind].
    rewrite Hlen, Nat.eqb_refl. cbn [assert rbind].
    assert (Hasserts :
      (match extra with
       | None => assert (negb (PyDict.mem key_eqb None coefs))
       | Some ef =>
           assert (PyDict.mem key_eqb None coefs) ;;;
           cN <- PyDict.getitem key_eqb None coefs ;;
           assert (tdim cN =? 1) ;;;
           assert (shape_eqb (tshape ef)
                     (shape_init (tshape (design_tensor d)) ++ tshape cN))
       end = Ok tt) /\
      Bool.eqb (is_some extra) (PyDict.mem key_eqb None coefs) = true).
    { unfold extra_fit in Hextra. unfold PyDict.mem, PyDict.getitem.
      destruct extra as [ef|], (PyDict.get key_eqb None coefs) as [cN|];
        try contradiction; [|split; reflexivity].
      destruct Hextra as [f [Hc [He _]]].
      cbn [of_option rbind assert negb is_some Bool.eqb]. unfold tdim.
      rewrite Hc, He. simpl. rewrite Nat.eqb_refl. split; reflexivity. }
    destruct Hasserts as [-> ->]. cbn [assert rbind].
    rewrite unbind_last_design. cbn [rbind].
    rewrite (Hchoices Hlen). now apply response_loop.
  - intros v d' [key coef] Hagree Hin Hnot. unfold contribution. simpl in *.
    destruct key as [names|]; [|reflexivity].
    replace (mapO (category schema d') names) with (mapO (category schema d) names);
      [reflexivity|].
    apply mapO_ext_in. intros name Hname. unfold category. symmetry.
    apply category_frame with (v := v); [|exact Hagree].
    intros ->. exact (Hnot names eq_refl Hname).
Qed.

Lemma example_coefs_fit : coefs_fit Example.schema Example.coefs.
Proof.
  intros names coef Hin. simpl in Hin.
  repeat (destruct Hin as [Hin|Hin];
          [inversion Hin; subst; split; reflexivity|]);
    try discriminate. destruct Hin.
Defined.

Lemma linear_response_sum_of_block_lookups_witness :
  (forall r,
      linear_response Example.schema Example.coefs
        (design_tensor Example.design) (Some Example.extra) = Ok r ->
      exists terms : list Q,
        Forall2 (fun item q =>
                   contribution Example.schema Example.coefs Example.design
                     (Some Example.extra) item = Some q)
                Example.coefs terms /\
        r = scalar (fold_left Qplus terms 0%Q)) /\
  (exists terms : list Q,
      Forall2 (fun item q =>
                 contribution Example.schema Example.coefs Example.design
                   (Some Example.extra) item = Some q)
              Example.coefs terms /\
      linear_response Example.schema Example.coefs
        (design_tensor Example.design) (Some Example.extra)
      = Ok (scalar (fold_left Qplus terms 0%Q))).
Proof.
  assert (Hnd : NoDup (PyDict.keys Example.schema))
    by (repeat constructor; simpl; intuition discriminate).
  destruct (linear_response_sum_of_block_lookups
              Example.schema Example.coefs Example.design (Some Example.extra) Hnd)
    as [Hsound [Hreturns _]].
  split.
  - apply Hsound. split.
    + intros key coef Hin. simpl in Hin.
      repeat (destruct Hin as [Hin|Hin]; [inversion Hin; subst; reflexivity|]).
      destruct Hin.
    + intros ef [= <-]. reflexivity.
  - apply Hreturns.
    + repeat constructor; simpl; lia.
    + exact example_coefs_fit.
    + exists 2. repeat split; reflexivity.
Defined.

(** ** Experiment bookkeeping (rollout_tf8.py) *)

Lemma mapM_total {A B} (f : A -> result B) (P : B -> Prop) (l : list A) :
  (forall x, In x l -> exists y, f x = Ok y /\ P y) ->
  exists ys, mapM f l = Ok ys /\ List.length ys = List.length l /\ Forall P ys.
Proof.
  induction l as [|x l IH]; intros H.
  - exists []. repeat split. constructor.
  - destruct (H x (or_introl eq_refl)) as [y [Hy HP]].
    destruct IH as [ys [Hys [Hlen Hall]]].
    { intros z Hz. apply H. now right. }
    exists (y :: ys). simpl. rewrite Hy, Hys. repeat split.
    + simpl. now rewrite Hlen.
    + now constructor.
Qed.

Lemma insert_length (x : list Z) (l : list (list Z)) :
  List.length (Rollout.insert x l) = S (List.length l).
Proof.
  induction l as [|y l IH]; simpl; [reflexivity|].
  destruct (Rollout.tuple_leb x y); simpl; [reflexivity | now rewrite IH].
Qed.

Lemma sorted_length (l : list (list Z)) :
  List.length (Rollout.sorted l) = List.length l.
Proof.
  induction l as [|x l IH]; simpl; [reflexivity|].
  now rewrite insert_length, IH.
Qed.

Lemma insert_in (x y : list Z) (l : list (list Z)) :
  In y (Rollout.insert x l) -> y = x \/ In y l.
Proof.
  induction l as [|z l IH]; simpl.
  - intros [<-|[]]. now left.
  - destruct (Rollout.tuple_leb x z); simpl.
    + intros [<-|[<-|H]]; auto.
    + intros [<-|H]; auto. destruct (IH H); auto.
Qed.

Lemma sorted_in (y : list Z) (l : list (list Z)) :
  In y (Rollout.sorted l) -> In y l.
Proof.
  induction l as [|x l IH]; simpl; [auto|].
  intros H. apply insert_in in H. destruct H as [->|H]; auto.
Qed.

Lemma take_rows_shape {A} (t : tensor A) (ids : list Z) (m : nat) (rest : list nat) :
  tshape t = m :: rest ->
  Forall (fun i => (0 <= i < Z.of_nat m)%Z) ids ->
  exists t', Rollout.take_rows t ids = Ok t' /\
             tshape t' = List.length ids :: rest /\
             (ids = [] -> tdata t' = []).
Proof.
  intros Hs Hids. unfold Rollout.take_rows. rewrite Hs.
  destruct (mapM_total
              (fun i => match norm_index m i with
                        | Ok j => Ok (row (numel rest) (tdata t) j)
                        | Err e => Err e
                        end) (fun _ => True) ids) as [rows [-> [Hlen _]]].
  - intros i Hi. rewrite Forall_forall in Hids. specialize (Hids i Hi).
    unfold norm_index.
    replace ((0 <=? i)%Z && (i <? Z.of_nat m)%Z) with true
      by (symmetry; apply andb_true_iff; split; [apply Z.leb_le | apply Z.ltb_lt]; lia).
    eauto.
  - eexists. split; [reflexivity|]. split; [reflexivity|].
    intros ->. destruct rows; [reflexivity | discriminate].
Qed.

Lemma cat_rows {A} (t1 t2 : tensor A) (n1 n2 : nat) (rest : list nat) :
  tshape t1 = n1 :: rest -> tshape t2 = n2 :: rest ->
  (n1 = 0 -> tdata t1 = []) -> (n2 = 0 -> tdata t2 = []) ->
  exists t, Rollout.cat t1 t2 = Ok t /\
            tshape t = n1 + n2 :: rest /\
            tdata t = tdata t1 ++ tdata t2.
Proof.
  intros H1 H2 E1 E2. unfold Rollout.cat. rewrite H1, H2.
  assert (Hgen : exists t,
             (if shape_eqb rest rest
              then Ok (mkTensor (n1 + n2 :: rest) (tdata t1 ++ tdata t2))
              else Err RuntimeError) = Ok t /\
             tshape t = n1 + n2 :: rest /\ tdata t = tdata t1 ++ tdata t2).
  { unfold shape_eqb. rewrite list_eqb_refl by apply Nat.eqb_refl.
    eexists. repeat split. }
  destruct n1 as [|n1].
  - destruct rest as [|r rest].
    + exists t2. rewrite (E1 eq_refl). simpl. repeat split. exact H2.
    + destruct n2; exact Hgen.
  - destruct n2 as [|n2]; [|destruct rest; exact Hgen].
    destruct rest as [|r rest]; [|exact Hgen].
    exists t1. rewrite (E2 eq_refl), app_nil_r, Nat.add_0_r. repeat split. exact H1.
Qed.

(** C2 (as the code has it).  For an experiment of [n] rows and a batch of
    [k] designs of the dataset, [update_experiment] returns an experiment of
    [n + k] rows; the first [n] rows (sequence, response, batch id) are
    those of the old experiment; every new row gets batch id [0]. *)
Theorem update_experiment_appends_rows_of_batch_zero
    (e : Experiment) (design : list (list Z)) (data : Rollout.Data) (n p m : nat) :
  tshape (sequences e) = [n; p] -> twf (sequences e) ->
  tshape (batch_ids e) = [n] -> twf (batch_ids e) ->
  (forall r, responses e = Some r -> tshape r = [n] /\ twf r) ->
  tshape (Rollout.data_sequences data) = [m; p] ->
  tshape (Rollout.data_responses data) = [m] ->
  (forall s, In s design ->
     exists i, PyDict.get Rollout.tuple_eqb s (Rollout.seq_to_id data) = Some i /\
               (0 <= i < Z.of_nat m)%Z) ->
  exists e',
    Rollout.update_experiment e design data = Ok e' /\
    Rollout.size e' = Ok (n + List.length design) /\
    tshape (sequences e') = [n + List.length design; p] /\
    tshape (batch_ids e') = [n + List.length design] /\
    firstn (n * p) (tdata (sequences e')) = tdata (sequences e) /\
    firstn n (tdata (batch_ids e')) = tdata (batch_ids e) /\
    (forall r, responses e = Some r ->
       exists r', responses e' = Some r' /\
                  tshape r' = [n + List.length design] /\
                  firstn n (tdata r') = tdata r) /\
    (responses e = None -> responses e' = None) /\
    skipn n (tdata (batch_ids e')) = repeat 0%Z (List.length design).
Proof.
  intros Hs Hswf Hb Hbwf Hr Hds Hdr Hdesign.
  unfold Rollout.update_experiment.
  destruct (mapM_total
              (fun s => PyDict.getitem Rollout.tuple_eqb s (Rollout.seq_to_id data))
              (fun i => (0 <= i < Z.of_nat m)%Z) (Rollout.sorted design))
    as [ids [-> [Hlen Hids]]].
  { intros s Hin. apply sorted_in in Hin.
    destruct (Hdesign s Hin) as [i [Hi Hrange]].
    exists i. unfold PyDict.getitem. now rewrite Hi. }
  rewrite sorted_length in Hlen. cbn [rbind].
  destruct (take_rows_shape _ ids m [p] Hds Hids) as [ns [-> [Hns Hns0]]].
  destruct (take_rows_shape _ ids m [] Hdr Hids) as [nr [-> [Hnr Hnr0]]].
  cbn [rbind]. rewrite Hlen in *.
  assert (Hk0 : List.length design = 0 -> ids = []).
  { intros H0. rewrite H0 in Hlen. now destruct ids. }
  assert (Hdata0 : forall A (t : tensor A) sh, tshape t = n :: sh -> twf t ->
                                               n = 0 -> tdata t = []).
  { intros A t sh Ht Hwf ->. unfold twf in Hwf. rewrite Ht in Hwf.
    simpl in Hwf. now destruct (tdata t). }
  destruct (cat_rows (sequences e) ns n (List.length design) [p] Hs Hns)
    as [s' [-> [Hs'shape Hs'data]]]; [now apply (Hdata0 _ _ [p]) | auto |].
  cbn [rbind].
  destruct (cat_rows (batch_ids e)
              (mkTensor [List.length design] (repeat 0%Z (List.length design)))
              n (List.length design) [] Hb eq_refl)
    as [b' [Hb' [Hb'shape Hb'data]]];
    [now apply (Hdata0 _ _ []) | intros ->; reflexivity |].
  assert (Hlenb : List.length (tdata (batch_ids e)) = n).
  { unfold twf in Hbwf. rewrite Hb in Hbwf. simpl in Hbwf. lia. }
  assert (Hlens : List.length (tdata (sequences e)) = n * p).
  { unfold twf in Hswf. rewrite Hs in Hswf. simpl in Hswf. lia. }
  destruct (responses e) as [r|] eqn:Er.
  - destruct (Hr r eq_refl) as [Hrs Hrwf].
    destruct (cat_rows r nr n (List.length design) [] Hrs Hnr)
      as [r' [-> [Hr'shape Hr'data]]]; [now apply (Hdata0 _ _ []) | auto |].
    cbn [rbind]. rewrite Hb'. cbn [rbind].
    eexists. split; [reflexivity|]. unfold Rollout.size, size0.
    cbn [sequences batch_ids responses]. rewrite Hs'shape, Hb'shape, Hs'data, Hb'data.
    repeat split.
    + now rewrite <- Hlens, firstn_app, firstn_all, Nat.sub_diag, firstn_O, app_nil_r.
    + now rewrite <- Hlenb, firstn_app, firstn_all, Nat.sub_diag, firstn_O, app_nil_r.
    + intros r0 [= <-]. exists r'. repeat split; [exact Hr'shape|].
      rewrite Hr'data.
      assert (Hlenr : List.length (tdata r) = n).
      { unfold twf in Hrwf. rewrite Hrs in Hrwf. simpl in Hrwf. lia. }
      now rewrite <- Hlenr, firstn_app, firstn_all, Nat.sub_diag, firstn_O, app_nil_r.
    + discriminate.
    + rewrite <- Hlenb, skipn_app, skipn_all, Nat.sub_diag. reflexivity.
  - cbn [rbind]. rewrite Hb'. cbn [rbind].
    eexists. split; [reflexivity|]. unfold Rollout.size, size0.
    cbn [sequences batch_ids responses]. rewrite Hs'shape, Hb'shape, Hs'data, Hb'data.
    repeat split.
    + now rewrite <- Hlens, firstn_app, firstn_all, Nat.sub_diag, firstn_O, app_nil_r.
    + now rewrite <- Hlenb, firstn_app, firstn_all, Nat.sub_diag, firstn_O, app_nil_r.
    + discriminate.
    + rewrite <- Hlenb, skipn_app, skipn_all, Nat.sub_diag. reflexivity.
Qed.

Lemma update_experiment_appends_rows_of_batch_zero_witness :
  exists e',
    Rollout.update_experiment Rollout.toy_experiment Rollout.toy_design
      Rollout.toy_data = Ok e' /\
    Rollout.size e' = Ok (1 + 2) /\
    tshape (sequences e') = [1 + 2; 2] /\
    tshape (batch_ids e') = [1 + 2] /\
    firstn (1 * 2) (tdata (sequences e')) = tdata (sequences Rollout.toy_experiment) /\
    firstn 1 (tdata (batch_ids e')) = tdata (batch_ids Rollout.toy_experiment) /\
    (forall r, responses Rollout.toy_experiment = Some r ->
       exists r', responses e' = Some r' /\
                  tshape r' = [1 + 2] /\
                  firstn 1 (tdata r') = tdata r) /\
    (responses Rollout.toy_experiment = None -> responses e' = None) /\
    skipn 1 (tdata (batch_ids e')) = repeat 0%Z 2.
Proof.
  apply (update_experiment_appends_rows_of_batch_zero
           Rollout.toy_experiment Rollout.toy_design Rollout.toy_data 1 2 4);
    try reflexivity.
  - intros r [= <-]. split; reflexivity.
  - intros s [<-|[<-|[]]]; [exists 3%Z | exists 0%Z];
      (split; [reflexivity | simpl; lia]).
Defined.

(** C2, refuted as stated: on the toy dataset the rows added to an
    experiment whose only batch id is [0] get batch id [0] again, which is
    not greater than the batch id already present. *)
Lemma update_experiment_reuses_batch_id :
  exists e',
    Rollout.update_experiment Rollout.toy_experiment Rollout.toy_design
      Rollout.toy_data = Ok e' /\
    ~ (forall b_new, In b_new (skipn 1 (tdata (batch_ids e'))) ->
       forall b_old, In b_old (tdata (batch_ids Rollout.toy_experiment)) ->
         (b_old < b_new)%Z).
Proof.
  eexists. split; [reflexivity|].
  intros H. specialize (H 0%Z (or_introl eq_refl) 0%Z (or_introl eq_refl)). lia.
Qed.

(** ** The empirical sampler (inference.py) *)

Lemma norm_index_nat (n i : nat) : i < n -> norm_index n (Z.of_nat i) = Ok i.
Proof.
  intros H. unfold norm_index.
  replace ((0 <=? Z.of_nat i)%Z && (Z.of_nat i <? Z.of_nat n)%Z) with true
    by (symmetry; apply andb_true_iff; split; [apply Z.leb_le | apply Z.ltb_lt]; lia).
  now rewrite Nat2Z.id.
Qed.

Lemma norm_index_ok (n : nat) (z : Z) (j : nat) : norm_index n z = Ok j -> 0 < n.
Proof.
  unfold norm_index.
  destruct ((0 <=? z)%Z && (z <? Z.of_nat n)%Z) eqn:E1.
  - apply andb_true_iff in E1. destruct E1 as [H1 H2].
    apply Z.leb_le in H1. apply Z.ltb_lt in H2. lia.
  - destruct ((- Z.of_nat n <=? z)%Z && (z <? 0)%Z) eqn:E2; [|discriminate].
    apply andb_true_iff in E2. destruct E2 as [H1 H2].
    apply Z.leb_le in H1. apply Z.ltb_lt in H2. lia.
Qed.

Lemma index_by_scalar (v : tensor Q) (n i : nat) :
  tlen v = Ok n -> i < n ->
  index_tuple v [scalar (Z.of_nat i)] = Ok (nth_sample v i).
Proof.
  unfold tlen, nth_sample. destruct v as [[|m rest] dt]; simpl; [discriminate|].
  intros [= ->] Hi. unfold block. simpl.
  rewrite (norm_index_nat _ _ Hi). simpl. now rewrite app_nil_r.
Qed.

Lemma index_by_scalar_ok (v x : tensor Q) (z : Z) :
  index_tuple v [scalar z] = Ok x -> exists n, tlen v = Ok (S n).
Proof.
  unfold tlen. destruct v as [[|m rest] dt]; simpl; unfold block; simpl;
    [discriminate|].
  destruct (norm_index m z) as [j|] eqn:E; [|discriminate].
  apply norm_index_ok in E. intros _. exists (pred m). f_equal. lia.
Qed.

Lemma assignment_at (n i : nat) (s : Sampler.t) :
  Forall (fun kv => tlen (snd kv) = Ok n) (Sampler.samples s) -> i < n ->
  Sampler.assignment s (Z.of_nat i)
  = Ok (map (fun kv => (fst kv, nth_sample (snd kv) i)) (Sampler.samples s)).
Proof.
  unfold Sampler.assignment. intros Hall Hi.
  induction Hall as [|[k v] l Hv Hall IH]; cbn [mapM map]; [reflexivity|].
  cbn [snd fst] in *. rewrite (index_by_scalar _ _ _ Hv Hi), IH. reflexivity.
Qed.

Lemma assignment_ok (s : Sampler.t) (z : Z) (a : list (string * tensor Q)) :
  Sampler.assignment s z = Ok a ->
  Forall (fun kv => exists n, tlen (snd kv) = Ok (S n)) (Sampler.samples s).
Proof.
  unfold Sampler.assignment. generalize (Sampler.samples s) as l.
  intros l. revert a. induction l as [|[k v] l IH]; intros a; cbn [mapM snd fst].
  - constructor.
  - destruct (index_tuple v [scalar z]) as [x|] eqn:E; [|discriminate].
    match goal with
    | |- context [mapM ?f l] => destruct (mapM f l) as [ys|] eqn:E'; [|discriminate]
    end.
    intros _. constructor; [simpl; eapply index_by_scalar_ok; eassumption|].
    eapply IH. reflexivity.
Qed.

(** C7. A [Sampler] over an empty sample set never yields a draw: the
    constructor raises on an empty dictionary; when every site holds zero
    draws the call raises; and whenever a call does return an assignment,
    every site holds at least one draw.  [fit_mcmc] builds its sampler by
    this constructor from the draws the chain kept. *)
Theorem sampler_over_empty_sample_set_raises :
  Sampler.init [] = Err StopIteration /\
  (forall samples,
      samples <> [] ->
      Forall (fun kv => tlen (snd kv) = Ok 0) samples ->
      exists s, Sampler.init samples = Ok s /\
                Sampler.call s = Err RuntimeError) /\
  (forall samples s outcomes a s',
      Sampler.init samples = Ok s ->
      Sampler.call s = Ok outcomes ->
      In (Ok a, s') outcomes ->
      samples <> [] /\
      Forall (fun kv => exists n, tlen (snd kv) = Ok (S n)) samples) /\
  (forall (Model : Type) mcmc_samples (model : Model) n w c jit,
      fit_mcmc mcmc_samples model n w c jit
      = Sampler.init
          (mcmc_samples model n w c
             (match jit with None => true | Some b => b end))).
Proof.
  split; [reflexivity|]. split; [|split; [|reflexivity]].
  - intros [|[k v] l] Hne Hall; [congruence|].
    unfold Sampler.init. simpl. inversion Hall as [|? ? Hv _]; subst.
    simpl in Hv. rewrite Hv. eexists. split; reflexivity.
  - intros samples s outcomes a s' Hinit Hcall Hin.
    assert (Hs : Sampler.samples s = samples).
    { unfold Sampler.init in Hinit. destruct (PyDict.values samples); [discriminate|].
      destruct (tlen t); [|discriminate]. now injection Hinit as <-. }
    split.
    + intros ->. discriminate.
    + unfold Sampler.call in Hcall.
      destruct (randint 0 (Z.of_nat (Sampler.num_samples s))); [|discriminate].
      injection Hcall as <-. apply in_map_iff in Hin.
      destruct Hin as [z [Hz _]]. injection Hz as Hz _.
      rewrite <- Hs. eapply assignment_ok. exact Hz.
Qed.

Lemma sampler_over_empty_sample_set_raises_witness :
  (exists s, Sampler.init no_draws = Ok s /\ Sampler.call s = Err RuntimeError) /\
  (forall s outcomes a s',
      Sampler.init stored_draws = Ok s ->
      Sampler.call s = Ok outcomes ->
      In (Ok a, s') outcomes ->
      stored_draws <> [] /\
      Forall (fun kv => exists n, tlen (snd kv) = Ok (S n)) stored_draws).
Proof.
  split.
  - apply (proj1 (proj2 sampler_over_empty_sample_set_raises) no_draws).
    + discriminate.
    + repeat constructor.
  - exact (proj1 (proj2 (proj2 sampler_over_empty_sample_set_raises)) stored_draws).
Defined.

(** C8. A call to a [Sampler] holding [n > 0] joint draws has [n] equally
    likely outcomes, one per index [i] of [[0, n)]; outcome [i] returns the
    assignment [{k: samples[k][i]}], the same [i] at every site, and leaves
    the object, with its stored samples, as it was. *)
Theorem sampler_call_selects_one_joint_draw
    (samples : list (string * tensor Q)) (n : nat) :
  samples <> [] -> 0 < n ->
  Forall (fun kv => tlen (snd kv) = Ok n) samples ->
  exists s outcomes,
    Sampler.init samples = Ok s /\
    Sampler.samples s = samples /\
    Sampler.num_samples s = n /\
    Sampler.call s = Ok outcomes /\
    List.length outcomes = n /\
    forall i, i < n ->
      nth_error outcomes i
      = Some (Ok (map (fun kv => (fst kv, nth_sample (snd kv) i)) samples), s).
Proof.
  intros Hne Hn Hall.
  destruct samples as [|[k v] l]; [congruence|].
  exists (Sampler.mk ((k, v) :: l) n).
  unfold Sampler.init, Sampler.call. cbn [PyDict.values map snd].
  inversion Hall as [|? ? Hv Hl]; subst. simpl in Hv. rewrite Hv.
  cbn [Sampler.num_samples Sampler.samples]. unfold randint.
  replace (0 <? Z.of_nat n)%Z with true by (symmetry; apply Z.ltb_lt; lia).
  rewrite Z.sub_0_r, Nat2Z.id.
  eexists. repeat split.
  - now rewrite !List.length_map, List.length_seq.
  - intros i Hi. rewrite map_map.
    rewrite nth_error_map, nth_error_seq.
    replace (i <? n) with true by (symmetry; apply Nat.ltb_lt; lia).
    cbn [option_map Nat.add Z.add].
    rewrite (assignment_at n i); [reflexivity | exact Hall | exact Hi].
Qed.

Lemma sampler_call_selects_one_joint_draw_witness :
  exists s outcomes,
    Sampler.init stored_draws = Ok s /\
    Sampler.samples s = stored_draws /\
    Sampler.num_samples s = 3 /\
    Sampler.call s = Ok outcomes /\
    List.length outcomes = 3 /\
    forall i, i < 3 ->
      nth_error outcomes i
      = Some (Ok (map (fun kv => (fst kv, nth_sample (snd kv) i)) stored_draws), s).
Proof.
  apply (sampler_call_selects_one_joint_draw stored_draws 3).
  - discriminate.
  - lia.
  - repeat constructor.
Defined.

(** ** Variational fitting (inference.py) *)

Module SVIFacts.
Import Reals Lra.
Import SVI.
Local Open Scope R_scope.

Section Fit.
Variables Model Guide Params RNG : Type.
Variable empty_params : Params.
Variable AutoLowRankMultivariateNormal : Model -> Params -> Guide * Params.
Variable elbo_update :
  bool -> Model -> Guide -> R -> Params -> RNG -> R * Params * RNG.

Local Abbreviation loop := (svi_loop Model Guide Params RNG elbo_update).

Lemma svi_loop_optim (n : nat) (jit : bool) (model : Model) (guide : Guide)
    (losses : list R) (optim : ClippedAdam) (p : Pyro Params RNG) :
  lr (fst (snd (loop n jit model guide losses (optim, p))))
  = lr optim * lrd optim ^ n /\
  lrd (fst (snd (loop n jit model guide losses (optim, p)))) = lrd optim.
Proof.
  revert losses optim p. induction n as [|n IH]; intros losses optim p.
  - cbn [svi_loop snd fst pow]. split; [lra | reflexivity].
  - cbn [svi_loop]. unfold svi_step.
    destruct (elbo_update jit model guide _ _ _) as [[loss params] g].
    destruct (IH (losses ++ [loss]) (mkAdam (lr optim * lrd optim) (lrd optim))
                 (mkPyro Params RNG params g)) as [IH1 IH2].
    rewrite IH1, IH2. cbn [lr lrd pow].
    split; [apply Rmult_assoc | reflexivity].
Qed.

Lemma root_pow (x : R) (n : nat) :
  0 < x -> (0 < n)%nat -> Rpower x (1 / INR n) ^ n = x.
Proof.
  intros Hx Hn.
  assert (Hn' : 0 < INR n) by (apply lt_0_INR; exact Hn).
  rewrite <- Rpower_pow by (unfold Rpower; apply exp_pos).
  rewrite Rpower_mult.
  replace (1 / INR n * INR n) with 1
    by (unfold Rdiv; rewrite Rmult_1_l, Rinv_l; lra).
  now apply Rpower_1.
Qed.

Lemma tenth_root_pow (num_steps : Z) :
  (0 < num_steps)%Z ->
  Rpower (1 / 10) (1 / IZR num_steps) ^ Z.to_nat num_steps = 1 / 10.
Proof.
  intros Hpos.
  replace (IZR num_steps) with (INR (Z.to_nat num_steps))
    by (rewrite INR_IZR_INZ, Z2Nat.id by lia; reflexivity).
  apply root_pow; [lra | lia].
Qed.

Lemma svi_loop_scheduled (n : nat) (jit : bool) (model : Model) (guide : Guide)
    (lr0 : R) :
  forall (done : nat) (losses : list R) (optim : ClippedAdam)
         (p : Pyro Params RNG),
    lr optim = lr0 * lrd optim ^ done ->
    snd (snd (loop n jit model guide losses (optim, p)))
    = scheduled_updates Model Guide Params RNG elbo_update n done jit model guide
        lr0 (lrd optim) p.
Proof.
  induction n as [|n IH]; intros done losses optim p Hlr.
  - reflexivity.
  - cbn [svi_loop scheduled_updates]. unfold svi_step. cbn [lr lrd].
    assert (Hnext : lr optim * lrd optim = lr0 * lrd optim ^ S done).
    { rewrite Hlr. cbn [pow]. rewrite Rmult_assoc. f_equal. apply Rmult_comm. }
    rewrite Hnext.
    destruct (elbo_update jit model guide _ _ _) as [[loss params] g].
    rewrite (IH (S done) (losses ++ [loss])
               (mkAdam (lr0 * lrd optim ^ S done) (lrd optim))
               (mkPyro Params RNG params g)); reflexivity.
Qed.

Lemma svi_loop_losses (n : nat) (jit : bool) (model : Model) (guide : Guide) :
  forall (losses : list R) (s : ClippedAdam * Pyro Params RNG),
    List.length (fst (loop n jit model guide losses s))
    = (List.length losses + n)%nat.
Proof.
  induction n as [|n IH]; intros losses s.
  - cbn [svi_loop fst]. now rewrite Nat.add_0_r.
  - cbn [svi_loop]. destruct (svi_step _ _ _ _ _ jit model guide s) as [loss s'].
    rewrite IH, List.length_app. cbn [List.length]. lia.
Qed.

(** What [fit_svi] returns for a non-zero number of steps, in terms of its
    loop. *)
Lemma fit_svi_loop (model : Model) (lr0 : R) (num_steps : Z)
    (jit_compile : option bool) (p : Pyro Params RNG) :
  num_steps <> 0%Z ->
  fit_svi Model Guide Params RNG empty_params AutoLowRankMultivariateNormal
    elbo_update model lr0 num_steps jit_compile p
  = (snd (snd (loop (Z.to_nat num_steps)
                 (match jit_compile with None => false | Some b => b end)
                 model (fst (AutoLowRankMultivariateNormal model empty_params)) []
                 (mkAdam lr0 (Rpower (1 / 10) (1 / IZR num_steps)),
                  mkPyro Params RNG
                    (snd (AutoLowRankMultivariateNormal model empty_params))
                    (rng Params RNG p)))),
     Ok (fst (AutoLowRankMultivariateNormal model empty_params))).
Proof.
  intros Hn. unfold fit_svi, clear_param_store, make_optim.
  cbn [param_store rng].
  destruct (AutoLowRankMultivariateNormal model empty_params) as [guide params].
  replace (num_steps =? 0)%Z with false by (symmetry; apply Z.eqb_neq; lia).
  cbn [fst snd].
  destruct (loop (Z.to_nat num_steps) _ model guide [] _) as [losses [optim' p']].
  reflexivity.
Qed.

Lemma fit_svi_scheduled (model : Model) (lr0 : R) (num_steps : Z)
    (jit_compile : option bool) (p : Pyro Params RNG) :
  num_steps <> 0%Z ->
  fit_svi Model Guide Params RNG empty_params AutoLowRankMultivariateNormal
    elbo_update model lr0 num_steps jit_compile p
  = (scheduled_updates Model Guide Params RNG elbo_update
       (Z.to_nat num_steps) 0
       (match jit_compile with None => false | Some b => b end)
       model (fst (AutoLowRankMultivariateNormal model empty_params))
       lr0 (Rpower (1 / 10) (1 / IZR num_steps))
       (mkPyro Params RNG
          (snd (AutoLowRankMultivariateNormal model empty_params))
          (rng Params RNG p)),
     Ok (fst (AutoLowRankMultivariateNormal model empty_params))).
Proof.
  intros Hn. rewrite (fit_svi_loop model lr0 num_steps jit_compile p Hn).
  f_equal.
  rewrite (svi_loop_scheduled _ _ _ _ lr0 0); [reflexivity|].
  cbn [lr lrd pow]. now rewrite Rmult_1_r.
Qed.

(** C9. [fit_svi], for every positive [num_steps], takes exactly
    [num_steps] gradient steps on the guide it returns, starting from the
    parameters of the fresh guide: the optimizer starts at the rate [lr]
    with the decay factor [0.1 ** (1 / num_steps)] and multiplies its rate
    by the factor at every step, so that the [k]-th step is taken at
    [lr * lrd ^ k], the state that [fit_svi] leaves is that of the
    exponential schedule, and the rate after the [num_steps] steps, at
    which the last step is taken, is [lr * 0.1]. *)
Theorem fit_svi_learning_rate_decays_to_a_tenth
    (model : Model) (lr0 : R) (num_steps : Z) (jit_compile : option bool)
    (p : Pyro Params RNG) :
  (0 < num_steps)%Z ->
  exists optim guide start jit,
    make_optim lr0 num_steps = Ok optim /\
    lr optim = lr0 /\
    lrd optim = Rpower (1 / 10) (1 / IZR num_steps) /\
    AutoLowRankMultivariateNormal model empty_params
    = (guide, param_store Params RNG start) /\
    rng Params RNG start = rng Params RNG p /\
    jit = match jit_compile with None => false | Some b => b end /\
    fit_svi Model Guide Params RNG empty_params AutoLowRankMultivariateNormal
      elbo_update model lr0 num_steps jit_compile p
    = (snd (snd (loop (Z.to_nat num_steps) jit model guide [] (optim, start))),
       Ok guide) /\
    fit_svi Model Guide Params RNG empty_params AutoLowRankMultivariateNormal
      elbo_update model lr0 num_steps jit_compile p
    = (scheduled_updates Model Guide Params RNG elbo_update
         (Z.to_nat num_steps) 0 jit model guide lr0 (lrd optim) start,
       Ok guide) /\
    List.length (fst (loop (Z.to_nat num_steps) jit model guide [] (optim, start)))
    = Z.to_nat num_steps /\
    (forall k : nat,
        lr (fst (snd (loop k jit model guide [] (optim, start))))
        = lr0 * lrd optim ^ k) /\
    lr (fst (snd (loop (Z.to_nat num_steps) jit model guide [] (optim, start))))
    = lr0 * (1 / 10) /\
    lr0 * lrd optim ^ Z.to_nat num_steps = lr0 * (1 / 10).
Proof.
  intros Hpos.
  assert (Hn : num_steps <> 0%Z) by lia.
  exists (mkAdam lr0 (Rpower (1 / 10) (1 / IZR num_steps))),
    (fst (AutoLowRankMultivariateNormal model empty_params)),
    (mkPyro Params RNG (snd (AutoLowRankMultivariateNormal model empty_params))
       (rng Params RNG p)),
    (match jit_compile with None => false | Some b => b end).
  cbn [lr lrd param_store rng].
  split.
  { unfold make_optim.
    now replace (num_steps =? 0)%Z with false by (symmetry; apply Z.eqb_neq; lia). }
  split; [reflexivity|]. split; [reflexivity|].
  split; [now destruct (AutoLowRankMultivariateNormal model empty_params)|].
  split; [reflexivity|]. split; [reflexivity|].
  split; [exact (fit_svi_loop model lr0 num_steps jit_compile p Hn)|].
  split; [exact (fit_svi_scheduled model lr0 num_steps jit_compile p Hn)|].
  split; [now rewrite svi_loop_losses|].
  split; [|split].
  - intros k. apply svi_loop_optim.
  - rewrite (proj1 (svi_loop_optim _ _ _ _ _ _ _)). cbn [lr lrd].
    now rewrite (tenth_root_pow num_steps Hpos).
  - now rewrite (tenth_root_pow num_steps Hpos).
Qed.

(** C10. [fit_svi] clears the parameter store before it creates the guide:
    the guide it returns and the state it leaves are the same whatever the
    store held before, namely those of a fit started on the empty store;
    when it raises, the store holds what the guide made of the empty
    store. *)
Theorem fit_svi_discards_previous_parameters
    (model : Model) (lr0 : R) (num_steps : Z) (jit_compile : option bool)
    (params : Params) (g : RNG) :
  fit_svi Model Guide Params RNG empty_params AutoLowRankMultivariateNormal
    elbo_update model lr0 num_steps jit_compile (mkPyro Params RNG params g)
  = fit_svi Model Guide Params RNG empty_params AutoLowRankMultivariateNormal
      elbo_update model lr0 num_steps jit_compile
      (mkPyro Params RNG empty_params g)
  /\
  (num_steps = 0%Z ->
   fit_svi Model Guide Params RNG empty_params AutoLowRankMultivariateNormal
     elbo_update model lr0 num_steps jit_compile (mkPyro Params RNG params g)
   = (mkPyro Params RNG
        (snd (AutoLowRankMultivariateNormal model empty_params)) g,
      Err ZeroDivisionError)).
Proof.
  split.
  - reflexivity.
  - intros ->. unfold fit_svi, clear_param_store. cbn [param_store rng].
    now destruct (AutoLowRankMultivariateNormal model empty_params).
Qed.
End Fit.

Lemma fit_svi_learning_rate_decays_to_a_tenth_witness :
  exists optim guide start jit,
    make_optim (1 / 100) 201 = Ok optim /\
    lr optim = 1 / 100 /\
    lrd optim = Rpower (1 / 10) (1 / IZR 201) /\
    (tt, tt) = (guide, param_store unit unit start) /\
    rng unit unit start = tt /\
    jit = false /\
    fit_svi unit unit unit unit tt (fun _ ps => (tt, ps)) still_update tt
      (1 / 100) 201 None (mkPyro unit unit tt tt)
    = (snd (snd (svi_loop unit unit unit unit still_update (Z.to_nat 201) jit tt
                   guide [] (optim, start))),
       Ok guide) /\
    fit_svi unit unit unit unit tt (fun _ ps => (tt, ps)) still_update tt
      (1 / 100) 201 None (mkPyro unit unit tt tt)
    = (scheduled_updates unit unit unit unit still_update (Z.to_nat 201) 0 jit tt
         guide (1 / 100) (lrd optim) start,
       Ok guide) /\
    List.length (fst (svi_loop unit unit unit unit still_update (Z.to_nat 201) jit
                        tt guide [] (optim, start)))
    = Z.to_nat 201 /\
    (forall k : nat,
        lr (fst (snd (svi_loop unit unit unit unit still_update k jit tt guide []
                        (optim, start))))
        = 1 / 100 * lrd optim ^ k) /\
    lr (fst (snd (svi_loop unit unit unit unit still_update (Z.to_nat 201) jit tt
                    guide [] (optim, start))))
    = 1 / 100 * (1 / 10) /\
    1 / 100 * lrd optim ^ Z.to_nat 201 = 1 / 100 * (1 / 10).
Proof.
  apply (fit_svi_learning_rate_decays_to_a_tenth unit unit unit unit tt
           (fun _ ps => (tt, ps)) still_update tt (1 / 100) 201 None
           (mkPyro unit unit tt tt)).
  lia.
Defined.

Lemma fit_svi_discards_previous_parameters_witness :
  fit_svi unit unit bool unit false (fun _ ps => (tt, ps))
    (fun _ _ _ _ ps g => (0, ps, g)) tt (1 / 100) 0 None
    (mkPyro bool unit true tt)
  = (mkPyro bool unit false tt, Err ZeroDivisionError).
Proof.
  apply (proj2 (fit_svi_discards_previous_parameters unit unit bool unit false
                  (fun _ ps => (tt, ps)) (fun _ _ _ _ ps g => (0, ps, g))
                  tt (1 / 100) 0%Z None true tt)).
  reflexivity.
Defined.
End SVIFacts.

Section DictLookup.
Context {K V : Type} (eqb : K -> K -> bool).
Hypothesis eqb_eq : forall a b, eqb a b = true <-> a = b.

Lemma key_dec (a b : K) : a = b \/ a <> b.
Proof.
  destruct (eqb a b) eqn:E; [left; now apply eqb_eq|].
  right. intros ->. rewrite (proj2 (eqb_eq b b) eq_refl) in E. discriminate.
Qed.

Lemma get_fold_set_in (l acc : list (K * V)) (k : K) (v : V) :
  PyDict.get eqb k
    (fold_left (fun d kv => PyDict.set eqb (fst kv) (snd kv) d) l acc) = Some v ->
  In (k, v) l \/ PyDict.get eqb k acc = Some v.
Proof.
  revert acc. induction l as [|[k0 v0] l IH]; intros acc H; cbn [fold_left] in H.
  - now right.
  - apply IH in H. destruct H as [H|H]; [left; now right|].
    cbn [fst snd] in H. destruct (key_dec k k0) as [->|Hne].
    + rewrite (get_set_same eqb eqb_eq) in H. injection H as ->. left. now left.
    + rewrite (get_set_other eqb eqb_eq) in H by exact Hne. now right.
Qed.

Lemma get_of_pairs_in (l : list (K * V)) (k : K) (v : V) :
  PyDict.get eqb k (PyDict.of_pairs eqb l) = Some v -> In (k, v) l.
Proof.
  unfold PyDict.of_pairs. intros H. apply get_fold_set_in in H.
  destruct H as [H|H]; [exact H | discriminate H].
Qed.

Lemma get_of_pairs_some (l : list (K * V)) (k : K) :
  In k (map fst l) -> exists v, PyDict.get eqb k (PyDict.of_pairs eqb l) = Some v.
Proof.
  intros H. unfold PyDict.of_pairs.
  destruct (PyDict.get eqb k
              (fold_left (fun d kv => PyDict.set eqb (fst kv) (snd kv) d) l []))
    as [v|] eqn:E; [eauto|].
  exfalso. revert E. apply (get_fold_set eqb eqb_eq). now left.
Qed.
End DictLookup.

(** ** The names of the sites *)

Lemma nodup_app_inv {A} (l1 l2 : list A) :
  NoDup (l1 ++ l2) ->
  NoDup l1 /\ NoDup l2 /\ forall a, In a l1 -> ~ In a l2.
Proof.
  induction l1 as [|x l1 IH]; cbn [app]; intros H.
  - split; [constructor|]. split; [exact H|]. intros a [].
  - inversion H as [|? ? Hx Hnd]; subst. destruct (IH Hnd) as [H1 [H2 Hd]].
    split; [constructor; [|exact H1]|].
    + intros Hin. apply Hx. apply in_or_app. now left.
    + split; [exact H2|]. intros a [<-|Ha]; [|now apply Hd].
      intros Hin. apply Hx. apply in_or_app. now right.
Qed.

Lemma nodup_app_intro {A} (l1 l2 : list A) :
  NoDup l1 -> NoDup l2 -> (forall a, In a l1 -> ~ In a l2) -> NoDup (l1 ++ l2).
Proof.
  induction 1 as [|x l1 Hx Hnd IH]; cbn [app]; intros H2 Hd; [exact H2|].
  constructor.
  - intros Hin. apply in_app_or in Hin. destruct Hin as [Hin|Hin]; [tauto|].
    apply (Hd x); [now left | exact Hin].
  - apply IH; [exact H2|]. intros a Ha. apply Hd. now right.
Qed.

Lemma append_nil_r (s : string) : append s "" = s.
Proof. induction s as [|c s IH]; cbn [append]; [reflexivity | now rewrite IH]. Qed.

Lemma digits_string_of_uint (d : Decimal.uint) :
  digits (DecimalString.NilEmpty.string_of_uint d) = true.
Proof. induction d; cbn; auto. Qed.

Lemma str_digits (n : nat) : digits (str n) = true.
Proof. apply digits_string_of_uint. Qed.

Lemma str_inj (n m : nat) : str n = str m -> n = m.
Proof.
  unfold str. intros H. apply DecimalNat.Unsigned.to_uint_inj.
  apply (f_equal DecimalString.NilEmpty.uint_of_string) in H.
  rewrite !DecimalString.NilEmpty.usu in H. now injection H.
Qed.

Lemma str_nonempty (n : nat) : str n <> ""%string.
Proof.
  intros H. assert (Hn : n = 0).
  { unfold str in H. apply (f_equal DecimalString.NilEmpty.uint_of_string) in H.
    rewrite DecimalString.NilEmpty.usu in H. cbn in H. injection H as H.
    apply (f_equal Nat.of_uint) in H.
    now rewrite DecimalNat.Unsigned.of_to in H. }
  subst n. vm_compute in H. discriminate H.
Qed.

Lemma split_first (x x' r r' : string) :
  digits x = true -> digits x' = true ->
  starts_with_digit r = false \/ r = ""%string ->
  starts_with_digit r' = false \/ r' = ""%string ->
  append x r = append x' r' -> x = x' /\ r = r'.
Proof.
  revert x'. induction x as [|c x IH]; intros [|c' x'] Hx Hx' Hr Hr';
    cbn [append digits] in *.
  - auto.
  - intros ->. apply andb_true_iff in Hx'. destruct Hx' as [Hc _].
    destruct Hr as [Hr|Hr]; [cbn in Hr; congruence | discriminate Hr].
  - intros <-. apply andb_true_iff in Hx. destruct Hx as [Hc _].
    destruct Hr' as [Hr'|Hr']; [cbn in Hr'; congruence | discriminate Hr'].
  - apply andb_true_iff in Hx, Hx'. destruct Hx as [_ Hx], Hx' as [_ Hx'].
    intros H. injection H as -> H.
    destruct (IH x' Hx Hx' Hr Hr' H) as [-> ->]. auto.
Qed.

Lemma concat_cons (sep x : string) (t : list string) :
  String.concat sep (x :: t)
  = append x (match t with
              | [] => ""%string
              | _ :: _ => append sep (String.concat sep t)
              end).
Proof. destruct t; cbn [String.concat]; [now rewrite append_nil_r | reflexivity]. Qed.

Lemma join_inj (l l' : list string) :
  Forall (fun x => digits x = true /\ x <> ""%string) l ->
  Forall (fun x => digits x = true /\ x <> ""%string) l' ->
  String.concat "_" l = String.concat "_" l' -> l = l'.
Proof.
  intros Hl. revert l'. induction Hl as [|x t [Hx Hne] Ht IH]; intros l' Hl'.
  - destruct Hl' as [|x' t' [Hx' Hne'] _]; [reflexivity|].
    rewrite concat_cons. cbn [String.concat]. intros H.
    destruct x'; [congruence | discriminate H].
  - destruct Hl' as [|x' t' [Hx' Hne'] Ht'].
    + rewrite concat_cons. cbn [String.concat]. intros H.
      destruct x; [congruence | discriminate H].
    + rewrite !concat_cons. intros H.
      apply split_first in H; auto.
      * destruct H as [-> H]. f_equal. apply IH; [exact Ht'|].
        destruct t as [|y t], t' as [|y' t']; try discriminate H; [reflexivity|].
        cbn [append] in H. now injection H.
      * destruct t; [now right | now left].
      * destruct t'; [now right | now left].
Qed.

Lemma suffix_inj (ps ps' : list nat) :
  String.concat "_" (map str ps) = String.concat "_" (map str ps') -> ps = ps'.
Proof.
  intros H. apply join_inj in H.
  - revert ps' H. induction ps as [|p ps IH]; intros [|p' ps']; cbn [map];
      try discriminate; [reflexivity|].
    intros H. injection H as Hp H. f_equal; [now apply str_inj | now apply IH].
  - apply Forall_forall. intros x Hx. apply in_map_iff in Hx.
    destruct Hx as [n [<- _]]. split; [apply str_digits | apply str_nonempty].
  - apply Forall_forall. intros x Hx. apply in_map_iff in Hx.
    destruct Hx as [n [<- _]]. split; [apply str_digits | apply str_nonempty].
Qed.

Lemma suffix_start (ps : list nat) :
  starts_with_digit (String.concat "_" (map str ps)) = true.
Proof.
  destruct ps as [|p ps]; [reflexivity|]. cbn [map]. rewrite concat_cons.
  pose proof (str_digits p) as Hd. pose proof (str_nonempty p) as Hne.
  destruct (str p) as [|c s]; [congruence|]. cbn in *.
  now apply andb_true_iff in Hd.
Qed.

Lemma in_enumerate {A} (l : list A) (start i : nat) (a : A) :
  In (i, a) (combine (seq start (List.length l)) l) ->
  nth_error l (i - start) = Some a /\ start <= i.
Proof.
  revert start. induction l as [|x l IH]; intros start; cbn [List.length seq combine In];
    [tauto|].
  intros [H|H].
  - injection H as <- <-. rewrite Nat.sub_diag. auto.
  - apply IH in H. destruct H as [H Hle].
    replace (i - start) with (S (i - S start)) by lia. split; [exact H | lia].
Qed.

Lemma name_at (schema : Schema) (name : string) (i : nat) :
  PyDict.getitem String.eqb name (name_to_int schema) = Ok i ->
  nth_error (PyDict.keys schema) i = Some name.
Proof.
  unfold PyDict.getitem, name_to_int.
  match goal with
  | |- context [PyDict.get String.eqb name ?d] =>
      destruct (PyDict.get String.eqb name d) as [j|] eqn:E
  end; [|discriminate].
  cbn [of_option]. intros [= ->].
  apply (get_of_pairs_in String.eqb String.eqb_eq) in E.
  apply in_map_iff in E. destruct E as [[j a] [Hja Hin]].
  cbn [fst snd] in Hja. injection Hja as -> ->.
  unfold enumerate in Hin. apply in_enumerate in Hin.
  rewrite Nat.sub_0_r in Hin. tauto.
Qed.

Lemma positions_inj (schema : Schema) (b b' : list string) (ps : list nat) :
  mapM (fun name => PyDict.getitem String.eqb name (name_to_int schema)) b = Ok ps ->
  mapM (fun name => PyDict.getitem String.eqb name (name_to_int schema)) b' = Ok ps ->
  b = b'.
Proof.
  revert b' ps. induction b as [|x b IH]; intros [|x' b'] ps; cbn [mapM].
  - reflexivity.
  - intros [= <-].
    destruct (PyDict.getitem String.eqb x' (name_to_int schema)); [|discriminate].
    match goal with
    | |- context [mapM ?f b'] => destruct (mapM f b')
    end; discriminate.
  - destruct (PyDict.getitem String.eqb x (name_to_int schema)); [|discriminate].
    match goal with
    | |- context [mapM ?f b] => destruct (mapM f b)
    end; [|discriminate].
    intros [= <-]. discriminate.
  - destruct (PyDict.getitem String.eqb x (name_to_int schema)) as [i|] eqn:Ei;
      [|discriminate].
    match goal with
    | |- context [mapM ?f b] => destruct (mapM f b) as [qs|] eqn:Eb
    end; [|discriminate].
    intros [= <-].
    destruct (PyDict.getitem String.eqb x' (name_to_int schema)) as [i'|] eqn:Ei';
      [|discriminate].
    match goal with
    | |- context [mapM ?f b'] => destruct (mapM f b') as [qs'|] eqn:Eb'
    end; [|discriminate].
    intros [= -> ->]. f_equal.
    + apply name_at in Ei, Ei'. congruence.
    + exact (IH b' qs eq_refl Eb').
Qed.

Lemma block_suffix_inj (schema : Schema) (b b' : list string) (s : string) :
  block_suffix schema b = Ok s -> block_suffix schema b' = Ok s -> b = b'.
Proof.
  unfold block_suffix.
  destruct (mapM _ b) as [ps|] eqn:E; [|discriminate].
  destruct (mapM _ b') as [ps'|] eqn:E'; [|discriminate].
  intros [= <-] [= H]. apply suffix_inj in H. subst ps'.
  exact (positions_inj schema b b' ps E E').
Qed.

Lemma block_suffix_start (schema : Schema) (b : list string) (s : string) :
  block_suffix schema b = Ok s -> starts_with_digit s = true.
Proof.
  unfold block_suffix. destruct (mapM _ b) as [ps|]; [|discriminate].
  intros [= <-]. apply suffix_start.
Qed.

Lemma block_suffix_defined (schema : Schema) (b : list string) :
  (forall name, In name b -> In name (PyDict.keys schema)) ->
  exists ps,
    mapM (fun name => PyDict.getitem String.eqb name (name_to_int schema)) b = Ok ps /\
    block_suffix schema b = Ok (String.concat "_" (map str ps)).
Proof.
  intros Hnames. unfold block_suffix.
  destruct (mapM_total
              (fun name => PyDict.getitem String.eqb name (name_to_int schema))
              (fun _ => True) b) as [ps [Hps _]].
  { intros name Hin. unfold PyDict.getitem, name_to_int.
    destruct (get_of_pairs_some String.eqb String.eqb_eq
                (map (fun ix : nat * string => (snd ix, fst ix))
                   (enumerate (PyDict.keys schema))) name) as [i Hi].
    - unfold enumerate. rewrite map_map. cbn [fst].
      assert (Hgen : forall (l : list string) start,
                 map (fun x : nat * string => snd x)
                     (combine (seq start (List.length l)) l) = l).
      { induction l as [|a l IH]; intros start; cbn; [reflexivity|].
        now rewrite IH. }
      rewrite Hgen. now apply Hnames.
    - rewrite Hi. cbn. eauto. }
  exists ps. now rewrite Hps.
Qed.

(** The name of a block's coefficient differs from the name of its scale. *)
Lemma coef_name_differs (s s' : string) :
  starts_with_digit s' = true -> append "coef_scale_" s <> append "coef_" s'.
Proof.
  intros Hs' H. cbn [append] in H. injection H as H. subst s'. discriminate Hs'.
Qed.

Lemma block_names_nodup (schema : Schema) (blocks : list (list string)) :
  NoDup blocks -> NoDup (flat_map (block_site_names schema) blocks).
Proof.
  induction 1 as [|b blocks Hb Hnd IH]; cbn [flat_map]; [constructor|].
  apply nodup_app_intro; [| exact IH |].
  - unfold block_site_names. destruct (block_suffix schema b) as [s|] eqn:Es;
      [|constructor].
    constructor; [|constructor; [intros []|constructor]].
    intros [H|[]]. symmetry in H. revert H. apply coef_name_differs.
    exact (block_suffix_start _ _ _ Es).
  - intros name Hname Hin. apply in_flat_map in Hin.
    destruct Hin as [b' [Hb' Hin]]. unfold block_site_names in Hname, Hin.
    destruct (block_suffix schema b) as [s|] eqn:Es; [|destruct Hname].
    destruct (block_suffix schema b') as [s'|] eqn:Es'; [|destruct Hin].
    pose proof (block_suffix_start _ _ _ Es) as Hs.
    pose proof (block_suffix_start _ _ _ Es') as Hs'.
    assert (Hne : s <> s').
    { intros ->. apply Hb. now rewrite (block_suffix_inj schema b b' s' Es Es'). }
    destruct Hname as [<-|[<-|[]]], Hin as [H|[H|[]]].
    + cbn [append] in H. injection H as H. congruence.
    + symmetry in H. revert H. now apply coef_name_differs.
    + revert H. now apply coef_name_differs.
    + cbn [append] in H. injection H as H. congruence.
Qed.

Lemma block_name_shape (schema : Schema) (blocks : list (list string))
    (name : string) :
  In name (flat_map (block_site_names schema) blocks) ->
  exists s, starts_with_digit s = true /\
            (name = append "coef_scale_" s \/ name = append "coef_" s).
Proof.
  intros Hin. apply in_flat_map in Hin. destruct Hin as [b [_ Hin]].
  unfold block_site_names in Hin.
  destruct (block_suffix schema b) as [s|] eqn:Es; [|destruct Hin].
  exists s. split; [exact (block_suffix_start _ _ _ Es)|].
  destruct Hin as [<-|[<-|[]]]; auto.
Qed.

(** Distinct blocks are recorded under distinct names, which differ from
    the names of the other sites of the coefficients. *)
Lemma coef_site_names_nodup (schema : Schema) (fb : list (list string))
    (extra : option (tensor Q)) :
  NoDup ([] :: fb) -> NoDup (coef_site_names schema fb extra).
Proof.
  intros Hnd. unfold coef_site_names.
  assert (Hother : forall name s,
             In name ["coef_scale_loc"; "coef_scale_scale"; "coef_scale"; "coef"]%string ->
             starts_with_digit s = true ->
             name <> append "coef_scale_" s /\ name <> append "coef_" s).
  { intros name s Hin Hs.
    split; intros H; subst name; cbn [In append] in Hin;
      repeat (destruct Hin as [Hin|Hin];
              [try discriminate Hin; injection Hin as Hin; subst s; discriminate Hs|]);
      exact Hin. }
  apply nodup_app_intro.
  - repeat constructor; cbn; intuition discriminate.
  - apply nodup_app_intro.
    + now apply block_names_nodup.
    + destruct extra; [|constructor].
      repeat constructor; cbn; intuition discriminate.
    + intros name Hin Hex. apply block_name_shape in Hin.
      destruct Hin as [s [Hs Hname]].
      assert (Hfix : In name ["coef_scale_loc"; "coef_scale_scale"; "coef_scale";
                              "coef"]%string).
      { destruct extra; [|destruct Hex]. cbn [In] in *. tauto. }
      destruct (Hother name s Hfix Hs) as [H1 H2]. tauto.
  - intros name Hin Hex. apply in_app_or in Hex.
    assert (Hfix : In name ["coef_scale_loc"; "coef_scale_scale"; "coef_scale";
                            "coef"]%string) by (cbn [In] in *; tauto).
    destruct Hex as [Hex|Hex].
    + apply block_name_shape in Hex. destruct Hex as [s [Hs Hname]].
      destruct (Hother name s Hfix Hs) as [H1 H2]. tauto.
    + destruct extra; [|destruct Hex].
      cbn [In] in Hin, Hex.
      destruct Hin as [<-|[<-|[]]], Hex as [H|[H|[]]]; discriminate H.
Qed.

(** The names of the coefficients' sites all start with ["coef"]. *)
Lemma coef_site_name_start (schema : Schema) (fb : list (list string))
    (extra : option (tensor Q)) (name : string) :
  In name (coef_site_names schema fb extra) ->
  exists t, name = append "coef" t.
Proof.
  unfold coef_site_names. intros Hin.
  apply in_app_or in Hin. destruct Hin as [Hin|Hin].
  - destruct Hin as [<-|[<-|[]]]; eexists; reflexivity.
  - apply in_app_or in Hin. destruct Hin as [Hin|Hin].
    + apply block_name_shape in Hin. destruct Hin as [s [_ [->| ->]]];
        eexists; reflexivity.
    + destruct extra; [|destruct Hin].
      destruct Hin as [<-|[<-|[]]]; [exists "_scale"%string | exists ""%string];
        reflexivity.
Qed.

Lemma model_site_names_nodup (schema : Schema) (fb : list (list string))
    (extra : option (tensor Q)) :
  NoDup ([] :: fb) -> NoDup (model_site_names schema fb extra).
Proof.
  intros Hnd. unfold model_site_names, response_site_names.
  apply nodup_app_intro.
  - now apply coef_site_names_nodup.
  - repeat constructor; cbn; intuition discriminate.
  - intros name Hin Hex. apply coef_site_name_start in Hin.
    destruct Hin as [t ->]. cbn [In append] in Hex.
    repeat (destruct Hex as [Hex|Hex]; [discriminate Hex|]). exact Hex.
Qed.

(** ** The regression model (models.py) *)

Section ModelFacts.
Variable RNG : Type.
Variable draw : RNG -> Dist -> list nat -> tensor Q * RNG.
Variable validate : Schema -> Experiment -> result unit.

Local Abbreviation M := (M RNG).
Local Abbreviation St := (MState RNG).

(** *** The monad *)

Lemma bind_ok {A B} (m : M A) (k : A -> M B) (st st' : St) (b : B) :
  bind RNG m k st = (st', Ok b) ->
  exists st1 a, m st = (st1, Ok a) /\ k a st1 = (st', Ok b).
Proof.
  unfold bind. destruct (m st) as [st1 [a|e]]; [eauto | discriminate].
Qed.

Lemma bind_cases {A B} (m : M A) (k : A -> M B) (st st' : St) (r : result B) :
  bind RNG m k st = (st', r) ->
  (exists st1 a, m st = (st1, Ok a) /\ k a st1 = (st', r)) \/
  (exists e, m st = (st', Err e) /\ r = Err e).
Proof.
  unfold bind. destruct (m st) as [st1 [a|e]]; [eauto|].
  intros [= <- <-]. eauto.
Qed.

Lemma bind_ext_ok {A B} (m : M A) (k1 k2 : A -> M B) (st : St) :
  (forall a st1, m st = (st1, Ok a) -> k1 a st1 = k2 a st1) ->
  bind RNG m k1 st = bind RNG m k2 st.
Proof.
  unfold bind. intros H. destruct (m st) as [st1 [a|e]]; [|reflexivity].
  now apply H.
Qed.

Lemma lift_ok {A} (r : result A) (st st' : St) (a : A) :
  lift RNG r st = (st', Ok a) -> st' = st /\ r = Ok a.
Proof. unfold lift. intros [= <- ->]. auto. Qed.

Lemma grows_ret {A} P (a : A) : grows P (ret RNG a).
Proof.
  intros st st' r [= <- <-]. exists []. now rewrite app_nil_r.
Qed.

Lemma grows_lift {A} P (x : result A) : grows P (lift RNG x).
Proof.
  intros st st' r [= <- <-]. exists []. now rewrite app_nil_r.
Qed.

Lemma grows_raise {A} P (e : exn) : grows P (@raise RNG A e).
Proof.
  intros st st' r [= <- <-]. exists []. now rewrite app_nil_r.
Qed.

Lemma grows_bind {A B} P (m : M A) (k : A -> M B) :
  grows P m -> (forall a, grows P (k a)) -> grows P (bind RNG m k).
Proof.
  intros Hm Hk st st' r H. apply bind_cases in H.
  destruct H as [[st1 [a [H1 H2]]]|[e [H1 _]]].
  - destruct (Hm _ _ _ H1) as [n1 [E1 F1]].
    destruct (Hk a _ _ _ H2) as [n2 [E2 F2]].
    exists (n1 ++ n2). rewrite E2, E1, app_assoc. split; [reflexivity|].
    apply Forall_app. auto.
  - exact (Hm _ _ _ H1).
Qed.

Lemma visited_false (name : string) (st : St) :
  visited name st = false <-> ~ In name (map s_name (trace st)).
Proof.
  unfold visited. induction (trace st) as [|s l IH]; cbn [existsb map In].
  - tauto.
  - rewrite orb_false_iff, IH. split.
    + intros [Hne Hl] [Heq|Hin]; [|tauto].
      subst name. now rewrite String.eqb_refl in Hne.
    + intros H. split; [|tauto]. apply String.eqb_neq. intros ->. tauto.
Qed.

Lemma grows_sample P plate name d obs :
  (forall v b, P (mkSite name (Some d) v b)) ->
  grows P (sample RNG draw plate name d obs).
Proof.
  intros HP st st' r. unfold sample.
  destruct (plate_shape plate d).
  - destruct obs as [v|].
    + destruct (visited name st).
      * intros [= <- <-]. exists []. now rewrite app_nil_r.
      * intros [= <- <-]. simpl. eexists. split; [reflexivity|].
        constructor; [apply HP | constructor].
    + destruct (draw (rng st) d a) as [v g]. destruct (visited name st).
      * intros [= <- <-]. exists []. simpl. now rewrite app_nil_r.
      * intros [= <- <-]. simpl. eexists. split; [reflexivity|].
        constructor; [apply HP | constructor].
  - intros [= <- <-]. exists []. now rewrite app_nil_r.
Qed.

Lemma grows_deterministic (P : Site -> Prop) name v :
  P (mkSite name (Some (MaskedDelta v)) v true) ->
  grows P (deterministic RNG name v).
Proof.
  intros HP st st' r. unfold deterministic. destruct (visited name st).
  - intros [= <- <-]. exists []. now rewrite app_nil_r.
  - intros [= <- <-]. simpl. eexists. split; [reflexivity|].
    constructor; [exact HP | constructor].
Qed.

Lemma grows_plate P size : grows P (plate RNG size).
Proof.
  unfold plate. destruct (size =? 0)%Z; [apply grows_raise|].
  destruct (size <? 0)%Z; [apply grows_raise | apply grows_ret].
Qed.

Lemma grows_foldMM {A S} P (f : S -> A -> M S) (l : list A) :
  (forall s a, grows P (f s a)) -> forall s, grows P (foldMM RNG f l s).
Proof.
  intros Hf. induction l as [|x l IH]; intros s; simpl.
  - apply grows_ret.
  - apply grows_bind; [apply Hf | exact IH].
Qed.

(** An unobserved site draws a value of the shape of its distribution. *)
Lemma sample_draws plate name d (st st' : St) (v : tensor Q) :
  sample RNG draw plate name d None st = (st', Ok v) ->
  exists shape,
    plate_shape plate d = Ok shape /\
    v = fst (draw (rng st) d shape) /\
    trace st' = trace st ++ [mkSite name (Some d) v false].
Proof.
  unfold sample. destruct (plate_shape plate d) as [shape|]; [|discriminate].
  destruct (draw (rng st) d shape) as [v' g] eqn:E.
  destruct (visited name st); [discriminate|].
  intros [= <- <-]. exists shape. simpl. rewrite E. auto.
Qed.

Lemma sample_site plate name d obs (st st' : St) (v : tensor Q) :
  sample RNG draw plate name d obs st = (st', Ok v) ->
  exists b, trace st' = trace st ++ [mkSite name (Some d) v b].
Proof.
  unfold sample. destruct (plate_shape plate d) as [shape|]; [|discriminate].
  destruct obs as [o|].
  - destruct (visited name st); [discriminate|].
    intros [= <- <-]. simpl. eauto.
  - destruct (draw (rng st) d shape) as [v' g].
    destruct (visited name st); [discriminate|].
    intros [= <- <-]. simpl. eauto.
Qed.

Lemma deterministic_ok name (v : tensor Q) (st st' : St) (u : unit) :
  deterministic RNG name v st = (st', Ok u) ->
  trace st' = trace st ++ [mkSite name (Some (MaskedDelta v)) v true] /\
  rng st' = rng st.
Proof.
  unfold deterministic. destruct (visited name st); [discriminate|].
  intros [= <- _]. auto.
Qed.

(** A site is recorded under a name that the trace did not hold. *)
Lemma sample_new_name plate name d obs (st st' : St) (v : tensor Q) :
  sample RNG draw plate name d obs st = (st', Ok v) ->
  ~ In name (map s_name (trace st)).
Proof.
  unfold sample. destruct (plate_shape plate d) as [shape|]; [|discriminate].
  destruct (visited name st) eqn:E.
  - destruct obs; [discriminate|].
    destruct (draw (rng st) d shape); discriminate.
  - intros _. now apply visited_false.
Qed.

Ltac grow :=
  repeat first
    [ apply grows_ret | apply grows_lift | apply grows_raise | apply grows_plate
    | apply grows_bind; [|intros ?]
    | apply grows_foldMM; intros ? ?
    | match goal with
      | |- grows _ (match ?x with _ => _ end) => destruct x
      end ].

(** *** The batch effect *)

Lemma single_batch_zero (ids : list Z) :
  one_batch_id ids -> dense_batch_ids ids ->
  ids <> [] /\ Forall (fun b => b = 0%Z) ids.
Proof.
  intros [b [Hb Hall]] [Hnn Hdense].
  assert (b = 0%Z) as ->.
  { rewrite Forall_forall in Hnn. specialize (Hnn b Hb).
    symmetry. apply Hall. apply (Hdense b Hb). lia. }
  split.
  - intros ->. destruct Hb.
  - apply Forall_forall. exact Hall.
Qed.

Lemma tmax_zero (t : tensor Z) :
  tdata t <> [] -> Forall (fun b => b = 0%Z) (tdata t) -> tmax t = Ok 0%Z.
Proof.
  unfold tmax. destruct (tdata t) as [|z zs]; [congruence|].
  intros _ H. inversion H as [|? ? -> Hzs]; subst. f_equal.
  clear H. induction Hzs as [|y ys -> _ IH]; simpl; [reflexivity | exact IH].
Qed.

Lemma single_batch_B schema extra e (N : nat) (B : Z) :
  one_batch_id (tdata (batch_ids e)) -> dense_batch_ids (tdata (batch_ids e)) ->
  model_checks validate schema extra e None = Ok (N, B) -> B = 1%Z.
Proof.
  intros H1 H2. destruct (single_batch_zero _ H1 H2) as [Hne Hz].
  unfold model_checks. rewrite (tmax_zero _ Hne Hz). cbn [rbind].
  destruct (size0 (sequences e)); [|discriminate]. cbn [rbind].
  destruct (validate schema e); [|discriminate]. cbn [rbind].
  match goal with
  | |- context [rbind ?x _] => destruct x; [|discriminate]
  end.
  cbn [rbind]. intros [= _ <-]. reflexivity.
Qed.

Ltac other_site :=
  first [ apply grows_sample; intros; split; simpl; discriminate
        | apply grows_deterministic; split; simpl; discriminate ].

Lemma sample_coefs_grows schema fb extra :
  grows not_batch_site (sample_coefs RNG draw schema fb extra).
Proof. unfold sample_coefs; grow; other_site. Qed.

Lemma likelihood_grows N rt bins e loc scale :
  grows not_batch_site (likelihood RNG draw N rt bins e loc scale).
Proof. unfold likelihood; grow; other_site. Qed.

Lemma model_without_batch_effect_grows schema fb extra e mb rt bins :
  grows not_batch_site
    (model_without_batch_effect RNG draw validate schema fb extra e mb rt bins).
Proof.
  unfold model_without_batch_effect.
  apply grows_bind; [apply grows_lift | intros [N B]].
  apply grows_bind; [apply sample_coefs_grows | intros coefs].
  apply grows_bind; [apply grows_lift | intros loc].
  apply grows_bind; [other_site | intros scale].
  apply grows_bind; [apply likelihood_grows | intros _; apply grows_ret].
Qed.

Lemma likelihood_site N rt bins e loc scale (st st' : St) (u : unit) :
  likelihood RNG draw N rt bins e loc scale st = (st', Ok u) ->
  exists site post,
    trace st' = trace st ++ site :: post /\
    s_dist site = Some (Normal loc scale) /\
    ((rt = "real"%string /\ s_name site = "responses"%string /\ post = []) \/
     (rt = "unit_interval"%string /\ s_name site = "logits"%string)).
Proof.
  unfold likelihood. intros H.
  apply bind_ok in H. destruct H as [st1 [n [Hplate H]]].
  assert (Hst1 : st1 = st).
  { unfold plate in Hplate. destruct (Z.of_nat N =? 0)%Z; [discriminate|].
    destruct (Z.of_nat N <? 0)%Z; [discriminate|]. now injection Hplate. }
  subst st1.
  destruct (String.eqb rt "real") eqn:Ereal.
  - apply String.eqb_eq in Ereal.
    apply bind_ok in H. destruct H as [st2 [v [Hs H]]].
    injection H as <- _. apply sample_site in Hs. destruct Hs as [b Hs].
    eexists. exists []. split; [exact Hs|]. split; [reflexivity|]. left. auto.
  - destruct (String.eqb rt "unit_interval") eqn:Eunit; [|discriminate].
    apply String.eqb_eq in Eunit.
    apply bind_ok in H. destruct H as [st2 [logits [Hs H]]].
    apply sample_site in Hs. destruct Hs as [b Hs].
    assert (Hg : grows (fun _ => True)
              (bind RNG
                 (sample RNG draw (Some n) "quantized_response"
                    (Binomial bins logits)
                    (option_map
                       (tmap (fun r => round_half_even (r * inject_Z bins)%Q))
                       (responses e)))
                 (fun quantized_obs =>
                    match responses e with
                    | None =>
                        deterministic RNG "responses"
                          (tmap (fun q => (q / inject_Z bins)%Q) quantized_obs)
                    | Some _ => ret RNG tt
                    end))).
    { grow; [apply grows_sample; auto | apply grows_deterministic; auto]. }
    destruct (Hg _ _ _ H) as [post [Hpost _]].
    eexists. exists post. rewrite Hpost, Hs, <- app_assoc.
    split; [reflexivity|]. split; [reflexivity|]. right. auto.
Qed.

Lemma tmax_const (t : tensor Z) (b : Z) :
  In b (tdata t) -> (forall c, In c (tdata t) -> c = b) -> tmax t = Ok b.
Proof.
  unfold tmax. destruct (tdata t) as [|z zs]; [intros []|].
  intros _ Hall. assert (z = b) as -> by (apply Hall; now left).
  f_equal.
  assert (Hzs : forall c, In c zs -> c = b) by (intros c Hc; apply Hall; now right).
  clear Hall. induction zs as [|y ys IH]; cbn [fold_left]; [reflexivity|].
  rewrite (Hzs y (or_introl eq_refl)), Z.max_id.
  apply IH. intros c Hc. apply Hzs. now right.
Qed.

(** Lines 81-84: [B] is one more than the explicit [max_batch_id], or than
    the largest batch id. *)
Lemma checks_batches schema extra e mb (N : nat) (B : Z) :
  model_checks validate schema extra e mb = Ok (N, B) ->
  exists m,
    match mb with None => tmax (batch_ids e) | Some m => Ok m end = Ok m /\
    B = (1 + m)%Z.
Proof.
  unfold model_checks.
  destruct (match mb with None => tmax (batch_ids e) | Some m => Ok m end)
    as [m|]; [|discriminate].
  cbn [rbind]. destruct (size0 (sequences e)); [|discriminate]. cbn [rbind].
  destruct (validate schema e); [|discriminate]. cbn [rbind].
  match goal with
  | |- context [rbind ?x _] => destruct x; [|discriminate]
  end.
  cbn [rbind]. intros [= _ <-]. eauto.
Qed.

Lemma model_one_batch schema fb extra e mb rt bins (st : St) (N : nat) :
  model_checks validate schema extra e mb = Ok (N, 1%Z) ->
  model RNG draw validate schema fb extra e mb rt bins st
  = model_without_batch_effect RNG draw validate schema fb extra e mb rt bins st.
Proof.
  intros Hc. unfold model, model_without_batch_effect.
  apply bind_ext_ok. intros [N' B] st0 Hc'.
  apply lift_ok in Hc'. destruct Hc' as [_ Hc']. rewrite Hc in Hc'.
  injection Hc' as <- <-.
  apply bind_ext_ok. intros coefs st1 _.
  apply bind_ext_ok. intros loc st2 _.
  unfold batch_effect. cbn [Z.eqb Pos.eqb]. unfold bind, ret.
  destruct (sample RNG draw None "within_batch_scale" _ None st2)
    as [st3 [scale|err]]; reflexivity.
Qed.

Lemma batch_effect_sites B loc ids (st st' : St) ls :
  B <> 1%Z ->
  batch_effect RNG draw B loc ids st = (st', Ok ls) ->
  exists s1 s2 s3,
    trace st' = trace st ++ [s1; s2; s3] /\
    s_name s1 = "within_batch_scale"%string /\
    s_name s2 = "across_batch_scale"%string /\
    s_name s3 = "batch_response"%string.
Proof.
  intros HB H. unfold batch_effect in H.
  apply bind_ok in H. destruct H as [sa [w [Hw H]]].
  apply bind_ok in H. destruct H as [sb [wloc [H Hret]]].
  injection Hret as <- _.
  apply Z.eqb_neq in HB. rewrite HB in H.
  apply bind_ok in H. destruct H as [sc [a [Ha H]]].
  apply bind_ok in H. destruct H as [sd [n [Hplate H]]].
  assert (sd = sc) as ->.
  { unfold plate in Hplate. destruct (B =? 0)%Z; [discriminate|].
    destruct (B <? 0)%Z; [discriminate|]. now injection Hplate. }
  apply bind_ok in H. destruct H as [se [br [Hbr H]]].
  apply bind_ok in H. destruct H as [sf [u [Hu H]]].
  apply lift_ok in Hu. destruct Hu as [-> _].
  apply bind_ok in H. destruct H as [sg [t [Ht H]]].
  apply lift_ok in Ht. destruct Ht as [-> _].
  apply lift_ok in H. destruct H as [<- _].
  apply sample_site in Hw, Ha, Hbr.
  destruct Hw as [b1 Hw], Ha as [b2 Ha], Hbr as [b3 Hbr].
  do 3 eexists. rewrite Hbr, Ha, Hw, <- !app_assoc.
  split; [reflexivity|]. repeat split.
Qed.


(** *** Unknown response types *)

Lemma bind_step {A B} (m : M A) (k : A -> M B) (st st1 : St) (a : A) :
  m st = (st1, Ok a) -> bind RNG m k st = k a st1.
Proof. unfold bind. now intros ->. Qed.

Lemma grows_draw P plate name d :
  (forall v, P (mkSite name (Some d) v false)) ->
  grows P (sample RNG draw plate name d None).
Proof.
  intros HP st st' r. unfold sample.
  destruct (plate_shape plate d).
  - destruct (draw (rng st) d a) as [v g]. destruct (visited name st).
    + intros [= <- <-]. exists []. simpl. now rewrite app_nil_r.
    + intros [= <- <-]. simpl. eexists. split; [reflexivity|].
      constructor; [apply HP | constructor].
  - intros [= <- <-]. exists []. now rewrite app_nil_r.
Qed.

Ltac latent := apply grows_draw; intros; split; simpl; [reflexivity | discriminate].

Lemma sample_coefs_latent schema fb extra :
  grows latent_site (sample_coefs RNG draw schema fb extra).
Proof. unfold sample_coefs; grow; latent. Qed.

Lemma batch_effect_latent B loc ids :
  grows latent_site (batch_effect RNG draw B loc ids).
Proof. unfold batch_effect; grow; latent. Qed.

Lemma sample_coefs_first_sites schema fb extra (st st' : St) (coefs : Coefs) :
  sample_coefs RNG draw schema fb extra st = (st', Ok coefs) ->
  exists s1 s2 rest,
    trace st' = trace st ++ s1 :: s2 :: rest /\
    s_name s1 = "coef_scale_loc"%string /\
    s_name s2 = "coef_scale_scale"%string.
Proof.
  unfold sample_coefs. intros H.
  apply bind_ok in H. destruct H as [sa [v1 [H1 H]]].
  apply bind_ok in H. destruct H as [sb [v2 [H2 H]]].
  apply sample_site in H1. destruct H1 as [b1 H1].
  apply sample_site in H2. destruct H2 as [b2 H2].
  assert (Hg : grows (fun _ => True)
            (bind RNG
               (foldMM RNG (sample_block RNG draw schema v1 v2) ([[]] ++ fb) [])
               (fun coefs0 =>
                  match extra with
                  | Some ef =>
                      bind RNG
                        (sample RNG draw None "coef_scale" (LogNormal v1 v2) None)
                        (fun coef_scale =>
                           bind RNG
                             (sample RNG draw None "coef"
                                (ToEvent 1
                                   (Normal
                                      (zeros (skipn (List.length (tshape ef) - 1)
                                                (tshape ef)))
                                      coef_scale)) None)
                             (fun coef =>
                                ret RNG (PyDict.set key_eqb None coef coefs0)))
                  | None => ret RNG coefs0
                  end))).
  { grow; apply grows_sample; auto. }
  destruct (Hg _ _ _ H) as [rest [Hrest _]].
  do 2 eexists. exists rest. rewrite Hrest, H2, H1, <- !app_assoc.
  split; [reflexivity|]. split; reflexivity.
Qed.

Lemma batch_effect_first_site B loc ids (st st' : St) ls :
  batch_effect RNG draw B loc ids st = (st', Ok ls) ->
  exists s rest,
    trace st' = trace st ++ s :: rest /\
    s_name s = "within_batch_scale"%string.
Proof.
  unfold batch_effect. intros H.
  apply bind_ok in H. destruct H as [sa [v1 [H1 H]]].
  apply sample_site in H1. destruct H1 as [b1 H1].
  match type of H with
  | bind RNG ?m ?k sa = _ =>
      assert (Hg : grows (fun _ => True) (bind RNG m k))
  end.
  { grow; apply grows_sample; auto. }
  destruct (Hg _ _ _ H) as [rest [Hrest _]].
  eexists. exists rest. rewrite Hrest, H1, <- !app_assoc.
  split; reflexivity.
Qed.

Lemma likelihood_unknown N rt bins e loc scale (st : St) :
  rt <> "real"%string -> rt <> "unit_interval"%string ->
  likelihood RNG draw N rt bins e loc scale st
  = (st, Err (if N =? 0 then ZeroDivisionError else ValueError)).
Proof.
  intros Hr Hu. unfold likelihood, plate, bind.
  destruct N as [|N]; [reflexivity|].
  replace (Z.of_nat (S N) =? 0)%Z with false by (symmetry; apply Z.eqb_neq; lia).
  replace (Z.of_nat (S N) <? 0)%Z with false by (symmetry; apply Z.ltb_ge; lia).
  unfold ret.
  apply String.eqb_neq in Hr, Hu. rewrite Hr, Hu. reflexivity.
Qed.

Lemma likelihood_real_ok N bins e loc scale (st st' : St) (u : unit) :
  likelihood RNG draw N "real" bins e loc scale st = (st', Ok u) ->
  N <> 0 /\ exists site, trace st' = trace st ++ [site] /\
                         s_name site = "responses"%string.
Proof.
  intros H. split.
  - intros ->. discriminate H.
  - apply likelihood_site in H. destruct H as [site [post [Htr [_ Hn]]]].
    destruct Hn as [[_ [Hn ->]]|[Hn _]]; [|discriminate].
    eauto.
Qed.

(** C3 (as the code has it).  With a response type other than ["real"] and
    ["unit_interval"] the model never returns: it raises.  When the same
    call with ["real"] runs through, the exception is [ValueError], raised
    where the ["real"] run visits its last site ["responses"]: by then the
    latent variables [coef_scale_loc], [coef_scale_scale], the
    coefficients and [within_batch_scale] have been drawn. *)
Theorem unknown_response_type_raises_at_the_likelihood
    schema fb extra e mb rt bins (st : St) :
  rt <> "real"%string -> rt <> "unit_interval"%string ->
  exists st' err,
    model RNG draw validate schema fb extra e mb rt bins st = (st', Err err) /\
    (forall st1 coefs,
        model RNG draw validate schema fb extra e mb "real" bins st
        = (st1, Ok coefs) ->
        err = ValueError /\
        (exists site, trace st1 = trace st' ++ [site] /\
                      s_name site = "responses"%string) /\
        exists new,
          trace st' = trace st ++ new /\
          Forall latent_site new /\
          In "coef_scale_loc"%string (map s_name new) /\
          In "coef_scale_scale"%string (map s_name new) /\
          In "within_batch_scale"%string (map s_name new)).
Proof.
  intros Hr Hu. unfold model.
  destruct (model_checks validate schema extra e mb) as [[N B]|err] eqn:Hc.
  2:{ exists st, err. split; [reflexivity|].
      intros st1 coefs H. apply bind_ok in H.
      destruct H as [? [? [H _]]]. discriminate H. }
  rewrite !(bind_step _ _ st st (N, B)) by reflexivity.
  destruct (sample_coefs RNG draw schema fb extra st) as [s1 [coefs|err]] eqn:Hs.
  2:{ exists s1, err. split; [unfold bind; now rewrite Hs|].
      intros st1 coefs H. apply bind_ok in H.
      destruct H as [? [? [H _]]]. congruence. }
  rewrite !(bind_step _ _ st s1 coefs) by exact Hs.
  destruct (linear_response schema coefs (sequences e) extra) as [loc|err] eqn:Hl.
  2:{ exists s1, err. split; [reflexivity|].
      intros st1 coefs' H. apply bind_ok in H.
      destruct H as [? [? [H _]]]. discriminate H. }
  rewrite !(bind_step _ _ s1 s1 loc) by reflexivity.
  destruct (batch_effect RNG draw B loc (batch_ids e) s1) as [s2 [ls|err]] eqn:Hb.
  2:{ exists s2, err. split; [unfold bind; now rewrite Hb|].
      intros st1 coefs' H. apply bind_ok in H.
      destruct H as [? [? [H _]]]. congruence. }
  rewrite !(bind_step _ _ s1 s2 ls) by exact Hb.
  unfold bind at 1. rewrite (likelihood_unknown _ _ _ _ _ _ _ Hr Hu).
  eexists. eexists. split; [reflexivity|].
  intros st1 coefs' H.
  apply bind_ok in H. destruct H as [s3 [u [Hlik H]]].
  injection H as <- _.
  apply likelihood_real_ok in Hlik. destruct Hlik as [HN Hsite].
  apply Nat.eqb_neq in HN. rewrite HN.
  split; [reflexivity|]. split; [exact Hsite|].
  destruct (sample_coefs_latent _ _ _ _ _ _ Hs) as [n1 [E1 F1]].
  destruct (batch_effect_latent _ _ _ _ _ _ Hb) as [n2 [E2 F2]].
  destruct (sample_coefs_first_sites _ _ _ _ _ _ Hs) as [a1 [a2 [r1 [E1' [Na1 Na2]]]]].
  destruct (batch_effect_first_site _ _ _ _ _ _ Hb) as [a3 [r2 [E2' Na3]]].
  exists (n1 ++ n2). rewrite E2, E1, app_assoc.
  split; [reflexivity|]. split; [apply Forall_app; auto|].
  assert (Hn1 : n1 = a1 :: a2 :: r1).
  { rewrite E1 in E1'. now apply app_inv_head in E1'. }
  assert (Hn2 : n2 = a3 :: r2).
  { rewrite E2 in E2'. now apply app_inv_head in E2'. }
  subst n1 n2. repeat split; apply in_map_iff.
  - exists a1. split; [exact Na1 | apply in_or_app; left; now left].
  - exists a2. split; [exact Na2 | apply in_or_app; left; right; now left].
  - exists a3. split; [exact Na3 | apply in_or_app; right; now left].
Qed.

(** *** Simulated responses *)

Hypothesis draw_ok : sampler_ok draw.

Lemma unit_fraction (bins : Z) (q : Q) :
  (0 < bins)%Z -> (0 <= q <= inject_Z bins)%Q ->
  (0 <= q / inject_Z bins <= 1)%Q.
Proof.
  intros Hb [H0 H1].
  assert (Hpos : (0 < inject_Z bins)%Q).
  { unfold Qlt, inject_Z. simpl. lia. }
  split.
  - apply Qle_shift_div_l; [exact Hpos|]. now rewrite Qmult_0_l.
  - apply Qle_shift_div_r; [exact Hpos|]. now rewrite Qmult_1_l.
Qed.

Lemma likelihood_simulation N bins e loc scale (st st' : St) (u : unit) :
  (0 < bins)%Z -> responses e = None ->
  likelihood RNG draw N "unit_interval" bins e loc scale st = (st', Ok u) ->
  exists logits_site logits quantized,
    trace st'
    = trace st ++
      [logits_site;
       mkSite "quantized_response" (Some (Binomial bins logits)) quantized false;
       mkSite "responses"
         (Some (MaskedDelta (tmap (fun q => (q / inject_Z bins)%Q) quantized)))
         (tmap (fun q => (q / inject_Z bins)%Q) quantized) true] /\
    s_name logits_site = "logits"%string /\
    Forall (fun q => (0 <= q <= 1)%Q)
           (tdata (tmap (fun q => (q / inject_Z bins)%Q) quantized)).
Proof.
  intros Hbins Hresp. unfold likelihood. rewrite Hresp. intros H.
  apply bind_ok in H. destruct H as [s0 [n [Hplate H]]].
  assert (s0 = st) as ->.
  { unfold plate in Hplate. destruct (Z.of_nat N =? 0)%Z; [discriminate|].
    destruct (Z.of_nat N <? 0)%Z; [discriminate|]. now injection Hplate. }
  cbn [String.eqb Ascii.eqb Bool.eqb andb option_map] in H.
  apply bind_ok in H. destruct H as [s1 [logits [Hl H]]].
  apply bind_ok in H. destruct H as [s2 [quantized [Hq H]]].
  apply sample_site in Hl. destruct Hl as [b Hl].
  apply sample_draws in Hq. destruct Hq as [shape [_ [Hv Hq]]].
  apply deterministic_ok in H. destruct H as [H _].
  exists (mkSite "logits" (Some (Normal loc scale)) logits b), logits, quantized.
  rewrite H, Hq, Hl, <- !app_assoc. split; [reflexivity|]. split; [reflexivity|].
  cbn [tmap tdata]. apply Forall_map.
  destruct (draw_ok (rng s1) (Binomial bins logits) shape) as [_ Hsupp].
  specialize (Hsupp bins logits eq_refl). rewrite <- Hv in Hsupp.
  assert (Hnn : (0 <= bins)%Z) by lia. specialize (Hsupp Hnn).
  eapply Forall_impl; [|exact Hsupp].
  intros q Hq'. now apply unit_fraction.
Qed.

Ltac other_name :=
  first [ apply grows_sample; intros; unfold not_named; simpl; discriminate
        | apply grows_deterministic; unfold not_named; simpl; discriminate ].

Lemma sample_coefs_no_responses schema fb extra :
  grows (not_named "responses") (sample_coefs RNG draw schema fb extra).
Proof. unfold sample_coefs; grow; other_name. Qed.

Lemma batch_effect_no_responses B loc ids :
  grows (not_named "responses") (batch_effect RNG draw B loc ids).
Proof. unfold batch_effect; grow; other_name. Qed.

Lemma unit_interval_simulation_bounded
    schema fb extra e mb bins (st st' : St) (coefs : Coefs) :
  (0 < bins)%Z -> responses e = None ->
  model RNG draw validate schema fb extra e mb "unit_interval" bins st
  = (st', Ok coefs) ->
  exists before logits quantized,
    trace st'
    = trace st ++ before ++
      [mkSite "quantized_response" (Some (Binomial bins logits)) quantized false;
       mkSite "responses"
         (Some (MaskedDelta (tmap (fun q => (q / inject_Z bins)%Q) quantized)))
         (tmap (fun q => (q / inject_Z bins)%Q) quantized) true] /\
    Forall (not_named "responses") before /\
    Forall (fun q => (0 <= q <= 1)%Q)
           (tdata (tmap (fun q => (q / inject_Z bins)%Q) quantized)).
Proof.
  intros Hbins Hresp H. unfold model in H.
  apply bind_ok in H. destruct H as [s0 [[N B] [Hc H]]].
  apply lift_ok in Hc. destruct Hc as [-> _].
  apply bind_ok in H. destruct H as [s1 [coefs1 [Hs H]]].
  apply bind_ok in H. destruct H as [s1' [loc [Hloc H]]].
  apply lift_ok in Hloc. destruct Hloc as [-> _].
  apply bind_ok in H. destruct H as [s2 [ls [Hb H]]].
  apply bind_ok in H. destruct H as [s3 [u [Hlik H]]].
  injection H as <- _.
  destruct (sample_coefs_no_responses _ _ _ _ _ _ Hs) as [n1 [E1 F1]].
  destruct (batch_effect_no_responses _ _ _ _ _ _ Hb) as [n2 [E2 F2]].
  destruct (likelihood_simulation _ _ _ _ _ _ _ _ Hbins Hresp Hlik)
    as [ls_site [logits [quantized [E3 [Hname Hall]]]]].
  exists (n1 ++ n2 ++ [ls_site]), logits, quantized.
  rewrite E3, E2, E1, <- !app_assoc. split; [reflexivity|].
  split; [|exact Hall].
  apply Forall_app. split; [exact F1|]. apply Forall_app. split; [exact F2|].
  constructor; [|constructor]. unfold not_named. rewrite Hname. discriminate.
Qed.

(** *** Shapes of the coefficients *)

Lemma broadcast_shapes_nil_r (s : list nat) : broadcast_shapes s [] = Ok s.
Proof.
  unfold broadcast_shapes. change (rev (@nil nat)) with (@nil nat).
  destruct (rev s) eqn:E; cbn [broadcast_rev]; rewrite <- E;
    now rewrite rev_involutive.
Qed.

Lemma draw_shape name d (st st' : St) (v : tensor Q) (shape : list nat) :
  sample RNG draw None name d None st = (st', Ok v) ->
  dist_shape d = Ok shape -> tshape v = shape.
Proof.
  intros H Hd. apply sample_draws in H. destruct H as [shape' [Hp [-> _]]].
  unfold plate_shape in Hp. rewrite Hd in Hp. injection Hp as <-.
  apply draw_ok.
Qed.

Lemma domain_sizes (schema : Schema) (block : list string) (shape : list nat) :
  mapM (fun name =>
          (dom <- PyDict.getitem String.eqb name schema ;;
           Ok (List.length dom))%res) block = Ok shape ->
  mapO (dom_size schema) block = Some shape.
Proof.
  revert shape. induction block as [|name block IH]; intros shape; simpl.
  - intros [= <-]. reflexivity.
  - unfold PyDict.getitem at 1, dom_size at 1.
    destruct (PyDict.get String.eqb name schema) as [dom|]; [|discriminate].
    simpl.
    match goal with
    | |- context [mapM ?f block] => destruct (mapM f block) as [shape'|]
    end; [|discriminate].
    intros [= <-]. now rewrite (IH _ eq_refl).
Qed.

Lemma sample_block_shape schema loc scale coefs block (st st' : St) coefs' :
  tshape loc = [] -> tshape scale = [] ->
  sample_block RNG draw schema loc scale coefs block st = (st', Ok coefs') ->
  exists coef,
    coefs' = PyDict.set key_eqb (Some block) coef coefs /\
    mapO (dom_size schema) block = Some (tshape coef).
Proof.
  intros Hloc Hscale H. unfold sample_block in H.
  apply bind_ok in H. destruct H as [s0 [shape [Hshape H]]].
  apply lift_ok in Hshape. destruct Hshape as [-> Hshape].
  apply bind_ok in H. destruct H as [s0 [ps [Hps H]]].
  apply lift_ok in Hps. destruct Hps as [-> _].
  apply bind_ok in H. destruct H as [s1 [coef_scale [Hcs H]]].
  apply bind_ok in H. destruct H as [s2 [coef [Hcoef H]]].
  injection H as _ <-.
  exists coef. split; [reflexivity|].
  apply domain_sizes in Hshape. rewrite Hshape. f_equal. symmetry.
  assert (Hs : tshape coef_scale = []).
  { eapply draw_shape; [exact Hcs|]. simpl. now rewrite Hloc, Hscale. }
  eapply draw_shape; [exact Hcoef|].
  simpl. rewrite Hs, broadcast_shapes_nil_r.
  unfold zeros. simpl. now rewrite Nat.leb_refl.
Qed.

Lemma blocks_loop_shaped schema loc scale (l : list (list string)) :
  tshape loc = [] -> tshape scale = [] ->
  forall coefs (st st' : St) coefs',
    foldMM RNG (sample_block RNG draw schema loc scale) l coefs st
    = (st', Ok coefs') ->
    coefs_shaped schema coefs ->
    coefs_shaped schema coefs' /\
    (forall b, In b l \/ PyDict.get key_eqb (Some b) coefs <> None ->
               PyDict.get key_eqb (Some b) coefs' <> None).
Proof.
  intros Hloc Hscale. induction l as [|block l IH]; intros coefs st st' coefs' H HI.
  - injection H as _ <-. split; [exact HI|]. intros b [[]|Hb]. exact Hb.
  - simpl in H. apply bind_ok in H. destruct H as [s1 [coefs1 [Hstep H]]].
    destruct (sample_block_shape _ _ _ _ _ _ _ _ Hloc Hscale Hstep)
      as [coef [-> Hshape]].
    assert (HI1 : coefs_shaped schema (PyDict.set key_eqb (Some block) coef coefs)).
    { intros b c Hget.
      destruct (list_eq_dec string_dec b block) as [->|Hne].
      - rewrite (get_set_same key_eqb key_eqb_eq) in Hget.
        injection Hget as <-. exact Hshape.
      - rewrite (get_set_other key_eqb key_eqb_eq) in Hget by congruence.
        now apply HI. }
    destruct (IH _ _ _ _ H HI1) as [HI' Hmem]. split; [exact HI'|].
    intros b Hb. apply Hmem.
    destruct (list_eq_dec string_dec b block) as [->|Hne].
    + right. rewrite (get_set_same key_eqb key_eqb_eq). discriminate.
    + destruct Hb as [[Hb|Hb]|Hb]; [congruence | now left |].
      right. now rewrite (get_set_other key_eqb key_eqb_eq) by congruence.
Qed.

Lemma sample_coefs_shaped schema fb extra (st st' : St) (coefs : Coefs) :
  sample_coefs RNG draw schema fb extra st = (st', Ok coefs) ->
  forall b, In b ([] :: fb) ->
    exists coef, PyDict.get key_eqb (Some b) coefs = Some coef /\
                 mapO (dom_size schema) b = Some (tshape coef).
Proof.
  unfold sample_coefs. intros H.
  apply bind_ok in H. destruct H as [s1 [loc [Hloc H]]].
  apply bind_ok in H. destruct H as [s2 [scale [Hscale H]]].
  apply bind_ok in H. destruct H as [s3 [coefs0 [Hloop H]]].
  assert (Hl : tshape loc = []) by (eapply draw_shape; [exact Hloc | reflexivity]).
  assert (Hs : tshape scale = []) by (eapply draw_shape; [exact Hscale | reflexivity]).
  destruct (blocks_loop_shaped schema loc scale _ Hl Hs _ _ _ _ Hloop)
    as [HI Hmem]; [intros b c; discriminate|].
  assert (Hfinal : forall b, PyDict.get key_eqb (Some b) coefs
                             = PyDict.get key_eqb (Some b) coefs0).
  { intros b. destruct extra as [ef|].
    - apply bind_ok in H. destruct H as [s4 [cs [_ H]]].
      apply bind_ok in H. destruct H as [s5 [c [_ H]]].
      injection H as _ <-.
      now rewrite (get_set_other key_eqb key_eqb_eq) by discriminate.
    - injection H as _ <-. reflexivity. }
  intros b Hb. rewrite Hfinal.
  destruct (PyDict.get key_eqb (Some b) coefs0) as [coef|] eqn:E.
  - exists coef. split; [reflexivity | now apply HI].
  - exfalso. apply (Hmem b); [now left | exact E].
Qed.

Lemma sample_total name d (st : St) (shape : list nat) :
  dist_shape d = Ok shape ->
  ~ In name (map s_name (trace st)) ->
  exists st' v, sample RNG draw None name d None st = (st', Ok v) /\
                tshape v = shape /\
                trace st' = trace st ++ [mkSite name (Some d) v false].
Proof.
  intros Hd Hnew. unfold sample, plate_shape. rewrite Hd.
  destruct (draw (rng st) d shape) as [v g] eqn:E.
  rewrite (proj2 (visited_false name st) Hnew).
  do 2 eexists. split; [reflexivity|]. split; [|reflexivity].
  pose proof (proj1 (draw_ok (rng st) d shape)) as Hs. now rewrite E in Hs.
Qed.

(** Names that are distinct and new to the trace stay new while the names
    before them are recorded. *)
Lemma fresh_after (pre mid post tr : list string) :
  NoDup (pre ++ mid ++ post) ->
  (forall n, In n (pre ++ mid ++ post) -> ~ In n tr) ->
  forall n, In n mid -> ~ In n (tr ++ pre).
Proof.
  intros Hnd Hfresh n Hn Hin. apply in_app_or in Hin. destruct Hin as [H|H].
  - apply (Hfresh n); [|exact H]. apply in_or_app. right. apply in_or_app. now left.
  - apply nodup_app_inv in Hnd. destruct Hnd as [_ [_ Hd]].
    apply (Hd n H). apply in_or_app. now left.
Qed.

Lemma sample_block_total schema loc scale coefs block (st : St) :
  tshape loc = [] -> tshape scale = [] ->
  (forall name, In name block -> In name (PyDict.keys schema)) ->
  (forall name, In name (block_site_names schema block) ->
                ~ In name (map s_name (trace st))) ->
  exists st' coefs',
    sample_block RNG draw schema loc scale coefs block st = (st', Ok coefs') /\
    map s_name (trace st')
    = map s_name (trace st) ++ block_site_names schema block.
Proof.
  intros Hloc Hscale Hnames Hfresh. unfold sample_block.
  destruct (mapM_total
              (fun name => (dom <- PyDict.getitem String.eqb name schema ;;
                            Ok (List.length dom))%res)
              (fun _ => True) block) as [shape [Hshape _]].
  { intros name Hin. specialize (Hnames name Hin).
    apply (get_keys String.eqb String.eqb_eq) in Hnames.
    unfold PyDict.getitem.
    destruct (PyDict.get String.eqb name schema); [|congruence].
    simpl. eauto. }
  destruct (block_suffix_defined schema block Hnames) as [ps [Hps Hsuffix]].
  unfold block_site_names in *. rewrite Hsuffix in *.
  rewrite (bind_step _ _ st st shape) by (unfold lift; now rewrite Hshape).
  rewrite (bind_step _ _ st st ps) by (unfold lift; now rewrite Hps).
  destruct (sample_total
              (append "coef_scale_" (String.concat "_" (map str ps)))
              (LogNormal loc scale) st [])
    as [s1 [coef_scale [Hcs [Hs Ht1]]]].
  { simpl. now rewrite Hloc, Hscale. }
  { apply Hfresh. now left. }
  rewrite (bind_step _ _ st s1 coef_scale) by exact Hcs.
  destruct (sample_total
              (append "coef_" (String.concat "_" (map str ps)))
              (ToEvent (List.length shape) (Normal (zeros shape) coef_scale))
              s1 shape)
    as [s2 [coef [Hcoef [_ Ht2]]]].
  { simpl. rewrite Hs, broadcast_shapes_nil_r. now rewrite Nat.leb_refl. }
  { rewrite Ht1, map_app, in_app_iff. cbn [map In s_name]. intros [H|[H|[]]].
    - revert H. apply Hfresh. right. now left.
    - revert H. apply coef_name_differs. apply suffix_start. }
  rewrite (bind_step _ _ s1 s2 coef) by exact Hcoef.
  unfold ret. do 2 eexists. split; [reflexivity|].
  rewrite Ht2, Ht1, !map_app, <- app_assoc. reflexivity.
Qed.

Lemma blocks_loop_total schema loc scale (l : list (list string)) :
  tshape loc = [] -> tshape scale = [] ->
  (forall b name, In b l -> In name b -> In name (PyDict.keys schema)) ->
  NoDup l ->
  forall coefs0 (s : St),
    (forall name, In name (flat_map (block_site_names schema) l) ->
                  ~ In name (map s_name (trace s))) ->
    exists s' coefs',
      foldMM RNG (sample_block RNG draw schema loc scale) l coefs0 s
      = (s', Ok coefs') /\
      map s_name (trace s')
      = map s_name (trace s) ++ flat_map (block_site_names schema) l.
Proof.
  intros Hl Hs. induction l as [|block l IH]; intros Hl' Hnd coefs0 s Hfresh.
  - simpl. unfold ret. do 2 eexists. split; [reflexivity|]. now rewrite app_nil_r.
  - cbn [foldMM flat_map] in *.
    destruct (sample_block_total schema loc scale coefs0 block s Hl Hs)
      as [sa [ca [Ha Hta]]].
    { intros name Hn. apply (Hl' block name); [now left | exact Hn]. }
    { intros name Hn. apply Hfresh. apply in_or_app. now left. }
    rewrite (bind_step _ _ s sa ca) by exact Ha.
    pose proof (block_names_nodup schema (block :: l) Hnd) as Hdistinct.
    cbn [flat_map] in Hdistinct. apply nodup_app_inv in Hdistinct.
    destruct Hdistinct as [_ [_ Hdisj]].
    inversion Hnd as [|? ? _ Hnd']; subst.
    destruct (IH (fun b name Hb Hn => Hl' b name (or_intror Hb) Hn) Hnd' ca sa)
      as [s' [c' [Hrun Ht]]].
    { intros name Hn. rewrite Hta, in_app_iff. intros [H|H].
      - revert H. apply Hfresh. apply in_or_app. now right.
      - exact (Hdisj name H Hn). }
    exists s', c'. split; [exact Hrun|]. rewrite Ht, Hta, <- app_assoc. reflexivity.
Qed.

(** On a trace that holds none of their names, the coefficients of distinct
    blocks over the variables of the schema are sampled without error, and
    recorded under [coef_site_names]. *)
Lemma sample_coefs_total schema fb extra (st : St) :
  (forall b name, In b fb -> In name b -> In name (PyDict.keys schema)) ->
  (forall ef, extra = Some ef -> tshape ef <> []) ->
  NoDup ([] :: fb) ->
  fresh_for (coef_site_names schema fb extra) st ->
  exists st' coefs,
    sample_coefs RNG draw schema fb extra st = (st', Ok coefs) /\
    map s_name (trace st')
    = map s_name (trace st) ++ coef_site_names schema fb extra.
Proof.
  intros Hnames Hextra Hnd Hfresh. unfold sample_coefs.
  pose proof (coef_site_names_nodup schema fb extra Hnd) as Hdistinct.
  assert (Hnext : forall pre mid post,
             coef_site_names schema fb extra = pre ++ mid ++ post ->
             forall n, In n mid -> ~ In n (map s_name (trace st) ++ pre)).
  { intros pre mid post Heq. apply (fresh_after pre mid post).
    - now rewrite <- Heq.
    - rewrite <- Heq. exact Hfresh. }
  unfold coef_site_names in Hnext.
  set (blocks := flat_map (block_site_names schema) ([] :: fb)) in *.
  set (last_names := match extra with
                     | Some _ => ["coef_scale"; "coef"]%string
                     | None => []
                     end) in *.
  destruct (sample_total "coef_scale_loc" (Normal (scalar (-2)%Q) (scalar 1%Q)) st [])
    as [s1 [loc [Hloc [Hl Ht1]]]]; [reflexivity| |].
  { intros H. apply (Hnext [] ["coef_scale_loc"%string]
                       ("coef_scale_scale"%string :: blocks ++ last_names) eq_refl
                       "coef_scale_loc"%string); [now left|].
    apply in_or_app. now left. }
  rewrite (bind_step _ _ st s1 loc) by exact Hloc.
  destruct (sample_total "coef_scale_scale" (LogNormal (scalar 0%Q) (scalar 1%Q)) s1 [])
    as [s2 [scale [Hscale [Hs Ht2]]]]; [reflexivity| |].
  { rewrite Ht1, map_app. cbn [map s_name].
    apply (Hnext ["coef_scale_loc"%string] ["coef_scale_scale"%string]
             (blocks ++ last_names) eq_refl). now left. }
  rewrite (bind_step _ _ s1 s2 scale) by exact Hscale.
  destruct (blocks_loop_total schema loc scale ([[]] ++ fb) Hl Hs) with
    (coefs0 := @nil (Key * tensor Q)) (s := s2) as [s3 [coefs0 [Hc Ht3]]].
  { intros b name [<-|Hb] Hn; [destruct Hn | eauto]. }
  { exact Hnd. }
  { rewrite Ht2, Ht1, <- app_assoc, map_app. cbn [map s_name app].
    exact (Hnext ["coef_scale_loc"; "coef_scale_scale"]%string blocks last_names
             eq_refl). }
  rewrite (bind_step _ _ s2 s3 coefs0) by exact Hc.
  assert (Hnames3 : map s_name (trace s3)
                    = map s_name (trace st)
                      ++ ["coef_scale_loc"; "coef_scale_scale"]%string ++ blocks).
  { change ([[]] ++ fb) with ([] :: fb) in Ht3. fold blocks in Ht3.
    rewrite Ht3, Ht2, Ht1, <- !app_assoc, !map_app. cbn [map s_name app].
    now rewrite <- !app_assoc. }
  destruct extra as [ef|].
  2:{ unfold ret. do 2 eexists. split; [reflexivity|].
      rewrite Hnames3. unfold coef_site_names. subst blocks.
      now rewrite app_nil_r. }
  subst last_names.
  destruct (sample_total "coef_scale" (LogNormal loc scale) s3 [])
    as [s4 [coef_scale [Hcs [Hcss Ht4]]]].
  { simpl. now rewrite Hl, Hs. }
  { rewrite Hnames3.
    apply (Hnext (["coef_scale_loc"; "coef_scale_scale"]%string ++ blocks)
             ["coef_scale"%string] ["coef"%string]); [|now left].
    now rewrite <- app_assoc. }
  rewrite (bind_step _ _ s3 s4 coef_scale) by exact Hcs.
  set (shape := skipn (List.length (tshape ef) - 1) (tshape ef)).
  destruct (sample_total "coef" (ToEvent 1 (Normal (zeros shape) coef_scale)) s4 shape)
    as [s5 [coef [Hcoef [_ Ht5]]]].
  { simpl. rewrite Hcss, broadcast_shapes_nil_r.
    assert (Hlen : List.length shape = 1).
    { unfold shape. rewrite List.length_skipn.
      specialize (Hextra ef eq_refl). destruct (tshape ef); [congruence|].
      cbn [List.length]. lia. }
    now rewrite Hlen. }
  { assert (Hpre : map s_name (trace s4)
                   = map s_name (trace st)
                     ++ (["coef_scale_loc"; "coef_scale_scale"]%string ++ blocks)
                     ++ ["coef_scale"%string]).
    { rewrite Ht4, map_app, Hnames3. cbn [map s_name app].
      now rewrite <- !app_assoc. }
    rewrite Hpre.
    apply (Hnext ((["coef_scale_loc"; "coef_scale_scale"]%string ++ blocks)
                  ++ ["coef_scale"%string])
             ["coef"%string] []); [|now left].
    now rewrite <- !app_assoc. }
  rewrite (bind_step _ _ s4 s5 coef) by exact Hcoef.
  unfold ret. do 2 eexists. split; [reflexivity|].
  rewrite Ht5, Ht4, !map_app, Hnames3. cbn [map s_name]. unfold coef_site_names.
  subst blocks. now rewrite <- !app_assoc.
Qed.

(** *** A block that names an unknown variable *)

Lemma unknown_name_keyerror (schema : Schema) (block : list string) (name : string) :
  In name block -> ~ In name (PyDict.keys schema) ->
  mapM (fun name =>
          (dom <- PyDict.getitem String.eqb name schema ;;
           Ok (List.length dom))%res) block = Err KeyError.
Proof.
  intros Hin Hnot.
  assert (Hnone : PyDict.get String.eqb name schema = None).
  { destruct (PyDict.get String.eqb name schema) as [dom|] eqn:E; [|reflexivity].
    exfalso. apply Hnot. apply (get_in String.eqb String.eqb_eq) in E.
    unfold PyDict.keys. apply in_map_iff. exists (name, dom). auto. }
  induction block as [|x block IH]; [destruct Hin|].
  cbn [mapM]. unfold PyDict.getitem at 1.
  destruct (PyDict.get String.eqb x schema) as [dom|] eqn:Ex;
    cbn [of_option rbind]; [|reflexivity].
  destruct Hin as [->|Hin]; [congruence|].
  now rewrite (IH Hin).
Qed.

Lemma foldMM_app {A S} (f : S -> A -> M S) (l1 l2 : list A) (s : S) (st : St) :
  foldMM RNG f (l1 ++ l2) s st
  = bind RNG (foldMM RNG f l1 s) (foldMM RNG f l2) st.
Proof.
  revert s st. induction l1 as [|x l1 IH]; intros s st; simpl.
  - reflexivity.
  - unfold bind. destruct (f s x st) as [st1 [s1|e]]; [|reflexivity].
    specialize (IH s1 st1). unfold bind in IH. exact IH.
Qed.

Lemma unknown_variable_fails_after_draws
    schema good bad rest extra e mb rt bins (name : string) (st : St) N B :
  (forall b n, In b good -> In n b -> In n (PyDict.keys schema)) ->
  NoDup ([] :: good) ->
  fresh_for (coef_site_names schema good None) st ->
  In name bad -> ~ In name (PyDict.keys schema) ->
  model_checks validate schema extra e mb = Ok (N, B) ->
  exists st' site new,
    model RNG draw validate schema (good ++ bad :: rest) extra e mb rt bins st
    = (st', Err KeyError) /\
    trace st' = trace st ++ site :: new /\
    s_name site = "coef_scale_loc"%string /\
    latent_site site.
Proof.
  intros Hgood Hnd Hfresh Hin Hnot Hc. unfold model.
  rewrite (bind_step _ _ st st (N, B)) by (unfold lift; now rewrite Hc).
  unfold sample_coefs.
  pose proof (coef_site_names_nodup schema good None Hnd) as Hdistinct.
  assert (Hnext : forall pre mid post,
             coef_site_names schema good None = pre ++ mid ++ post ->
             forall n, In n mid -> ~ In n (map s_name (trace st) ++ pre)).
  { intros pre mid post Heq. apply (fresh_after pre mid post).
    - now rewrite <- Heq.
    - rewrite <- Heq. exact Hfresh. }
  unfold coef_site_names in Hnext.
  destruct (sample_total "coef_scale_loc" (Normal (scalar (-2)%Q) (scalar 1%Q)) st [])
    as [s1 [loc [Hloc [Hl Ht1]]]]; [reflexivity| |].
  { intros H. apply (Hnext [] ["coef_scale_loc"%string] _ eq_refl
                       "coef_scale_loc"%string); [now left|].
    apply in_or_app. now left. }
  destruct (sample_total "coef_scale_scale" (LogNormal (scalar 0%Q) (scalar 1%Q)) s1 [])
    as [s2 [scale [Hscale [Hs Ht2]]]]; [reflexivity| |].
  { rewrite Ht1, map_app. cbn [map s_name].
    apply (Hnext ["coef_scale_loc"%string] ["coef_scale_scale"%string] _ eq_refl).
    now left. }
  destruct (blocks_loop_total schema loc scale ([] :: good) Hl Hs) with
    (coefs0 := @nil (Key * tensor Q)) (s := s2) as [s3 [coefs0 [Hloop _]]].
  { intros b n [<-|Hb] Hn; [destruct Hn | eauto]. }
  { exact Hnd. }
  { rewrite Ht2, Ht1, <- app_assoc, map_app. cbn [map s_name app].
    exact (Hnext ["coef_scale_loc"; "coef_scale_scale"]%string _ [] eq_refl). }
  assert (Hbad : forall k : Coefs -> M Coefs,
             bind RNG
               (foldMM RNG (sample_block RNG draw schema loc scale)
                  ([[]] ++ good ++ bad :: rest) []) k s2
             = (s3, Err KeyError)).
  { intros k. change ([[]] ++ good ++ bad :: rest) with (([] :: good) ++ bad :: rest).
    unfold bind at 1. rewrite foldMM_app, (bind_step _ _ s2 s3 coefs0) by exact Hloop.
    cbn [foldMM]. unfold sample_block at 1. unfold bind at 1 2, lift at 1.
    now rewrite (unknown_name_keyerror schema bad name Hin Hnot). }
  assert (Hg : grows (fun _ => True)
                 (foldMM RNG (sample_block RNG draw schema loc scale) ([] :: good) [])).
  { unfold sample_block. grow; apply grows_sample; auto. }
  destruct (Hg _ _ _ Hloop) as [more [Ht3 _]].
  exists s3, (mkSite "coef_scale_loc" (Some (Normal (scalar (-2)%Q) (scalar 1%Q)))
                loc false).
  eexists. split; [|split; [|split]].
  - unfold bind at 1. rewrite (bind_step _ _ st s1 loc) by exact Hloc.
    rewrite (bind_step _ _ s1 s2 scale) by exact Hscale.
    now rewrite Hbad.
  - rewrite Ht3, Ht2, Ht1, <- !app_assoc. reflexivity.
  - reflexivity.
  - split; [reflexivity | discriminate].
Qed.

(** *** Failed checks *)

Lemma failed_checks_draw_nothing schema fb extra e mb rt bins (st : St) err :
  model_checks validate schema extra e mb = Err err ->
  model RNG draw validate schema fb extra e mb rt bins st = (st, Err err).
Proof. intros H. unfold model, bind, lift. now rewrite H. Qed.

(** The largest batch id is read first: without [max_batch_id] and without
    batch ids, [max] fails. *)
Lemma no_batch_ids_fail_checks schema extra e :
  tdata (batch_ids e) = [] ->
  model_checks validate schema extra e None = Err RuntimeError.
Proof. intros H. unfold model_checks, tmax. now rewrite H. Qed.

Lemma max_batch_id_read (e : Experiment) (mb : option Z) :
  (mb = None -> tdata (batch_ids e) <> []) ->
  exists m, match mb with None => tmax (batch_ids e) | Some m => Ok m end = Ok m.
Proof.
  intros H. destruct mb as [m|]; [eauto|]. unfold tmax.
  destruct (tdata (batch_ids e)); [now destruct (H eq_refl) | eauto].
Qed.

(** The number of rows is read next. *)
Lemma scalar_sequences_fail_checks schema extra e mb :
  (mb = None -> tdata (batch_ids e) <> []) ->
  tshape (sequences e) = [] ->
  model_checks validate schema extra e mb = Err IndexError.
Proof.
  intros Hmb Hseq. unfold model_checks.
  destruct (max_batch_id_read e mb Hmb) as [m ->]. cbn [rbind].
  unfold size0. now rewrite Hseq.
Qed.

Lemma invalid_experiment_fails_checks schema extra e mb err :
  (mb = None -> tdata (batch_ids e) <> []) ->
  tshape (sequences e) <> [] ->
  validate schema e = Err err ->
  model_checks validate schema extra e mb = Err err.
Proof.
  intros Hmb Hseq Hv. unfold model_checks.
  destruct (max_batch_id_read e mb Hmb) as [m ->]. cbn [rbind].
  unfold size0. destruct (tshape (sequences e)); [congruence|]. cbn [rbind].
  now rewrite Hv.
Qed.

Lemma misshaped_extra_features_fail_checks schema ef e mb :
  (mb = None -> tdata (batch_ids e) <> []) ->
  tshape (sequences e) <> [] ->
  (exists u, validate schema e = Ok u) ->
  tdim ef <> 2 \/ size0 ef <> size0 (sequences e) ->
  model_checks validate schema (Some ef) e mb = Err AssertionError.
Proof.
  intros Hmb Hseq [u Hv] Hbad. unfold model_checks.
  destruct (max_batch_id_read e mb Hmb) as [m ->]. cbn [rbind].
  destruct (size0 (sequences e)) as [N|] eqn:EN.
  2:{ unfold size0 in EN. destruct (tshape (sequences e)); [congruence|discriminate]. }
  cbn [rbind]. rewrite Hv. cbn [rbind].
  destruct (tdim ef =? 2) eqn:Ed; cbn [assert rbind]; [|reflexivity].
  apply Nat.eqb_eq in Ed.
  destruct Hbad as [Hbad|Hbad]; [congruence|].
  destruct (size0 ef) as [n0|] eqn:E0.
  2:{ unfold size0, tdim in *. destruct (tshape ef); discriminate. }
  cbn [rbind].
  destruct (n0 =? N) eqn:En; cbn [assert rbind]; [|reflexivity].
  apply Nat.eqb_eq in En. congruence.
Qed.

(** The checks in the order of the code: which of them fails first. *)
Lemma checks_order (e : Experiment) (mb : option Z) :
  (mb = None /\ tdata (batch_ids e) = []) \/
  ((mb = None -> tdata (batch_ids e) <> []) /\ tshape (sequences e) = []) \/
  ((mb = None -> tdata (batch_ids e) <> []) /\ tshape (sequences e) <> []).
Proof.
  destruct mb as [m|].
  - destruct (tshape (sequences e)) eqn:E.
    + right. left. split; [discriminate | reflexivity].
    + right. right. split; discriminate.
  - destruct (tdata (batch_ids e)) eqn:Eb; [left; auto|].
    destruct (tshape (sequences e)) eqn:E.
    + right. left. split; [discriminate | reflexivity].
    + right. right. split; discriminate.
Qed.


End ModelFacts.

(** *** The tape sampler meets the assumptions on the library's sampler *)

Lemma draw_value_shape (d : Dist) (shape : list nat) (eps : tensor Q) :
  tshape eps = shape -> tshape (draw_value d shape eps) = shape.
Proof.
  intros He. induction d as [loc scale|loc scale|n logits|n d IH|v]; simpl;
    try exact He; try exact IH.
  - destruct (broadcast2 Qmult scale eps) as [t|]; simpl; [|exact He].
    destruct (tadd loc t) as [v|]; [|exact He].
    destruct (shape_eqb (tshape v) shape) eqn:E; [|exact He].
    now apply (list_eqb_eq Nat.eqb Nat.eqb_eq) in E.
  - destruct (shape_eqb (tshape v) shape) eqn:E; cbn [andb]; [|exact He].
    apply (list_eqb_eq Nat.eqb Nat.eqb_eq) in E.
    now destruct (twfb v).
Qed.

Lemma draw_tape_ok : sampler_ok draw_tape.
Proof.
  intros g d shape. unfold draw_tape, take_tape. cbn [fst]. split.
  - now apply draw_value_shape.
  - intros n logits -> Hn. cbn [draw_value tmap tdata].
    apply Forall_map. apply Forall_forall. intros e _.
    unfold clamp. split.
    + change 0%Q with (inject_Z 0). rewrite <- Zle_Qle. lia.
    + rewrite <- Zle_Qle. lia.
Qed.

(** *** The claims on the example configuration *)

Lemma unknown_response_type_raises_at_the_likelihood_witness :
  exists st' err,
    Example.run Example.feature_blocks None Example.experiment None "bogus" 100
    = (st', Err err) /\
    (forall st1 coefs,
        Example.run Example.feature_blocks None Example.experiment None "real" 100
        = (st1, Ok coefs) ->
        err = ValueError /\
        (exists site, trace st1 = trace st' ++ [site] /\
                      s_name site = "responses"%string) /\
        exists new,
          trace st' = trace Example.start ++ new /\
          Forall latent_site new /\
          In "coef_scale_loc"%string (map s_name new) /\
          In "coef_scale_scale"%string (map s_name new) /\
          In "within_batch_scale"%string (map s_name new)).
Proof.
  apply (unknown_response_type_raises_at_the_likelihood (list Q) draw_tape
           validate_spec Example.schema Example.feature_blocks None
           Example.experiment None "bogus" 100 Example.start);
    discriminate.
Defined.

(** C3, refuted as stated: with the response type ["bogus"] the example
    fails with [ValueError] only once eleven latent variables, from
    [coef_scale_loc] to [within_batch_scale], have been drawn. *)
Lemma unknown_response_type_fails_after_draws :
  exists st',
    Example.run Example.feature_blocks None Example.experiment None "bogus" 100
    = (st', Err ValueError) /\
    map s_name (trace st')
    = ["coef_scale_loc"; "coef_scale_scale"; "coef_scale_"; "coef_";
       "coef_scale_0"; "coef_0"; "coef_scale_1"; "coef_1";
       "coef_scale_0_1"; "coef_0_1"; "within_batch_scale"]%string /\
    forallb (fun s => negb (s_observed s) && is_some (s_dist s)) (trace st') = true /\
    trace st' <> trace Example.start.
Proof.
  eexists. split; [vm_compute; reflexivity|].
  split; [reflexivity|]. split; [reflexivity|]. discriminate.
Qed.







(* ================================================================== *)
(** * Further properties of the code *)

(** ** The index of the dataset (rollout_tf8.py, [main]) *)

Lemma tuple_eqb_eq (a b : list Z) : Rollout.tuple_eqb a b = true <-> a = b.
Proof. apply (list_eqb_eq Z.eqb Z.eqb_eq). Qed.

Lemma NoDup_map_inj {A B} (f : A -> B) (l : list A) (a b : A) :
  NoDup (map f l) -> In a l -> In b l -> f a = f b -> a = b.
Proof.
  induction l as [|x l IH]; simpl; [tauto|].
  intros Hnd Ha Hb Hf. inversion Hnd as [|? ? Hx Hnd']; subst.
  destruct Ha as [->|Ha], Hb as [->|Hb]; try reflexivity.
  - exfalso. apply Hx. rewrite Hf. now apply in_map.
  - exfalso. apply Hx. rewrite <- Hf. now apply in_map.
  - now apply IH.
Qed.

Lemma seq_to_id_sound (t : tensor Z) (n p : nat) (s : list Z) (i : Z) :
  tshape t = [n; p] ->
  PyDict.get Rollout.tuple_eqb s (Rollout.make_seq_to_id t) = Some i ->
  (0 <= i < Z.of_nat n)%Z /\ row p (tdata t) (Z.to_nat i) = s.
Proof.
  intros Hs. unfold Rollout.make_seq_to_id. rewrite Hs. intros H.
  apply (get_of_pairs_in _ tuple_eqb_eq) in H.
  apply in_map_iff in H. destruct H as [r [Hr Hin]].
  injection Hr as <- <-. apply in_seq in Hin. rewrite Nat2Z.id. split; [lia|].
  reflexivity.
Qed.

Lemma seq_to_id_complete (t : tensor Z) (n p r : nat) :
  tshape t = [n; p] -> r < n ->
  exists i,
    PyDict.get Rollout.tuple_eqb (row p (tdata t) r) (Rollout.make_seq_to_id t)
    = Some i /\
    (0 <= i < Z.of_nat n)%Z /\
    row p (tdata t) (Z.to_nat i) = row p (tdata t) r.
Proof.
  intros Hs Hr.
  assert (Hkey : exists i,
             PyDict.get Rollout.tuple_eqb (row p (tdata t) r)
               (Rollout.make_seq_to_id t) = Some i).
  { unfold Rollout.make_seq_to_id. rewrite Hs.
    apply (get_of_pairs_some _ tuple_eqb_eq).
    rewrite map_map. cbn [fst]. apply in_map. apply in_seq. lia. }
  destruct Hkey as [i Hi]. exists i. split; [exact Hi|].
  exact (seq_to_id_sound t n p _ i Hs Hi).
Qed.

(** X1. The dictionary [seq_to_id] that [main] builds from the sequences of
    the dataset sends a tuple only to the index of a row that equals it;
    every row of the dataset is a key; and when no two rows are equal every
    row is sent to its own index. *)
Theorem seq_to_id_finds_rows (t : tensor Z) (n p : nat) :
  tshape t = [n; p] ->
  (forall s i,
      PyDict.get Rollout.tuple_eqb s (Rollout.make_seq_to_id t) = Some i ->
      (0 <= i < Z.of_nat n)%Z /\ row p (tdata t) (Z.to_nat i) = s) /\
  (forall r, r < n ->
      exists i,
        PyDict.get Rollout.tuple_eqb (row p (tdata t) r) (Rollout.make_seq_to_id t)
        = Some i /\
        (0 <= i < Z.of_nat n)%Z /\
        row p (tdata t) (Z.to_nat i) = row p (tdata t) r) /\
  (NoDup (map (row p (tdata t)) (seq 0 n)) ->
   forall r, r < n ->
     PyDict.get Rollout.tuple_eqb (row p (tdata t) r) (Rollout.make_seq_to_id t)
     = Some (Z.of_nat r)).
Proof.
  intros Hs. split; [intros s i; now apply seq_to_id_sound|].
  split; [intros r Hr; now apply seq_to_id_complete|].
  intros Hnd r Hr. destruct (seq_to_id_complete t n p r Hs Hr) as [i [Hi [Hrange Hrow]]].
  rewrite Hi. f_equal.
  assert (Z.to_nat i = r); [|lia].
  apply (NoDup_map_inj (row p (tdata t)) (seq 0 n)); try assumption;
    apply in_seq; lia.
Qed.

Lemma seq_to_id_finds_rows_witness :
  tshape Rollout.toy_sequences = [4; 2] /\
  PyDict.get Rollout.tuple_eqb (row 2 (tdata Rollout.toy_sequences) 2)
    (Rollout.make_seq_to_id Rollout.toy_sequences)
  = Some (Z.of_nat 2).
Proof.
  split; [reflexivity|].
  apply (proj2 (proj2 (seq_to_id_finds_rows Rollout.toy_sequences 4 2 eq_refl)));
    [|lia].
  repeat constructor; simpl; intuition discriminate.
Defined.

(** ** Appending a batch (rollout_tf8.py, [update_experiment]) *)

Lemma mapM_forall2 {A B} (f : A -> result B) (R : A -> B -> Prop) (l : list A) :
  (forall x, In x l -> exists y, f x = Ok y /\ R x y) ->
  exists ys, mapM f l = Ok ys /\ Forall2 R l ys.
Proof.
  induction l as [|x l IH]; intros H.
  - exists []. split; [reflexivity | constructor].
  - destruct (H x (or_introl eq_refl)) as [y [Hy HR]].
    destruct IH as [ys [Hys Hall]]; [intros z Hz; apply H; now right|].
    exists (y :: ys). cbn [mapM]. rewrite Hy, Hys. split; [reflexivity|].
    now constructor.
Qed.

Lemma mapM_map_ok {A B} (f : A -> result B) (g : A -> B) (l : list A) :
  (forall x, In x l -> f x = Ok (g x)) -> mapM f l = Ok (map g l).
Proof.
  induction l as [|x l IH]; intros H; cbn [mapM map]; [reflexivity|].
  rewrite (H x (or_introl eq_refl)), IH; [reflexivity|].
  intros z Hz. apply H. now right.
Qed.

Lemma row_length {A} (l : list A) (m p r : nat) :
  List.length l = m * p -> r < m -> List.length (row p l r) = p.
Proof.
  intros Hl Hr. unfold row. rewrite List.length_firstn, List.length_skipn. nia.
Qed.

Lemma row_one {A} (l : list A) (j : nat) (dflt : A) :
  j < List.length l -> row 1 l j = [nth j l dflt].
Proof.
  intros Hj. unfold row. rewrite Nat.mul_1_r.
  destruct (nth_error l j) as [a|] eqn:E; [|apply nth_error_None in E; lia].
  rewrite (nth_error_nth _ _ dflt E).
  apply nth_error_split in E. destruct E as [l1 [l2 [-> <-]]].
  now rewrite skipn_app, skipn_all, Nat.sub_diag.
Qed.

Lemma take_rows_in_range {A} (t : tensor A) (ids : list Z) (m : nat)
    (rest : list nat) :
  tshape t = m :: rest ->
  Forall (fun i => (0 <= i < Z.of_nat m)%Z) ids ->
  Rollout.take_rows t ids
  = Ok (mkTensor (List.length ids :: rest)
          (List.concat
             (map (fun i => row (numel rest) (tdata t) (Z.to_nat i)) ids))).
Proof.
  intros Hs Hids. unfold Rollout.take_rows. rewrite Hs.
  rewrite (mapM_map_ok _ (fun i => row (numel rest) (tdata t) (Z.to_nat i)));
    [reflexivity|].
  intros i Hi. rewrite Forall_forall in Hids. specialize (Hids i Hi).
  unfold norm_index.
  replace ((0 <=? i)%Z && (i <? Z.of_nat m)%Z) with true
    by (symmetry; apply andb_true_iff; split; [apply Z.leb_le | apply Z.ltb_lt]; lia).
  reflexivity.
Qed.

Lemma in_insert (x y : list Z) (l : list (list Z)) :
  y = x \/ In y l -> In y (Rollout.insert x l).
Proof.
  induction l as [|z l IH]; simpl.
  - intros [->|[]]. now left.
  - destruct (Rollout.tuple_leb x z); simpl.
    + intros [->|[->|H]]; auto.
    + intros [->|[->|H]]; auto.
Qed.

Lemma in_sorted (y : list Z) (l : list (list Z)) :
  In y l -> In y (Rollout.sorted l).
Proof.
  induction l as [|x l IH]; simpl; [auto|].
  intros [->|H]; apply in_insert; auto.
Qed.

Lemma concat_length_rows {A} (rows : list (list A)) (p : nat) :
  Forall (fun r => List.length r = p) rows ->
  List.length (List.concat rows) = List.length rows * p.
Proof.
  induction 1 as [|r rows Hr _ IH]; simpl; [reflexivity|].
  rewrite List.length_app, Hr, IH. reflexivity.
Qed.

Lemma update_experiment_cat
    (e : Experiment) (design : list (list Z)) (data : Rollout.Data) (n m p : nat) :
  observed_rows e n p ->
  dataset_rows data m p ->
  (forall s, In s design ->
     exists r, r < m /\ row p (tdata (Rollout.data_sequences data)) r = s) ->
  exists s' r r' b' ids,
    Rollout.update_experiment e design data = Ok (mkExperiment s' (Some r') b') /\
    responses e = Some r /\
    Forall2 (fun s i => i < m /\
                        row p (tdata (Rollout.data_sequences data)) i = s)
            (Rollout.sorted design) ids /\
    (tshape s' = [n + List.length design; p] /\
     tdata s' = tdata (sequences e) ++ List.concat (Rollout.sorted design)) /\
    (tshape r' = [n + List.length design] /\
     tdata r' = tdata r
                ++ map (fun i => nth i (tdata (Rollout.data_responses data)) 0%Q) ids) /\
    (tshape b' = [n + List.length design] /\
     tdata b' = tdata (batch_ids e) ++ repeat 0%Z (List.length design)).
Proof.
  intros [Hs [Hswf [Hb [Hbwf [r [Hr [Hrs Hrwf]]]]]]]
         [Hds [Hdswf [Hdr [Hdrwf Hidx]]]] Hdesign.
  unfold twf in *. rewrite ?Hs, ?Hb, ?Hrs, ?Hds, ?Hdr in *.
  cbn [numel fold_right] in *. rewrite ?Nat.mul_1_r in *.
  pose proof (fun r Hr => seq_to_id_complete _ m p r Hds Hr) as Hkey.
  unfold Rollout.update_experiment. rewrite Hidx.
  destruct (mapM_forall2
              (fun s => PyDict.getitem Rollout.tuple_eqb s
                          (Rollout.make_seq_to_id (Rollout.data_sequences data)))
              (fun s i => (0 <= i < Z.of_nat m)%Z /\
                          row p (tdata (Rollout.data_sequences data)) (Z.to_nat i) = s)
              (Rollout.sorted design)) as [idz [-> Hidz]].
  { intros s Hin. apply sorted_in in Hin.
    destruct (Hdesign s Hin) as [r0 [Hr0 <-]].
    destruct (Hkey r0 Hr0) as [i [Hi [Hrange Hrow]]].
    exists i. unfold PyDict.getitem. rewrite Hi. auto. }
  cbn [rbind].
  assert (Hlen : List.length idz = List.length design).
  { apply Forall2_length in Hidz. now rewrite sorted_length in Hidz. }
  assert (Hrange : Forall (fun i => (0 <= i < Z.of_nat m)%Z) idz).
  { clear - Hidz. induction Hidz as [|s i l l' [Hi _] _ IH]; constructor; auto. }
  rewrite (take_rows_in_range _ idz m [p] Hds Hrange).
  rewrite (take_rows_in_range _ idz m [] Hdr Hrange).
  cbn [rbind numel fold_right]. rewrite Nat.mul_1_r, Hlen.
  assert (Hrows : map (fun i => row p (tdata (Rollout.data_sequences data)) (Z.to_nat i)) idz
                  = Rollout.sorted design).
  { clear - Hidz. induction Hidz as [|s i l l' [_ Hi] _ IH]; simpl; [reflexivity|].
    now rewrite Hi, IH. }
  assert (Hresp : List.concat
                    (map (fun i => row 1 (tdata (Rollout.data_responses data)) (Z.to_nat i)) idz)
                  = map (fun i => nth i (tdata (Rollout.data_responses data)) 0%Q)
                        (map Z.to_nat idz)).
  { clear - Hrange Hdrwf. induction Hrange as [|i l Hi _ IH]; simpl; [reflexivity|].
    rewrite (row_one _ _ 0%Q) by lia. simpl. now rewrite IH. }
  rewrite Hrows, Hresp.
  assert (Hk0 : forall A (l : list A), List.length design = 0 ->
                  List.length l = List.length design * p \/
                  List.length l = List.length design -> l = []).
  { intros A l H0 [H|H]; rewrite H0 in H; now destruct l. }
  assert (Hn0 : forall A (l : list A), n = 0 ->
                  List.length l = n * p \/ List.length l = n -> l = []).
  { intros A l H0 [H|H]; rewrite H0 in H; now destruct l. }
  assert (Hnewlen : List.length (List.concat (Rollout.sorted design))
                    = List.length design * p).
  { rewrite (concat_length_rows _ p); [now rewrite sorted_length|].
    apply Forall_forall. intros s Hin. apply sorted_in in Hin.
    destruct (Hdesign s Hin) as [r0 [Hr0 <-]].
    now apply (row_length _ m). }
  destruct (cat_rows (sequences e)
              (mkTensor [List.length design; p] (List.concat (Rollout.sorted design)))
              n (List.length design) [p] Hs eq_refl)
    as [s' [-> [Hs'shape Hs'data]]].
  { intros H0. apply (Hn0 _ _ H0). now left. }
  { intros H0. apply (Hk0 _ _ H0). now left. }
  cbn [rbind]. rewrite Hr.
  destruct (cat_rows r
              (mkTensor [List.length design]
                 (map (fun i => nth i (tdata (Rollout.data_responses data)) 0%Q)
                      (map Z.to_nat idz)))
              n (List.length design) [] Hrs eq_refl)
    as [r' [-> [Hr'shape Hr'data]]].
  { intros H0. apply (Hn0 _ _ H0). now right. }
  { intros H0. apply (Hk0 _ _ H0). right. cbn [tdata].
    now rewrite !List.length_map. }
  cbn [rbind].
  destruct (cat_rows (batch_ids e)
              (mkTensor [List.length design] (repeat 0%Z (List.length design)))
              n (List.length design) [] Hb eq_refl)
    as [b' [-> [Hb'shape Hb'data]]].
  { intros H0. apply (Hn0 _ _ H0). now right. }
  { intros ->. reflexivity. }
  cbn [rbind tdata] in *.
  exists s', r, r', b', (map Z.to_nat idz).
  repeat split; try assumption; try reflexivity.
  clear - Hidz. induction Hidz as [|s i l l' [Hi Hrow] _ IH]; simpl;
    constructor; auto. split; [lia | exact Hrow].
Qed.

Lemma designs_length (design : list (list Z)) (ids : list nat) (t : tensor Z)
    (m p : nat) :
  List.length (tdata t) = m * p ->
  Forall2 (fun s i => i < m /\ row p (tdata t) i = s) (Rollout.sorted design) ids ->
  List.length (List.concat (Rollout.sorted design)) = List.length design * p /\
  List.length ids = List.length design.
Proof.
  intros Hwf Hall. rewrite <- (sorted_length design).
  induction Hall as [|s i l l' [Hi Hrow] _ [IH1 IH2]]; [split; reflexivity|].
  cbn [List.concat List.length]. rewrite List.length_app, IH1, IH2, <- Hrow.
  now rewrite (row_length _ m p i Hwf Hi).
Qed.

Lemma appended_rows_observed
    (e : Experiment) (design : list (list Z)) (data : Rollout.Data) (n m p : nat)
    (s' : tensor Z) (r r' : tensor Q) (b' : tensor Z) (ids : list nat) :
  observed_rows e n p ->
  dataset_rows data m p ->
  responses e = Some r ->
  Forall2 (fun s i => i < m /\
                      row p (tdata (Rollout.data_sequences data)) i = s)
          (Rollout.sorted design) ids ->
  tshape s' = [n + List.length design; p] ->
  tdata s' = tdata (sequences e) ++ List.concat (Rollout.sorted design) ->
  tshape r' = [n + List.length design] ->
  tdata r' = tdata r
             ++ map (fun i => nth i (tdata (Rollout.data_responses data)) 0%Q) ids ->
  tshape b' = [n + List.length design] ->
  tdata b' = tdata (batch_ids e) ++ repeat 0%Z (List.length design) ->
  observed_rows (mkExperiment s' (Some r') b') (n + List.length design) p.
Proof.
  intros He Hd Hr Hids Hss Hsd Hrs Hrd Hbs Hbd.
  destruct He as [Hes [Heswf [Heb [Hebwf [r0 [Hr0 [Hr0s Hr0wf]]]]]]].
  destruct Hd as [Hds [Hdswf _]].
  assert (r0 = r) by congruence. subst r0.
  unfold twf in *. rewrite ?Hes, ?Heb, ?Hr0s, ?Hds in *.
  cbn [numel fold_right] in *. rewrite ?Nat.mul_1_r in *.
  destruct (designs_length design ids _ m p Hdswf Hids) as [Hnew Hlen].
  unfold observed_rows, twf. cbn [sequences responses batch_ids].
  rewrite Hss, Hbs, Hsd, Hbd. cbn [numel fold_right]. rewrite !Nat.mul_1_r.
  split; [reflexivity|]. split; [rewrite List.length_app; lia|].
  split; [reflexivity|].
  split; [rewrite List.length_app, List.repeat_length; lia|].
  exists r'. split; [reflexivity|]. split; [exact Hrs|].
  rewrite Hrs, Hrd. cbn [numel fold_right].
  rewrite List.length_app, !List.length_map. lia.
Qed.

(** X2. When the designs of the batch are rows of the dataset, indexed as
    [main] indexes it, [update_experiment] appends the designs themselves,
    in sorted order, each with the response of a dataset row equal to it,
    and batch id [0]; the result is again an experiment with responses, of
    [n + k] well-formed rows. *)
Theorem update_experiment_appends_sorted_designs
    (e : Experiment) (design : list (list Z)) (data : Rollout.Data) (n m p : nat) :
  observed_rows e n p ->
  dataset_rows data m p ->
  (forall s, In s design ->
     exists r, r < m /\ row p (tdata (Rollout.data_sequences data)) r = s) ->
  exists e' ids r r',
    Rollout.update_experiment e design data = Ok e' /\
    observed_rows e' (n + List.length design) p /\
    tdata (sequences e')
    = tdata (sequences e) ++ List.concat (Rollout.sorted design) /\
    Forall2 (fun s i => i < m /\
                        row p (tdata (Rollout.data_sequences data)) i = s)
            (Rollout.sorted design) ids /\
    responses e = Some r /\ responses e' = Some r' /\
    tdata r' = tdata r
               ++ map (fun i => nth i (tdata (Rollout.data_responses data)) 0%Q) ids /\
    tdata (batch_ids e')
    = tdata (batch_ids e) ++ repeat 0%Z (List.length design).
Proof.
  intros He Hd Hdesign.
  destruct (update_experiment_cat e design data n m p He Hd Hdesign)
    as [s' [r [r' [b' [ids [Hup [Hr [Hids [[Hss Hsd] [[Hrs Hrd] [Hbs Hbd]]]]]]]]]]].
  exists (mkExperiment s' (Some r') b'), ids, r, r'.
  cbn [sequences responses batch_ids].
  split; [exact Hup|].
  split; [|repeat split; assumption || reflexivity].
  exact (appended_rows_observed e design data n m p s' r r' b' ids
           He Hd Hr Hids Hss Hsd Hrs Hrd Hbs Hbd).
Qed.

Lemma toy_dataset_rows : dataset_rows Rollout.toy_data 4 2.
Proof. repeat split. Defined.

Lemma toy_observed_rows : observed_rows Rollout.toy_experiment 1 2.
Proof.
  repeat split. eexists. repeat split.
Defined.

Lemma update_experiment_appends_sorted_designs_witness :
  exists e' ids r r',
    Rollout.update_experiment Rollout.toy_experiment Rollout.toy_design
      Rollout.toy_data = Ok e' /\
    observed_rows e' (1 + 2) 2 /\
    tdata (sequences e')
    = tdata (sequences Rollout.toy_experiment)
      ++ List.concat (Rollout.sorted Rollout.toy_design) /\
    Forall2 (fun s i => i < 4 /\
                        row 2 (tdata (Rollout.data_sequences Rollout.toy_data)) i = s)
            (Rollout.sorted Rollout.toy_design) ids /\
    responses Rollout.toy_experiment = Some r /\ responses e' = Some r' /\
    tdata r' = tdata r
               ++ map (fun i => nth i (tdata (Rollout.data_responses Rollout.toy_data)) 0%Q)
                      ids /\
    tdata (batch_ids e')
    = tdata (batch_ids Rollout.toy_experiment) ++ repeat 0%Z 2.
Proof.
  apply (update_experiment_appends_sorted_designs
           Rollout.toy_experiment Rollout.toy_design Rollout.toy_data 1 4 2
           toy_observed_rows toy_dataset_rows).
  intros s [<-|[<-|[]]]; [exists 3 | exists 0]; (split; [lia | reflexivity]).
Defined.

Lemma mapM_err {A B} (f : A -> result B) (e : exn) (l : list A) :
  (forall x e', In x l -> f x = Err e' -> e' = e) ->
  (exists x, In x l /\ f x = Err e) ->
  mapM f l = Err e.
Proof.
  induction l as [|x l IH]; intros Hall [y [Hin Hy]]; [destruct Hin|].
  cbn [mapM]. destruct (f x) as [v|e'] eqn:E.
  - destruct Hin as [->|Hin]; [congruence|].
    rewrite IH; [reflexivity | | now exists y].
    intros z e'' Hz. apply Hall. now right.
  - f_equal. apply (Hall x); [now left | exact E].
Qed.

(** X3. A design that is no row of the dataset makes [update_experiment]
    raise [KeyError], whatever the other designs of the batch are. *)
Theorem update_experiment_design_outside_dataset
    (e : Experiment) (design : list (list Z)) (data : Rollout.Data)
    (m p : nat) (s : list Z) :
  dataset_rows data m p ->
  In s design ->
  (forall r, r < m -> row p (tdata (Rollout.data_sequences data)) r <> s) ->
  Rollout.update_experiment e design data = Err KeyError.
Proof.
  intros [Hds [_ [_ [_ Hidx]]]] Hin Hout.
  unfold Rollout.update_experiment. rewrite Hidx.
  rewrite (mapM_err _ KeyError); [reflexivity| |].
  - intros x e' _. unfold PyDict.getitem, of_option.
    destruct (PyDict.get _ _ _); congruence.
  - exists s. split; [now apply in_sorted|].
    unfold PyDict.getitem, of_option.
    destruct (PyDict.get Rollout.tuple_eqb s
                (Rollout.make_seq_to_id (Rollout.data_sequences data)))
      as [i|] eqn:E; [|reflexivity].
    destruct (seq_to_id_sound _ m p s i Hds E) as [Hrange Hrow].
    exfalso. apply (Hout (Z.to_nat i)); [lia | exact Hrow].
Qed.

Lemma update_experiment_design_outside_dataset_witness :
  Rollout.update_experiment Rollout.toy_experiment [[1; 1]; [2; 0]]%Z
    Rollout.toy_data = Err KeyError.
Proof.
  apply (update_experiment_design_outside_dataset
           Rollout.toy_experiment [[1; 1]; [2; 0]]%Z Rollout.toy_data 4 2 [2; 0]%Z
           toy_dataset_rows).
  - simpl. auto.
  - intros r Hr.
    destruct r as [|[|[|[|r]]]]; [discriminate..|lia].
Defined.

(** ** The order of the designs *)

Lemma tuple_leb_total (a b : list Z) :
  Rollout.tuple_leb a b = true \/ Rollout.tuple_leb b a = true.
Proof.
  revert b. induction a as [|x a IH]; intros [|y b]; simpl; auto.
  destruct (Z.ltb_spec x y), (Z.ltb_spec y x); auto; lia.
Qed.

Lemma tuple_leb_antisym (a b : list Z) :
  Rollout.tuple_leb a b = true -> Rollout.tuple_leb b a = true -> a = b.
Proof.
  revert b. induction a as [|x a IH]; intros [|y b]; simpl; try discriminate;
    [reflexivity|].
  destruct (Z.ltb_spec x y), (Z.ltb_spec y x); try discriminate; try lia.
  intros H1 H2. f_equal; [lia | now apply IH].
Qed.

Lemma tuple_leb_trans (a b c : list Z) :
  Rollout.tuple_leb a b = true -> Rollout.tuple_leb b c = true ->
  Rollout.tuple_leb a c = true.
Proof.
  revert b c. induction a as [|x a IH]; intros [|y b] [|z c]; simpl;
    try discriminate; try reflexivity.
  destruct (Z.ltb_spec x y), (Z.ltb_spec y x), (Z.ltb_spec y z),
    (Z.ltb_spec z y), (Z.ltb_spec x z), (Z.ltb_spec z x);
    try discriminate; try reflexivity; try lia.
  apply IH.
Qed.

Lemma insert_ascending (x : list Z) (l : list (list Z)) :
  ascending l -> ascending (Rollout.insert x l).
Proof.
  unfold ascending. induction 1 as [|y l Hl IH Hy]; simpl.
  - repeat constructor.
  - destruct (Rollout.tuple_leb x y) eqn:E.
    + constructor; [now constructor|]. constructor; [exact E|].
      rewrite Forall_forall in *. intros z Hz.
      apply (tuple_leb_trans x y z E). now apply Hy.
    + constructor; [exact IH|]. apply Forall_forall. intros z Hz.
      apply insert_in in Hz. destruct Hz as [->|Hz].
      * destruct (tuple_leb_total x y); congruence.
      * rewrite Forall_forall in Hy. now apply Hy.
Qed.

Lemma sorted_ascending (l : list (list Z)) : ascending (Rollout.sorted l).
Proof.
  induction l as [|x l IH]; simpl; [constructor|].
  now apply insert_ascending.
Qed.

Lemma insert_perm (x : list Z) (l : list (list Z)) :
  Permutation (x :: l) (Rollout.insert x l).
Proof.
  induction l as [|y l IH]; simpl; [reflexivity|].
  destruct (Rollout.tuple_leb x y); [reflexivity|].
  rewrite perm_swap. now constructor.
Qed.

Lemma sorted_perm (l : list (list Z)) : Permutation l (Rollout.sorted l).
Proof.
  induction l as [|x l IH]; simpl; [reflexivity|].
  rewrite <- insert_perm. now constructor.
Qed.

Lemma ascending_unique (l1 l2 : list (list Z)) :
  ascending l1 -> ascending l2 -> Permutation l1 l2 -> l1 = l2.
Proof.
  unfold ascending. intros H1. revert l2.
  induction H1 as [|a l1 Hl1 IH Ha]; intros l2 H2 HP.
  - apply Permutation_nil in HP. now subst.
  - destruct H2 as [|b l2 Hl2 Hb].
    + apply Permutation_sym, Permutation_nil in HP. discriminate.
    + assert (a = b).
      { rewrite Forall_forall in Ha, Hb.
        assert (Hab : In a (b :: l2))
          by (apply (Permutation_in _ HP); now left).
        assert (Hba : In b (a :: l1))
          by (apply (Permutation_in _ (Permutation_sym HP)); now left).
        destruct Hab as [->|Hab]; [reflexivity|].
        destruct Hba as [->|Hba]; [reflexivity|].
        apply tuple_leb_antisym; [now apply Ha | now apply Hb]. }
      subst b. f_equal. apply IH; [exact Hl2|].
      now apply Permutation_cons_inv in HP.
Qed.

(** X4. The designs of a batch form a set, which [update_experiment] sorts
    before it looks them up: the result does not depend on the order in
    which the set is enumerated, and its new rows are in ascending order. *)
Theorem update_experiment_ignores_enumeration_order
    (e : Experiment) (d1 d2 : list (list Z)) (data : Rollout.Data) :
  Permutation d1 d2 ->
  Rollout.sorted d1 = Rollout.sorted d2 /\
  ascending (Rollout.sorted d1) /\
  Rollout.update_experiment e d1 data = Rollout.update_experiment e d2 data.
Proof.
  intros HP.
  assert (Hs : Rollout.sorted d1 = Rollout.sorted d2).
  { apply ascending_unique; try apply sorted_ascending.
    rewrite <- (sorted_perm d1), <- (sorted_perm d2). exact HP. }
  split; [exact Hs|]. split; [apply sorted_ascending|].
  unfold Rollout.update_experiment. now rewrite Hs.
Qed.

Lemma update_experiment_ignores_enumeration_order_witness :
  Rollout.sorted [[1; 1]; [0; 0]]%Z = Rollout.sorted [[0; 0]; [1; 1]]%Z /\
  ascending (Rollout.sorted [[1; 1]; [0; 0]]%Z) /\
  Rollout.update_experiment Rollout.toy_experiment [[1; 1]; [0; 0]]%Z Rollout.toy_data
  = Rollout.update_experiment Rollout.toy_experiment [[0; 0]; [1; 1]]%Z Rollout.toy_data.
Proof.
  apply (update_experiment_ignores_enumeration_order
           Rollout.toy_experiment [[1; 1]; [0; 0]]%Z [[0; 0]; [1; 1]]%Z
           Rollout.toy_data).
  apply perm_swap.
Defined.

(** ** The rounds of [main] *)

Lemma qmax_ge_l (a b : Q) : (a <= Driver.qmax a b)%Q.
Proof.
  unfold Driver.qmax. destruct (Qle_bool a b) eqn:E.
  - now apply Qle_bool_iff.
  - apply Qle_refl.
Qed.

Lemma qmax_ge_r (a b : Q) : (b <= Driver.qmax a b)%Q.
Proof.
  unfold Driver.qmax. destruct (Qle_bool a b) eqn:E.
  - apply Qle_refl.
  - apply Qlt_le_weak, Qnot_le_lt. intros H. apply Qle_bool_iff in H. congruence.
Qed.

Lemma fold_qmax_ge (qs : list Q) (q : Q) : (q <= fold_left Driver.qmax qs q)%Q.
Proof.
  revert q. induction qs as [|a qs IH]; intros q; simpl; [apply Qle_refl|].
  eapply Qle_trans; [apply qmax_ge_l | apply IH].
Qed.

Lemma fold_qmax_upper (qs : list Q) (q x : Q) :
  In x qs -> (x <= fold_left Driver.qmax qs q)%Q.
Proof.
  revert q. induction qs as [|a qs IH]; intros q; simpl; [tauto|].
  intros [->|H]; [|now apply IH].
  eapply Qle_trans; [apply qmax_ge_r | apply fold_qmax_ge].
Qed.

Lemma fold_qmax_attained (qs : list Q) (q : Q) :
  In (fold_left Driver.qmax qs q) (q :: qs).
Proof.
  revert q. induction qs as [|a qs IH]; intros q; cbn [fold_left]; [now left|].
  destruct (IH (Driver.qmax q a)) as [H|H]; [|right; now right].
  rewrite <- H. unfold Driver.qmax. destruct (Qle_bool q a); simpl; auto.
Qed.

(** X5. [responses.max()] fails on an empty tensor only; otherwise it
    returns an entry of the tensor that no entry exceeds. *)
Theorem best_response_is_attained_upper_bound (e : Experiment) (r : tensor Q) :
  responses e = Some r ->
  (tdata r = [] -> Driver.best_response e = Err RuntimeError) /\
  (tdata r <> [] ->
   exists q, Driver.best_response e = Ok q /\ In q (tdata r) /\
             forall x, In x (tdata r) -> (x <= q)%Q).
Proof.
  intros Hr. unfold Driver.best_response, Driver.tmaxQ. rewrite Hr.
  destruct (tdata r) as [|q qs]; split; try congruence; intros _.
  exists (fold_left Driver.qmax qs q). split; [reflexivity|].
  split; [apply fold_qmax_attained|].
  intros x [<-|Hx]; [apply fold_qmax_ge | now apply fold_qmax_upper].
Qed.

Lemma best_response_is_attained_upper_bound_witness :
  (tdata (mkTensor [1] [2 # 10]) = [] ->
   Driver.best_response Rollout.toy_experiment = Err RuntimeError) /\
  (tdata (mkTensor [1] [2 # 10]) <> [] ->
   exists q, Driver.best_response Rollout.toy_experiment = Ok q /\
             In q (tdata (mkTensor [1] [2 # 10])) /\
             forall x, In x (tdata (mkTensor [1] [2 # 10])) -> (x <= q)%Q).
Proof.
  apply (best_response_is_attained_upper_bound Rollout.toy_experiment
           (mkTensor [1] [2 # 10])).
  reflexivity.
Defined.

Lemma best_response_grows (e e' : Experiment) (r r' : tensor Q) (extra : list Q)
    (n : nat) :
  responses e = Some r -> responses e' = Some r' ->
  List.length (tdata r) = n -> 0 < n ->
  tdata r' = tdata r ++ extra ->
  exists q q', Driver.best_response e = Ok q /\
               Driver.best_response e' = Ok q' /\ (q <= q')%Q.
Proof.
  intros Hr Hr' Hlen Hn Hd. unfold Driver.best_response, Driver.tmaxQ.
  rewrite Hr, Hr', Hd. destruct (tdata r) as [|q qs]; [simpl in Hlen; lia|].
  cbn [app]. eexists. eexists. split; [reflexivity|]. split; [reflexivity|].
  rewrite fold_left_app. apply fold_qmax_ge.
Qed.

Lemma climbs_sorted (q : Q) (l : list Q) :
  climbs_from q l -> StronglySorted Qle (q :: l).
Proof.
  revert q. induction l as [|x l IH]; intros q; cbn [climbs_from].
  - intros _. repeat constructor.
  - intros [Hqx Hl]. specialize (IH x Hl). constructor; [exact IH|].
    constructor; [exact Hqx|]. apply StronglySorted_inv in IH.
    destruct IH as [_ Hall]. rewrite Forall_forall in *.
    intros y Hy. eapply Qle_trans; [exact Hqx | now apply Hall].
Qed.

Section RolloutFacts.
Variable G : Type.
Variable make_design : Experiment -> G -> list (list Z) * G.
Variable data : Rollout.Data.
Variables m p : nat.
Hypothesis data_ok : dataset_rows data m p.
Hypothesis designs_in_data :
  forall e g s, In s (fst (make_design e g)) ->
    exists r, r < m /\ row p (tdata (Rollout.data_sequences data)) r = s.

Lemma run_batches_climbs (k : nat) :
  forall (init : list Experiment) (current : Experiment) (n : nat) (q : Q) (g : G),
    observed_rows current n p -> 0 < n ->
    Driver.best_response current = Ok q ->
    exists more curve g',
      Driver.run_batches G make_design data k (init ++ [current]) g
      = (Ok (init ++ [current] ++ more), g') /\
      List.length more = k /\
      mapM Driver.best_response more = Ok curve /\
      climbs_from q curve.
Proof.
  induction k as [|k IH]; intros init current n q g Hobs Hn Hq.
  - exists [], [], g. cbn [Driver.run_batches]. rewrite app_nil_r.
    do 3 (split; [reflexivity|]). exact I.
  - cbn [Driver.run_batches]. rewrite rev_app_distr. cbn [rev app].
    destruct (make_design current g) as [design g1] eqn:Hmd.
    destruct (update_experiment_cat current design data n m p Hobs data_ok)
      as [s' [r [r' [b' [ids [Hup [Hr [Hids [[Hss Hsd] [[Hrs Hrd] [Hbs Hbd]]]]]]]]]]].
    { intros s Hs. apply (designs_in_data current g). now rewrite Hmd. }
    rewrite Hup.
    assert (Hobs' : observed_rows (mkExperiment s' (Some r') b')
                      (n + List.length design) p).
    { exact (appended_rows_observed current design data n m p s' r r' b' ids
               Hobs data_ok Hr Hids Hss Hsd Hrs Hrd Hbs Hbd). }
    assert (Hlenr : List.length (tdata r) = n).
    { destruct Hobs as [_ [_ [_ [_ [r0 [Hr0 [Hr0s Hr0wf]]]]]]].
      assert (r0 = r) by congruence. subst r0. unfold twf in Hr0wf.
      rewrite Hr0s in Hr0wf. cbn [numel fold_right] in Hr0wf. lia. }
    destruct (best_response_grows current (mkExperiment s' (Some r') b') r r' _ n
                Hr eq_refl Hlenr Hn Hrd) as [q0 [q' [Hq0 [Hq' Hle]]]].
    assert (q0 = q) by congruence. subst q0. rewrite Hq'.
    rewrite <- app_assoc.
    destruct (IH (init ++ [current]) (mkExperiment s' (Some r') b')
                 (n + List.length design) q' g1 Hobs' ltac:(lia) Hq')
      as [more [curve [g' [Hrun [Hlen [Hcurve Hclimb]]]]]].
    rewrite <- !app_assoc in Hrun. cbn [app] in Hrun.
    exists (mkExperiment s' (Some r') b' :: more), (q' :: curve), g'.
    split; [exact Hrun|]. split; [simpl; now rewrite Hlen|].
    split; [cbn [mapM]; now rewrite Hq', Hcurve|].
    split; assumption.
Qed.

End RolloutFacts.


(** ** Observed responses (models.py, lines 146-175) *)

Lemma round_half_even_integer (x : Q) (k : Z) :
  (x == inject_Z k)%Q -> round_half_even x = inject_Z k.
Proof.
  intros Hx. unfold round_half_even.
  rewrite (Qfloor_comp _ _ Hx), Qfloor_Z. cbv zeta.
  assert (Hlt : (x - inject_Z k < 1 # 2)%Q).
  { rewrite Hx. unfold Qminus. rewrite Qplus_opp_r. reflexivity. }
  now rewrite (proj1 (Qlt_alt _ _) Hlt).
Qed.

Lemma round_half_even_range (x : Q) (b : Z) :
  (0 <= x)%Q -> (x <= inject_Z b)%Q -> is_count b (round_half_even x).
Proof.
  intros H0 Hb.
  assert (Hf0 : (0 <= Qfloor x)%Z).
  { change 0%Z with (Qfloor (inject_Z 0)). now apply Qfloor_resp_le. }
  assert (Hfb : (Qfloor x <= b)%Z).
  { rewrite <- (Qfloor_Z b). now apply Qfloor_resp_le. }
  assert (Hup : (Qfloor x = b -> (x - inject_Z (Qfloor x) ?= 1 # 2)%Q = Lt)).
  { intros ->. apply (proj1 (Qlt_alt _ _)). apply Qle_lt_trans with (y := 0%Q); [|reflexivity].
    apply (Qplus_le_l _ _ (inject_Z b)). unfold Qminus.
    rewrite <- Qplus_assoc, (Qplus_comm (- inject_Z b)), Qplus_opp_r.
    now rewrite Qplus_0_r, Qplus_0_l. }
  unfold round_half_even. cbv zeta.
  destruct (x - inject_Z (Qfloor x) ?= 1 # 2)%Q eqn:E.
  - destruct (Z.even (Qfloor x)).
    + exists (Qfloor x). split; [reflexivity | lia].
    + exists (Qfloor x + 1)%Z. split; [reflexivity|].
      destruct (Z.eq_dec (Qfloor x) b) as [Heq|Hne]; [|lia].
      specialize (Hup Heq). congruence.
  - exists (Qfloor x). split; [reflexivity | lia].
  - exists (Qfloor x + 1)%Z. split; [reflexivity|].
    destruct (Z.eq_dec (Qfloor x) b) as [Heq|Hne]; [|lia].
    specialize (Hup Heq). congruence.
Qed.

Lemma requantize (bins k : Z) :
  (0 < bins)%Z ->
  round_half_even (inject_Z k / inject_Z bins * inject_Z bins)%Q = inject_Z k.
Proof.
  intros Hb. apply round_half_even_integer.
  rewrite Qmult_comm. apply Qmult_div_r.
  unfold Qeq, inject_Z. simpl. lia.
Qed.

Section ObservedResponses.
Variable RNG : Type.
Variable draw : RNG -> Dist -> list nat -> tensor Q * RNG.
Variable validate : Schema -> Experiment -> result unit.

Lemma plate_ok (size : Z) (st st' : MState RNG) (n : nat) :
  plate RNG size st = (st', Ok n) ->
  st' = st /\ (0 < size)%Z /\ n = Z.to_nat size.
Proof.
  unfold plate. destruct (Z.eqb_spec size 0); [discriminate|].
  destruct (Z.ltb_spec size 0); [discriminate|].
  intros [= <- <-]. repeat split. lia.
Qed.

Lemma sample_observed plate name d (v v' : tensor Q) (st st' : MState RNG) :
  sample RNG draw plate name d (Some v) st = (st', Ok v') ->
  v' = v /\ rng st' = rng st /\
  trace st' = trace st ++ [mkSite name (Some d) v true].
Proof.
  unfold sample. destruct (plate_shape plate d); [|discriminate].
  destruct (visited name st); [discriminate|].
  intros [= <- <-]. auto.
Qed.

Lemma likelihood_observed N rt bins e r loc scale (st st' : MState RNG) (u : unit) :
  responses e = Some r ->
  likelihood RNG draw N rt bins e loc scale st = (st', Ok u) ->
  (rt = "real"%string /\ rng st' = rng st /\
   trace st' = trace st ++ [mkSite "responses" (Some (Normal loc scale)) r true]) \/
  (rt = "unit_interval"%string /\
   exists logits,
     trace st'
     = trace st ++
       [mkSite "logits" (Some (Normal loc scale)) logits false;
        mkSite "quantized_response" (Some (Binomial bins logits))
          (tmap (fun x => round_half_even (x * inject_Z bins)%Q) r) true]).
Proof.
  intros Hr. unfold likelihood. rewrite Hr. intros H.
  apply bind_ok in H. destruct H as [s0 [n [Hplate H]]].
  apply plate_ok in Hplate. destruct Hplate as [-> _].
  destruct (String.eqb rt "real") eqn:Ereal.
  - apply String.eqb_eq in Ereal. left.
    apply bind_ok in H. destruct H as [s1 [v [Hs H]]].
    injection H as <- _. apply sample_observed in Hs. tauto.
  - destruct (String.eqb rt "unit_interval") eqn:Eunit; [|discriminate].
    apply String.eqb_eq in Eunit. right. split; [exact Eunit|].
    apply bind_ok in H. destruct H as [s1 [logits [Hl H]]].
    apply bind_ok in H. destruct H as [s2 [q [Hq H]]].
    injection H as <- _.
    apply sample_draws in Hl. destruct Hl as [shape [_ [_ Hl]]].
    cbn [option_map] in Hq. apply sample_observed in Hq.
    destruct Hq as [_ [_ Hq]].
    exists logits. rewrite Hq, Hl, <- app_assoc. reflexivity.
Qed.

(** X7. When the experiment carries responses, the model conditions on
    them at its last site and nowhere else: every earlier site is a latent
    draw.  Under ["real"] the last site is ["responses"], a [Normal]
    observed at the given responses; under ["unit_interval"] it is
    ["quantized_response"], a [Binomial] over the given number of bins,
    observed at a tensor of the shape of the responses, and no site named
    ["responses"] is recorded. *)
Theorem model_conditions_on_responses_at_its_last_site
    schema fb extra e mb rt bins (r : tensor Q) (st st' : MState RNG)
    (coefs : Coefs) :
  responses e = Some r ->
  model RNG draw validate schema fb extra e mb rt bins st = (st', Ok coefs) ->
  exists latent last,
    trace st' = trace st ++ latent ++ [last] /\
    Forall latent_site latent /\
    s_observed last = true /\
    ((rt = "real"%string /\ s_name last = "responses"%string /\
      (exists loc scale, s_dist last = Some (Normal loc scale)) /\
      s_value last = r) \/
     (rt = "unit_interval"%string /\
      s_name last = "quantized_response"%string /\
      (exists logits, s_dist last = Some (Binomial bins logits)) /\
      tshape (s_value last) = tshape r /\
      Forall (not_named "responses") latent)).
Proof.
  intros Hr H. unfold model in H.
  apply bind_ok in H. destruct H as [s0 [[N B] [Hc H]]].
  apply lift_ok in Hc. destruct Hc as [-> _].
  apply bind_ok in H. destruct H as [s1 [coefs1 [Hs H]]].
  apply bind_ok in H. destruct H as [s2 [loc [Hloc H]]].
  apply lift_ok in Hloc. destruct Hloc as [-> _].
  apply bind_ok in H. destruct H as [s3 [ls [Hb H]]].
  apply bind_ok in H. destruct H as [s4 [u [Hlik H]]].
  injection H as <- _.
  destruct (sample_coefs_latent RNG draw schema fb extra _ _ _ Hs) as [n1 [E1 F1]].
  destruct (batch_effect_latent RNG draw B loc (batch_ids e) _ _ _ Hb) as [n2 [E2 F2]].
  destruct (sample_coefs_no_responses RNG draw schema fb extra _ _ _ Hs) as [n1' [E1' G1]].
  destruct (batch_effect_no_responses RNG draw B loc (batch_ids e) _ _ _ Hb)
    as [n2' [E2' G2]].
  assert (n1' = n1) by (rewrite E1 in E1'; now apply app_inv_head in E1').
  assert (n2' = n2) by (rewrite E2 in E2'; now apply app_inv_head in E2').
  subst n1' n2'.
  destruct (likelihood_observed _ _ _ _ _ _ _ _ _ _ Hr Hlik)
    as [[Hrt [_ Htr]]|[Hrt [logits Htr]]].
  - exists (n1 ++ n2), (mkSite "responses" (Some (Normal (fst ls) (snd ls))) r true).
    rewrite Htr, E2, E1, <- !app_assoc. split; [reflexivity|].
    split; [apply Forall_app; auto|]. split; [reflexivity|]. left.
    cbn [s_name s_dist s_value]. eauto 6.
  - exists (n1 ++ n2 ++ [mkSite "logits" (Some (Normal (fst ls) (snd ls))) logits false]),
      (mkSite "quantized_response" (Some (Binomial bins logits))
         (tmap (fun x => round_half_even (x * inject_Z bins)%Q) r) true).
    rewrite Htr, E2, E1, <- !app_assoc. split; [reflexivity|].
    split.
    { repeat (apply Forall_app; split); auto.
      constructor; [|constructor]. split; simpl; [reflexivity | discriminate]. }
    split; [reflexivity|]. right. cbn [s_name s_dist s_value].
    split; [exact Hrt|]. split; [reflexivity|]. split; [eauto|].
    split; [reflexivity|].
    repeat (apply Forall_app; split); auto.
    constructor; [|constructor]. unfold not_named. simpl. discriminate.
Qed.

(** X8. Under ["unit_interval"], responses that lie in the unit interval
    are observed as whole counts between [0] and the number of bins, the
    support of the [Binomial] they are scored by. *)
Theorem quantized_observations_are_counts
    N bins e (r loc scale : tensor Q) (st st' : MState RNG) (u : unit) :
  responses e = Some r ->
  (0 <= bins)%Z ->
  Forall in_unit_interval (tdata r) ->
  likelihood RNG draw N "unit_interval" bins e loc scale st = (st', Ok u) ->
  exists before logits observed,
    trace st'
    = before ++ [mkSite "quantized_response" (Some (Binomial bins logits))
                   observed true] /\
    tshape observed = tshape r /\
    Forall (is_count bins) (tdata observed).
Proof.
  intros Hr Hbins Hunit H.
  destruct (likelihood_observed _ _ _ _ _ _ _ _ _ _ Hr H)
    as [[Hrt _]|[_ [logits Htr]]]; [discriminate|].
  exists (trace st ++ [mkSite "logits" (Some (Normal loc scale)) logits false]),
    logits, (tmap (fun x => round_half_even (x * inject_Z bins)%Q) r).
  split; [now rewrite Htr, <- app_assoc|]. split; [reflexivity|].
  cbn [tmap tdata]. apply Forall_map.
  apply Forall_impl with (2 := Hunit). intros x [H0 H1].
  assert (Hb : (0 <= inject_Z bins)%Q).
  { change 0%Q with (inject_Z 0). rewrite <- Zle_Qle. exact Hbins. }
  apply round_half_even_range.
  - now apply Qmult_le_0_compat.
  - rewrite <- (Qmult_1_l (inject_Z bins)) at 2.
    now apply Qmult_le_compat_r.
Qed.

End ObservedResponses.

Lemma model_conditions_on_responses_at_its_last_site_witness :
  exists st' coefs latent last,
    Example.run Example.feature_blocks None Example.experiment None
      "unit_interval" 100 = (st', Ok coefs) /\
    trace st' = trace Example.start ++ latent ++ [last] /\
    Forall latent_site latent /\
    s_observed last = true /\
    s_name last = "quantized_response"%string.
Proof.
  destruct (Example.run Example.feature_blocks None Example.experiment None
              "unit_interval" 100) as [st' [coefs|err]] eqn:E;
    [|vm_compute in E; discriminate E].
  destruct (model_conditions_on_responses_at_its_last_site
              (list Q) draw_tape validate_spec Example.schema
              Example.feature_blocks None Example.experiment None
              "unit_interval" 100%Z _ Example.start st' coefs eq_refl E)
    as [latent [last [Htr [Hlat [Hobs [[Hrt _]|[_ [Hname _]]]]]]]];
    [discriminate Hrt|].
  exists st', coefs, latent, last. auto.
Defined.

Lemma quantized_observations_are_counts_witness :
  exists st' before logits observed,
    likelihood (list Q) draw_tape 3 "unit_interval" 100 Example.experiment
      (zeros [3]) (scalar 1%Q) Example.start = (st', Ok tt) /\
    trace st'
    = before ++ [mkSite "quantized_response" (Some (Binomial 100 logits))
                   observed true] /\
    tshape observed = [3] /\
    Forall (is_count 100) (tdata observed).
Proof.
  destruct (likelihood (list Q) draw_tape 3 "unit_interval" 100 Example.experiment
              (zeros [3]) (scalar 1%Q) Example.start) as [st' [[]|err]] eqn:E;
    [|vm_compute in E; discriminate E].
  destruct (quantized_observations_are_counts
              (list Q) draw_tape 3 100%Z Example.experiment
              (mkTensor [3] [1 # 10; 9 # 10; 1 # 2]) (zeros [3]) (scalar 1%Q)
              Example.start st' tt eq_refl)
    as [before [logits [observed H]]].
  - lia.
  - repeat constructor; unfold Qle; simpl; lia.
  - exact E.
  - exists st', before, logits, observed. split; [reflexivity | exact H].
Defined.


(** ** The feature blocks of the example (rollout_tf8.py, lines 43-49) *)

Lemma in_skipn {A} (n : nat) (l : list A) (x : A) : In x (skipn n l) -> In x l.
Proof.
  revert l. induction n as [|n IH]; intros [|a l]; simpl; auto.
Qed.

Lemma window_names (schema : Schema) (b : list string) (name : string) :
  In b (Driver.singletons schema ++ Driver.pairs schema ++ Driver.triples schema) ->
  In name b -> In name (PyDict.keys schema).
Proof.
  unfold Driver.singletons, Driver.pairs, Driver.triples.
  rewrite !in_app_iff, !in_map_iff.
  intros [[k [<- Hk]]|[[[k1 k2] [<- Hk]]|[[[k1 k2] k3] [<- Hk]]]] Hn; cbn [fst snd] in *.
  - destruct Hn as [<-|[]]. exact Hk.
  - pose proof (in_combine_l _ _ _ _ Hk) as H1.
    pose proof (in_combine_r _ _ _ _ Hk) as H2. apply in_skipn in H2.
    destruct Hn as [<-|[<-|[]]]; assumption.
  - pose proof (in_combine_l _ _ _ _ Hk) as H12.
    pose proof (in_combine_r _ _ _ _ Hk) as H3. apply in_skipn in H3.
    pose proof (in_combine_l _ _ _ _ H12) as H1.
    pose proof (in_combine_r _ _ _ _ H12) as H2. apply in_skipn in H2.
    destruct Hn as [<-|[<-|[<-|[]]]]; assumption.
Qed.

Lemma window_nonempty (schema : Schema) (b : list string) :
  In b (Driver.singletons schema ++ Driver.pairs schema ++ Driver.triples schema) ->
  1 <= List.length b <= 3.
Proof.
  unfold Driver.singletons, Driver.pairs, Driver.triples.
  rewrite !in_app_iff, !in_map_iff.
  intros [[k [<- _]]|[[k [<- _]]|[k [<- _]]]]; simpl; lia.
Qed.

(** X10. The blocks that the example builds from a schema are its windows
    of one, two and three consecutive variables: a schema of [P] variables
    has [P] singletons, [P - 1] pairs and [P - 2] triples.  They name
    variables of the schema only, so on a trace that holds none of their
    sites the model samples a coefficient tensor for each of a list of
    distinct windows, with one axis per variable of the window, of the size
    of that variable's domain, and records the sites under
    [coef_site_names]. *)
Theorem window_blocks_get_coefficients
    (RNG : Type) (draw : RNG -> Dist -> list nat -> tensor Q * RNG)
    (schema : Schema) (fb : list (list string)) (st : MState RNG) :
  sampler_ok draw ->
  incl fb (Driver.singletons schema ++ Driver.pairs schema ++ Driver.triples schema) ->
  NoDup fb ->
  fresh_for (coef_site_names schema fb None) st ->
  (List.length (Driver.singletons schema) = List.length schema /\
   List.length (Driver.pairs schema) = List.length schema - 1 /\
   List.length (Driver.triples schema) = List.length schema - 2) /\
  exists st' coefs,
    sample_coefs RNG draw schema fb None st = (st', Ok coefs) /\
    map s_name (trace st')
    = map s_name (trace st) ++ coef_site_names schema fb None /\
    forall b, In b fb ->
      1 <= List.length b <= 3 /\
      exists coef,
        PyDict.get key_eqb (Some b) coefs = Some coef /\
        mapO (dom_size schema) b = Some (tshape coef).
Proof.
  intros Hok Hfb Hnd Hfresh. split.
  - unfold Driver.singletons, Driver.pairs, Driver.triples, PyDict.keys.
    rewrite !List.length_map, !length_combine, !List.length_skipn, !List.length_map.
    lia.
  - destruct (sample_coefs_total RNG draw Hok schema fb None st)
      as [st' [coefs [Hrun Hnames]]].
    + intros b name Hb Hn. apply (window_names schema b name); auto.
    + discriminate.
    + constructor; [|exact Hnd]. intros Hin.
      pose proof (window_nonempty schema [] (Hfb [] Hin)) as Hlen.
      cbn [List.length] in Hlen. lia.
    + exact Hfresh.
    + exists st', coefs. split; [exact Hrun|]. split; [exact Hnames|].
      intros b Hb. split.
      * exact (window_nonempty schema b (Hfb b Hb)).
      * apply (sample_coefs_shaped RNG draw Hok schema fb None st st' coefs Hrun).
        now right.
Qed.

Lemma window_blocks_get_coefficients_witness :
  (List.length (Driver.singletons Driver.SCHEMA) = 8 /\
   List.length (Driver.pairs Driver.SCHEMA) = 8 - 1 /\
   List.length (Driver.triples Driver.SCHEMA) = 8 - 2) /\
  exists st' coefs,
    sample_coefs (list Q) draw_tape Driver.SCHEMA Driver.PAIRWISE_BLOCKS None
      Example.start = (st', Ok coefs) /\
    map s_name (trace st')
    = map s_name (trace Example.start)
      ++ coef_site_names Driver.SCHEMA Driver.PAIRWISE_BLOCKS None /\
    forall b, In b Driver.PAIRWISE_BLOCKS ->
      1 <= List.length b <= 3 /\
      exists coef,
        PyDict.get key_eqb (Some b) coefs = Some coef /\
        mapO (dom_size Driver.SCHEMA) b = Some (tshape coef).
Proof.
  apply (window_blocks_get_coefficients (list Q) draw_tape Driver.SCHEMA
           Driver.PAIRWISE_BLOCKS Example.start draw_tape_ok).
  - unfold Driver.PAIRWISE_BLOCKS. intros b Hb.
    rewrite app_assoc. apply in_or_app. now left.
  - assert (H : nodup (list_eq_dec string_dec) Driver.PAIRWISE_BLOCKS
                = Driver.PAIRWISE_BLOCKS) by (vm_compute; reflexivity).
    rewrite <- H. apply NoDup_nodup.
  - intros name _ [].
Defined.

(** ** Sites with different numbers of draws (inference.py, [Sampler]) *)

Lemma index_by_scalar_error (v : tensor Q) (z : Z) (e : exn) :
  index_tuple v [scalar z] = Err e -> e = IndexError.
Proof.
  unfold index_tuple, block. cbn [tshape scalar numel fold_right seq mapM map nth tdata].
  destruct (tshape v) as [|n rest]; cbn [ravel]; [now intros [= <-]|].
  unfold norm_index.
  destruct ((0 <=? z)%Z && (z <? Z.of_nat n)%Z); [discriminate|].
  destruct ((- Z.of_nat n <=? z)%Z && (z <? 0)%Z); [discriminate|].
  now intros [= <-].
Qed.

Lemma index_past_the_end (v : tensor Q) (m i : nat) :
  tlen v = Ok m -> m <= i -> index_tuple v [scalar (Z.of_nat i)] = Err IndexError.
Proof.
  unfold tlen. destruct v as [[|n rest] dt]; cbn [tshape]; [discriminate|].
  intros [= ->] Hi. unfold index_tuple, block.
  cbn [tshape scalar numel fold_right seq mapM map nth tdata ravel].
  unfold norm_index.
  replace ((0 <=? Z.of_nat i)%Z && (Z.of_nat i <? Z.of_nat m)%Z) with false
    by (symmetry; apply andb_false_iff; right; apply Z.ltb_ge; lia).
  replace ((- Z.of_nat m <=? Z.of_nat i)%Z && (Z.of_nat i <? 0)%Z) with false
    by (symmetry; apply andb_false_iff; right; apply Z.ltb_ge; lia).
  reflexivity.
Qed.

(** X11. A [Sampler] takes its number of draws from the first site alone
    and compares it with no other site: when some site holds fewer draws,
    [m < n], the call still has [n] outcomes, and every outcome [i] with
    [m <= i] raises [IndexError] instead of returning an assignment. *)
Theorem sampler_trusts_the_first_site
    (k0 k : string) (v0 v : tensor Q) (rest : list (string * tensor Q))
    (n m : nat) :
  tlen v0 = Ok n ->
  In (k, v) rest -> tlen v = Ok m -> m < n ->
  exists s outcomes,
    Sampler.init ((k0, v0) :: rest) = Ok s /\
    Sampler.num_samples s = n /\
    Sampler.call s = Ok outcomes /\
    List.length outcomes = n /\
    forall i, m <= i < n -> nth_error outcomes i = Some (Err IndexError, s).
Proof.
  intros Hv0 Hin Hv Hm.
  exists (Sampler.mk ((k0, v0) :: rest) n).
  exists (map (fun i => (Sampler.assignment (Sampler.mk ((k0, v0) :: rest) n) i,
                         Sampler.mk ((k0, v0) :: rest) n))
              (map (fun j => (0 + Z.of_nat j)%Z) (seq 0 n))).
  split; [unfold Sampler.init; cbn [PyDict.values map snd]; now rewrite Hv0|].
  split; [reflexivity|]. split.
  { unfold Sampler.call, randint. cbn [Sampler.num_samples].
    replace (0 <? Z.of_nat n)%Z with true by (symmetry; apply Z.ltb_lt; lia).
    now rewrite Z.sub_0_r, Nat2Z.id. }
  split; [now rewrite !List.length_map, List.length_seq|].
  intros i Hi. rewrite map_map.
  rewrite (nth_error_map _ i (seq 0 n)).
  replace (nth_error (seq 0 n) i) with (Some i).
  2:{ symmetry. rewrite nth_error_nth' with (d := 0) by (rewrite List.length_seq; lia).
      now rewrite seq_nth by lia. }
  cbn [option_map]. f_equal. f_equal. rewrite Z.add_0_l.
  unfold Sampler.assignment. cbn [Sampler.samples].
  apply mapM_err.
  - intros [k1 v1] e _. cbn [snd fst].
    destruct (index_tuple v1 [scalar (Z.of_nat i)]) eqn:E; [discriminate|].
    intros [= <-]. now apply index_by_scalar_error in E.
  - exists (k, v). split; [now right|]. cbn [snd fst].
    rewrite (index_past_the_end v m i Hv); [reflexivity | lia].
Qed.

Lemma sampler_trusts_the_first_site_witness :
  exists s outcomes,
    Sampler.init [("a"%string, mkTensor [3] [1; 2; 3]%Q);
                  ("b"%string, mkTensor [2] [4; 5]%Q)] = Ok s /\
    Sampler.num_samples s = 3 /\
    Sampler.call s = Ok outcomes /\
    List.length outcomes = 3 /\
    forall i, 2 <= i < 3 -> nth_error outcomes i = Some (Err IndexError, s).
Proof.
  apply (sampler_trusts_the_first_site "a" "b" (mkTensor [3] [1; 2; 3]%Q)
           (mkTensor [2] [4; 5]%Q) [("b"%string, mkTensor [2] [4; 5]%Q)] 3 2).
  - reflexivity.
  - now left.
  - reflexivity.
  - lia.
Defined.

(** ** The learning rate during the fit (inference.py, [fit_svi]) *)

Module SVISchedule.
Import Reals Lra.
Import SVI.
Local Open Scope R_scope.

Lemma decay_between_0_and_1 (n : Z) :
  (0 < n)%Z -> 0 < Rpower (1 / 10) (1 / IZR n) < 1.
Proof.
  intros Hn. split; [unfold Rpower; apply exp_pos|].
  assert (Hn' : 0 < IZR n) by (apply IZR_lt; exact Hn).
  unfold Rpower.
  apply Rlt_le_trans with (r2 := exp 0); [|rewrite exp_0; lra].
  apply exp_increasing.
  assert (Hln : ln (1 / 10) < 0).
  { rewrite <- ln_1. apply ln_increasing; lra. }
  assert (Hinv : 0 < 1 / IZR n).
  { unfold Rdiv. rewrite Rmult_1_l. now apply Rinv_0_lt_compat. }
  assert (Hprod : 0 < 1 / IZR n * - ln (1 / 10))
    by (apply Rmult_lt_0_compat; lra).
  rewrite Ropp_mult_distr_r_reverse in Hprod. lra.
Qed.

Lemma pow_decreases (x : R) (k : nat) : 0 < x < 1 -> x ^ S k < x ^ k.
Proof.
  intros [H0 H1]. cbn [pow].
  assert (Hk : 0 < x ^ k) by (apply pow_lt; exact H0).
  nra.
Qed.

Lemma pow_antitone (x : R) (k n : nat) :
  0 < x < 1 -> (k <= n)%nat -> x ^ n <= x ^ k.
Proof.
  intros Hx. induction 1 as [|n Hle IH]; [lra|].
  pose proof (pow_decreases x n Hx). lra.
Qed.

Lemma recorded_rates (n : nat) (lr0 lrd : R) :
  forall (done : nat) (rates : list R),
    scheduled_updates unit unit (list R) unit recording_update n done false tt tt
      lr0 lrd (mkPyro (list R) unit rates tt)
    = mkPyro (list R) unit
        (rates ++ map (fun k => lr0 * lrd ^ k) (seq (S done) n)) tt.
Proof.
  induction n as [|n IH]; intros done rates.
  - cbn [scheduled_updates seq map]. now rewrite app_nil_r.
  - cbn [scheduled_updates seq map recording_update param_store rng].
    rewrite IH, <- app_assoc. reflexivity.
Qed.

Lemma rates_of_fit_schedule (lr0 : R) (num_steps : Z) :
  (0 < num_steps)%Z ->
  rates_of_fit lr0 num_steps
  = Ok (map (fun k => lr0 * Rpower (1 / 10) (1 / IZR num_steps) ^ k)
          (seq 1 (Z.to_nat num_steps))).
Proof.
  intros Hn. unfold rates_of_fit.
  rewrite (SVIFacts.fit_svi_scheduled unit unit (list R) unit [] (fun _ ps => (tt, ps))
             recording_update tt lr0 num_steps None (mkPyro (list R) unit [] tt))
    by lia.
  cbn [fst snd rng]. now rewrite recorded_rates.
Qed.


Section Fit.
Variables Model Guide Params RNG : Type.
Variable empty_params : Params.
Variable AutoLowRankMultivariateNormal : Model -> Params -> Guide * Params.
Variable elbo_update :
  bool -> Model -> Guide -> R -> Params -> RNG -> R * Params * RNG.

(** X13. A negative number of steps is not refused: [fit_svi] takes no
    step, consumes no randomness, and returns the guide with the parameter
    store as the construction of the guide left it. *)
Theorem fit_svi_with_negative_steps_returns_untrained_guide
    (model : Model) (lr0 : R) (num_steps : Z) (jit_compile : option bool)
    (p : Pyro Params RNG) :
  (num_steps < 0)%Z ->
  fit_svi Model Guide Params RNG empty_params AutoLowRankMultivariateNormal
    elbo_update model lr0 num_steps jit_compile p
  = (mkPyro Params RNG (snd (AutoLowRankMultivariateNormal model empty_params))
       (rng Params RNG p),
     Ok (fst (AutoLowRankMultivariateNormal model empty_params))).
Proof.
  intros Hn. unfold fit_svi, clear_param_store, make_optim.
  cbn [param_store rng].
  destruct (AutoLowRankMultivariateNormal model empty_params) as [guide params].
  replace (num_steps =? 0)%Z with false by (symmetry; apply Z.eqb_neq; lia).
  replace (Z.to_nat num_steps) with 0%nat by lia.
  reflexivity.
Qed.
End Fit.


Lemma fit_svi_with_negative_steps_returns_untrained_guide_witness :
  fit_svi unit unit bool unit false (fun _ ps => (tt, ps))
    (fun _ _ _ _ ps g => (0, ps, g)) tt (1 / 100) (-5) None
    (mkPyro bool unit true tt)
  = (mkPyro bool unit false tt, Ok tt).
Proof.
  apply (fit_svi_with_negative_steps_returns_untrained_guide unit unit bool unit
           false (fun _ ps => (tt, ps)) (fun _ _ _ _ ps g => (0, ps, g)) tt
           (1 / 100) (-5)%Z None (mkPyro bool unit true tt)).
  lia.
Defined.
End SVISchedule.

(** ** The linear response of a batch of designs (models.py, lines 11-56) *)

Lemma nth_error_nth_lt {A} (l : list A) (k : nat) (d : A) :
  k < List.length l -> nth_error l k = Some (nth k l d).
Proof.
  intros H. destruct (nth_error l k) as [a|] eqn:E.
  - now rewrite (nth_error_nth _ _ d E).
  - apply nth_error_None in E. lia.
Qed.

Lemma nth_map_seq {B} (g : nat -> B) (n k : nat) (d : B) :
  k < n -> nth k (map g (seq 0 n)) d = g k.
Proof.
  intros H. rewrite (nth_indep _ d (g 0)) by (now rewrite List.length_map, List.length_seq).
  now rewrite map_nth, seq_nth.
Qed.

Lemma operand_lookup (n : nat) (t : tensor Q) (shape : list nat) (k : nat) :
  per_row n t ->
  shape = [n] \/ (shape = [] /\ tshape t = []) ->
  k < numel shape ->
  nth_error (tdata t) (operand_offset (rev (tshape t)) (unravel_rev (rev shape) k))
  = Some (entry t k).
Proof.
  intros [Hs Hwf] Hshape Hk. unfold twf in Hwf. unfold entry.
  destruct Hs as [Hs|Hs]; rewrite Hs in *; cbn [rev app numel fold_right] in *.
  - replace (operand_offset [] (unravel_rev (rev shape) k)) with 0
      by (now destruct (unravel_rev (rev shape) k)).
    apply nth_error_nth_lt. lia.
  - destruct Hshape as [->|[_ Hnil]]; [|discriminate].
    cbn [rev app numel fold_right unravel_rev operand_offset] in *.
    rewrite Nat.mul_1_r in *.
    assert (Hoff : (if n =? 1 then 0 else k mod n) + n * 0 = k).
    { rewrite Nat.mul_0_r, Nat.add_0_r. destruct (Nat.eqb_spec n 1); [lia|].
      now apply Nat.mod_small. }
    rewrite Hoff. apply nth_error_nth_lt. lia.
Qed.

Lemma tadd_rows (n : nat) (t1 t2 : tensor Q) :
  per_row n t1 -> per_row n t2 ->
  exists out,
    tadd t1 t2 = Ok out /\ per_row n out /\
    (tshape t1 = [] -> tshape t2 = [] -> tshape out = []) /\
    forall r, r < n -> entry out r = (entry t1 r + entry t2 r)%Q.
Proof.
  intros H1 H2.
  assert (Hshape : exists shape,
             broadcast_shapes (tshape t1) (tshape t2) = Ok shape /\
             (shape = [n] \/ (shape = [] /\ tshape t1 = [] /\ tshape t2 = []))).
  { destruct H1 as [[E1|E1] _], H2 as [[E2|E2] _]; rewrite E1, E2;
      unfold broadcast_shapes; cbn [rev app broadcast_rev];
      rewrite ?Nat.eqb_refl; cbn [rev app]; eauto 6. }
  destruct Hshape as [shape [Hb Hshape]].
  set (g := fun k => (entry t1 k + entry t2 k)%Q).
  exists (mkTensor shape (map g (seq 0 (numel shape)))).
  split.
  { unfold tadd, broadcast2. rewrite Hb.
    rewrite (mapM_map_ok _ g); [reflexivity|].
    intros k Hk. apply in_seq in Hk. cbv zeta.
    rewrite (operand_lookup n t1 shape k H1), (operand_lookup n t2 shape k H2);
      try lia; tauto. }
  split.
  { split; [cbn [tshape]; tauto|].
    unfold twf. cbn [tshape tdata]. now rewrite List.length_map, List.length_seq. }
  split.
  { intros E1 E2. cbn [tshape].
    destruct Hshape as [->|[-> _]]; [|reflexivity].
    revert Hb. rewrite E1, E2. unfold broadcast_shapes. cbn. now intros [= <-]. }
  intros r Hr. unfold entry at 1. cbn [tshape tdata].
  destruct Hshape as [->|[-> [E1 E2]]].
  - cbn [numel fold_right]. rewrite Nat.mul_1_r. now rewrite nth_map_seq.
  - cbn [numel fold_right seq map nth]. unfold g, entry. now rewrite E1, E2.
Qed.

Lemma single_response (schema : Schema) (coefs : Coefs) (d : list Z)
    (extra : option (tensor Q)) (terms : list Q) :
  NoDup (PyDict.keys schema) ->
  List.length d = List.length schema ->
  coefs_fit schema coefs -> extra_fit coefs extra ->
  Forall2 (fun item q => contribution schema coefs d extra item = Some q)
          coefs terms ->
  linear_response schema coefs (design_tensor d) extra
  = Ok (scalar (fold_left Qplus terms 0%Q)).
Proof.
  intros Hnd Hlen Hcoefs Hextra Hterms. unfold linear_response.
  unfold size_last, design_tensor at 1. cbn [tshape rev app rbind].
  rewrite Hlen, Nat.eqb_refl. cbn [assert rbind].
  assert (Hasserts :
    (match extra with
     | None => assert (negb (PyDict.mem key_eqb None coefs))
     | Some ef =>
         (assert (PyDict.mem key_eqb None coefs) ;;;
          cN <- PyDict.getitem key_eqb None coefs ;;
          assert (tdim cN =? 1) ;;;
          assert (shape_eqb (tshape ef)
                    (shape_init (tshape (design_tensor d)) ++ tshape cN)))%res
     end = Ok tt) /\
    Bool.eqb (is_some extra) (PyDict.mem key_eqb None coefs) = true).
  { unfold extra_fit in Hextra. unfold PyDict.mem, PyDict.getitem.
    destruct extra as [ef|], (PyDict.get key_eqb None coefs) as [cN|];
      try contradiction; [|split; reflexivity].
    destruct Hextra as [f [Hc [He _]]].
    cbn [of_option rbind assert negb is_some Bool.eqb]. unfold tdim.
    rewrite Hc, He. simpl. rewrite Nat.eqb_refl. split; reflexivity. }
  destruct Hasserts as [-> ->]. cbn [assert rbind].
  rewrite unbind_last_design. cbn [rbind].
  rewrite (of_pairs_nodup String.eqb String.eqb_eq).
  - apply response_loop; auto. apply incl_refl.
  - unfold PyDict.keys in *. rewrite map_fst_combine; [exact Hnd|].
    now rewrite !List.length_map.
Qed.

Lemma position_defined (schema : Schema) (name : string) (n : nat) :
  dom_size schema name = Some n ->
  exists j, position schema name = Some j /\ j < List.length schema.
Proof.
  unfold dom_size, position, PyDict.keys.
  assert (Hgen : forall a,
             PyDict.get String.eqb name schema <> None ->
             exists j,
               PyDict.get String.eqb name
                 (combine (map fst schema) (seq a (List.length schema))) = Some j /\
               a <= j < a + List.length schema).
  { induction schema as [|[k dom] sch IH]; intros a; cbn; [congruence|].
    destruct (String.eqb name k).
    - intros _. exists a. split; [reflexivity | lia].
    - intros H. destruct (IH (S a) H) as [j [Hj Hr]]. exists j. split; [exact Hj | lia]. }
  intros H. destruct (Hgen 0) as [j [Hj Hr]].
  - destruct (PyDict.get String.eqb name schema); [discriminate | discriminate H].
  - exists j. split; [exact Hj | lia].
Qed.

Lemma index_tuple_rows (N : nat) (coef : tensor Q) (index : list (tensor Z))
    (q : nat -> Q) :
  index <> [] ->
  Forall (fun t => tshape t = [N]) index ->
  List.length index = List.length (tshape coef) ->
  (forall r, r < N ->
     coef_at coef (map (fun t => nth r (tdata t) 0%Z) index) = Some (q r)) ->
  index_tuple coef index = Ok (mkTensor [N] (map q (seq 0 N))).
Proof.
  intros Hne Hshape Hlen Hq. unfold index_tuple.
  destruct index as [|i0 index']; [congruence|].
  inversion Hshape as [|? ? Hi0 _]; subst. rewrite Hi0.
  cbn [numel fold_right]. rewrite Nat.mul_1_r.
  rewrite (mapM_map_ok _ (fun r => scalar (q r))).
  - rewrite Hlen, skipn_all. cbn [app]. do 2 f_equal.
    rewrite map_map. cbn [scalar tdata].
    induction (seq 0 N) as [|r l IHl]; simpl; [reflexivity | now rewrite IHl].
  - intros r Hr. apply in_seq in Hr. specialize (Hq r ltac:(lia)).
    unfold coef_at in Hq. unfold block.
    destruct (ravel (tshape coef) _ 0) as [[off rest]|]; [|discriminate].
    destruct rest; [|discriminate].
    cbn [numel fold_right]. unfold scalar. f_equal. f_equal.
    assert (Hoff : off < List.length (tdata coef)).
    { apply nth_error_Some. congruence. }
    rewrite (row_one _ _ 0%Q Hoff). f_equal.
    rewrite (nth_error_nth_lt _ _ 0%Q Hoff) in Hq. congruence.
Qed.

Section Batched.
Variable schema : Schema.
Variable coefs : Coefs.
Variable seqs : tensor Z.
Variable extra : option (tensor Q).
Variables N P : nat.
Hypothesis keys_nodup : NoDup (PyDict.keys schema).
Hypothesis seqs_shape : tshape seqs = [N; P].
Hypothesis seqs_wf : twf seqs.
Hypothesis width : P = List.length schema.
Hypothesis rows_fit :
  forall r, r < N -> design_fits schema (row P (tdata seqs) r).
Hypothesis blocks_fit : coefs_fit schema coefs.
Hypothesis extras_ok : extras_fit N coefs extra.

Lemma unbind_rows :
  unbind_last seqs = Ok (map (column P N (tdata seqs)) (seq 0 P)).
Proof.
  unfold unbind_last, column. rewrite seqs_shape.
  cbn [rev app shape_init removelast numel fold_right].
  now rewrite Nat.mul_1_r.
Qed.

Lemma batch_choices :
  PyDict.of_pairs String.eqb
    (combine (PyDict.keys schema) (map (column P N (tdata seqs)) (seq 0 P)))
  = combine (PyDict.keys schema) (map (column P N (tdata seqs)) (seq 0 P)).
Proof.
  apply (of_pairs_nodup String.eqb String.eqb_eq).
  unfold PyDict.keys in *. rewrite map_fst_combine; [exact keys_nodup|].
  rewrite !List.length_map, List.length_seq. now symmetry.
Qed.

Lemma design_row_length (r : nat) :
  r < N -> List.length (row P (tdata seqs) r) = P.
Proof.
  intros Hr. apply (row_length _ N); [|exact Hr].
  unfold twf in seqs_wf. rewrite seqs_shape in seqs_wf.
  cbn [numel fold_right] in seqs_wf. lia.
Qed.

Lemma category_position (r : nat) (name : string) :
  r < N ->
  category schema (row P (tdata seqs) r) name
  = option_map (fun j => nth j (row P (tdata seqs) r) 0%Z) (position schema name).
Proof.
  intros Hr. unfold category, position.
  rewrite <- (get_combine_map String.eqb), <- width.
  rewrite <- (design_row_length r Hr) at 2.
  now rewrite (map_nth_seq (fun z => z)), map_id.
Qed.

Lemma choice_position (name : string) :
  PyDict.getitem String.eqb name
    (combine (PyDict.keys schema) (map (column P N (tdata seqs)) (seq 0 P)))
  = of_option KeyError
      (option_map (column P N (tdata seqs)) (position schema name)).
Proof.
  unfold PyDict.getitem, position.
  now rewrite (get_combine_map String.eqb), width.
Qed.

Lemma batch_index (names : list string) (shape : list nat) :
  mapO (dom_size schema) names = Some shape ->
  exists index,
    mapM (fun name =>
            PyDict.getitem String.eqb name
              (combine (PyDict.keys schema)
                 (map (column P N (tdata seqs)) (seq 0 P)))) names = Ok index /\
    List.length index = List.length names /\
    Forall (fun t => tshape t = [N]) index /\
    forall r, r < N ->
      mapO (category schema (row P (tdata seqs) r)) names
      = Some (map (fun t => nth r (tdata t) 0%Z) index).
Proof.
  revert shape. induction names as [|name names IH]; intros shape; cbn [mapO mapM].
  - intros _. exists []. repeat split; auto.
  - destruct (dom_size schema name) as [n|] eqn:Hn; [|discriminate].
    destruct (mapO (dom_size schema) names) as [shape'|]; [|discriminate].
    intros _. destruct (IH _ eq_refl) as [index [Hidx [Hlen [Hshape Hcat]]]].
    destruct (position_defined _ _ _ Hn) as [j [Hj Hjlt]].
    exists (column P N (tdata seqs) j :: index).
    rewrite choice_position, Hj, Hidx. cbn [option_map of_option].
    split; [reflexivity|]. split; [simpl; now rewrite Hlen|].
    split; [constructor; [reflexivity | exact Hshape]|].
    intros r Hr. rewrite (category_position r name Hr), Hj, (Hcat r Hr).
    cbn [option_map map column tdata]. now rewrite nth_map_seq.
Qed.

Lemma term_defined (r : nat) (item : Key * tensor Q) :
  r < N -> In item coefs ->
  contribution schema coefs (row P (tdata seqs) r) (extra_row extra r) item
  = Some (term schema coefs (row P (tdata seqs) r) (extra_row extra r) item).
Proof.
  intros Hr Hin. unfold term.
  destruct item as [[names|] coef].
  - destruct (blocks_fit _ _ Hin) as [Hwf Hshape].
    destruct (block_contribution_defined schema coefs (row P (tdata seqs) r)
                (extra_row extra r) names coef (rows_fit r Hr) Hwf Hshape) as [q Hq].
    unfold Key in *. now rewrite Hq.
  - assert (Hmem : PyDict.get key_eqb None coefs <> None).
    { apply (get_keys key_eqb key_eqb_eq). apply in_map_iff. now exists (None, coef). }
    unfold extras_fit in extras_ok. unfold contribution. cbn [fst].
    destruct extra as [ef|], (PyDict.get key_eqb None coefs) as [cN|];
      try contradiction; try congruence.
    reflexivity.
Qed.

Lemma row_extra_fit (r : nat) : r < N -> extra_fit coefs (extra_row extra r).
Proof.
  intros Hr. unfold extras_fit in extras_ok. unfold extra_fit, extra_row.
  destruct extra as [ef|], (PyDict.get key_eqb None coefs) as [cN|];
    cbn [option_map]; try contradiction; [|exact I].
  destruct extras_ok as [f [He [Hewf [Hc Hcwf]]]].
  exists f. unfold nth_sample. rewrite He. cbn [tl tshape numel fold_right].
  repeat split; auto.
  unfold twf in *. cbn [tshape tdata numel fold_right]. rewrite He in Hewf.
  cbn [numel fold_right] in Hewf.
  apply (row_length _ N); [lia | exact Hr].
Qed.

Lemma batch_step (acc : tensor Q) (item : Key * tensor Q) :
  per_row N acc -> In item coefs ->
  exists out,
    response_step coefs
      (combine (PyDict.keys schema) (map (column P N (tdata seqs)) (seq 0 P)))
      extra acc item = Ok out /\
    per_row N out /\
    forall r, r < N ->
      entry out r
      = (entry acc r
         + term schema coefs (row P (tdata seqs) r) (extra_row extra r) item)%Q.
Proof.
  intros Hacc Hin.
  assert (Hadd : forall t,
             per_row N t ->
             (forall r, r < N ->
                entry t r
                = term schema coefs (row P (tdata seqs) r) (extra_row extra r) item) ->
             exists out,
               tadd acc t = Ok out /\ per_row N out /\
               forall r, r < N ->
                 entry out r
                 = (entry acc r
                    + term schema coefs (row P (tdata seqs) r) (extra_row extra r)
                        item)%Q).
  { intros t Ht Hterm. destruct (tadd_rows N acc t Hacc Ht) as [out [Ho [Hp [_ He]]]].
    exists out. split; [exact Ho|]. split; [exact Hp|].
    intros r Hr. now rewrite (He r Hr), (Hterm r Hr). }
  destruct item as [[names|] coef]; unfold response_step.
  - destruct (blocks_fit _ _ Hin) as [Hwf Hshape].
    pose proof (mapO_length _ _ _ Hshape) as Hdim.
    unfold tdim. rewrite Hdim, Nat.eqb_refl. cbn [assert rbind].
    destruct (batch_index names _ Hshape) as [index [-> [Hlen [Hidx Hcat]]]].
    cbn [rbind].
    assert (Hq : forall r, r < N ->
               coef_at coef (map (fun t => nth r (tdata t) 0%Z) index)
               = Some (term schema coefs (row P (tdata seqs) r) (extra_row extra r)
                         (Some names, coef))).
    { intros r Hr. pose proof (term_defined r _ Hr Hin) as Ht.
      unfold contribution in Ht at 1. cbn [fst snd] in Ht.
      rewrite (Hcat r Hr) in Ht. exact Ht. }
    destruct names as [|name names].
    + destruct index; [|discriminate]. cbn [index_tuple rbind].
      cbn [mapO] in Hshape. injection Hshape as Hshape.
      apply Hadd; [split; [left; now symmetry | exact Hwf]|].
      intros r Hr. specialize (Hq r Hr). cbn [map] in Hq.
      unfold coef_at in Hq. rewrite <- Hshape in Hq. cbn [ravel] in Hq.
      unfold entry. rewrite <- Hshape.
      unfold twf in Hwf. rewrite <- Hshape in Hwf. cbn [numel fold_right] in Hwf.
      rewrite (nth_error_nth_lt _ _ 0%Q) in Hq by lia.
      injection Hq as Hq. exact Hq.
    + rewrite (index_tuple_rows N coef index _ ltac:(destruct index; discriminate)
                 Hidx ltac:(congruence) Hq).
      cbn [rbind]. apply Hadd.
      * split; [right; reflexivity|]. unfold twf. cbn [tshape tdata numel fold_right].
        rewrite List.length_map, List.length_seq. lia.
      * intros r Hr. unfold entry. cbn [tshape tdata]. now rewrite nth_map_seq.
  - assert (Hmem : PyDict.get key_eqb None coefs <> None).
    { apply (get_keys key_eqb key_eqb_eq). apply in_map_iff. now exists (None, coef). }
    pose proof extras_ok as Hfit. unfold extras_fit in Hfit.
    unfold PyDict.getitem.
    destruct extra as [ef|] eqn:Hextra, (PyDict.get key_eqb None coefs) as [cN|] eqn:HcN;
      try contradiction; try congruence.
    destruct Hfit as [f [He [Hewf [Hc Hcwf]]]].
    cbn [of_option rbind]. unfold matvec. rewrite He, Hc.
    cbn [rev app shape_init removelast numel fold_right]. rewrite Nat.eqb_refl.
    rewrite Nat.mul_1_r. cbn [rbind]. apply Hadd.
    + split; [right; reflexivity|]. unfold twf. cbn [tshape tdata numel fold_right].
      rewrite List.length_map, List.length_seq. lia.
    + intros r Hr. unfold entry. cbn [tshape tdata]. rewrite nth_map_seq by exact Hr.
      unfold term, contribution, extra_row. cbn [fst option_map]. rewrite HcN.
      unfold nth_sample. rewrite He. cbn [tl tdata numel fold_right].
      now rewrite Nat.mul_1_r.
Qed.

Lemma batch_loop (l : list (Key * tensor Q)) :
  incl l coefs ->
  forall acc, per_row N acc ->
    exists out,
      foldM (response_step coefs
               (combine (PyDict.keys schema)
                  (map (column P N (tdata seqs)) (seq 0 P))) extra) l acc = Ok out /\
      per_row N out /\
      forall r, r < N ->
        entry out r
        = fold_left Qplus
            (map (term schema coefs (row P (tdata seqs) r) (extra_row extra r)) l)
            (entry acc r).
Proof.
  induction l as [|item l IH]; intros Hincl acc Hacc; cbn [foldM map fold_left].
  - exists acc. auto.
  - destruct (batch_step acc item Hacc (Hincl item (or_introl eq_refl)))
      as [acc' [-> [Hacc' Hentry]]].
    destruct (IH (fun x Hx => Hincl x (or_intror Hx)) acc' Hacc')
      as [out [Hout [Hp He]]].
    exists out. split; [exact Hout|]. split; [exact Hp|].
    intros r Hr. now rewrite (He r Hr), (Hentry r Hr).
Qed.

Lemma batch_response_defined :
  exists out,
    linear_response schema coefs seqs extra = Ok out /\
    per_row N out /\
    forall r, r < N ->
      entry out r
      = fold_left Qplus
          (map (term schema coefs (row P (tdata seqs) r) (extra_row extra r)) coefs)
          0%Q.
Proof.
  destruct (batch_loop coefs (incl_refl _) (scalar 0%Q)) as [out [Hout [Hp He]]].
  { split; [now left | reflexivity]. }
  exists out. split; [|split; [exact Hp | exact He]].
  unfold linear_response, size_last. rewrite seqs_shape.
  cbn [rev app rbind]. rewrite width, Nat.eqb_refl. cbn [assert rbind].
  pose proof extras_ok as Hfit. unfold extras_fit in Hfit.
  unfold PyDict.mem, PyDict.getitem.
  destruct extra as [ef|] eqn:Hextra, (PyDict.get key_eqb None coefs) as [cN|] eqn:HcN;
    try contradiction.
  - destruct Hfit as [f [Hef [_ [Hc _]]]].
    cbn [of_option assert rbind is_some Bool.eqb]. unfold tdim.
    rewrite Hc, Hef. cbn [List.length Nat.eqb assert rbind].
    rewrite <- width.
    cbn [shape_init removelast app shape_eqb list_eqb].
    rewrite !Nat.eqb_refl. cbn [andb assert rbind].
    rewrite <- Hextra, unbind_rows. cbn [rbind].
    rewrite batch_choices. subst extra. exact Hout.
  - cbn [negb assert rbind is_some Bool.eqb].
    rewrite <- Hextra, unbind_rows. cbn [rbind].
    rewrite batch_choices. subst extra. exact Hout.
Qed.

(** X14. The linear response of a batch: called on [N] designs at once (a
    matrix of category indices, with a matrix of extra features when there
    are any), [linear_response] returns, for valid data, one value per
    design, or a single value that broadcasts when the coefficients hold
    constant terms only, and the value for the design [r] is the linear
    response of that design taken alone, with its own row of extra
    features. *)
Theorem batched_linear_response_is_rowwise :
  exists out,
    linear_response schema coefs seqs extra = Ok out /\
    per_row N out /\
    forall r, r < N ->
      linear_response schema coefs (design_tensor (row P (tdata seqs) r))
        (extra_row extra r)
      = Ok (scalar (entry out r)).
Proof.
  destruct batch_response_defined as [out [Hout [Hp He]]].
  exists out. split; [exact Hout|]. split; [exact Hp|].
  intros r Hr. rewrite (He r Hr).
  apply single_response; auto.
  - eapply Forall2_length. exact (rows_fit r Hr).
  - apply row_extra_fit; exact Hr.
  - clear - Hr blocks_fit extras_ok rows_fit.
    assert (Hall : forall l, incl l coefs ->
              Forall2 (fun item q =>
                         contribution schema coefs (row P (tdata seqs) r)
                           (extra_row extra r) item = Some q)
                      l (map (term schema coefs (row P (tdata seqs) r)
                                (extra_row extra r)) l)).
    { induction l as [|item l IH]; intros Hincl; cbn [map]; constructor.
      - apply term_defined; [exact Hr | apply Hincl; now left].
      - apply IH. intros x Hx. apply Hincl. now right. }
    apply Hall, incl_refl.
Qed.
End Batched.

Lemma batched_linear_response_is_rowwise_witness :
  exists out,
    linear_response Example.schema Example.coefs (sequences Example.experiment)
      (Some (mkTensor [3; 2] [1; 1; 2; 0; 0; 3]%Q)) = Ok out /\
    per_row 3 out /\
    forall r, r < 3 ->
      linear_response Example.schema Example.coefs
        (design_tensor (row 2 (tdata (sequences Example.experiment)) r))
        (extra_row (Some (mkTensor [3; 2] [1; 1; 2; 0; 0; 3]%Q)) r)
      = Ok (scalar (entry out r)).
Proof.
  apply (batched_linear_response_is_rowwise Example.schema Example.coefs
           (sequences Example.experiment)
           (Some (mkTensor [3; 2] [1; 1; 2; 0; 0; 3]%Q)) 3 2).
  - repeat constructor; simpl; intuition discriminate.
  - reflexivity.
  - reflexivity.
  - reflexivity.
  - intros r Hr. destruct r as [|[|[|r]]]; [| | |lia];
      repeat constructor; simpl; lia.
  - exact example_coefs_fit.
  - exists 2. repeat split.
Defined.

(** ** Runs of the model on valid data (models.py, lines 59-177) *)

Lemma in_set {K V} (eqb : K -> K -> bool) (k : K) (v : V) (d : list (K * V))
    (kv : K * V) :
  (forall a b, eqb a b = true <-> a = b) ->
  In kv (PyDict.set eqb k v d) -> kv = (k, v) \/ In kv d.
Proof.
  intros eqb_eq. induction d as [|[k' v'] d IH]; cbn [PyDict.set].
  - intros [<-|[]]. now left.
  - destruct (eqb k k') eqn:E.
    + apply eqb_eq in E. subst k'. intros [<-|H]; [now left | right; now right].
    + intros [<-|H]; [right; now left|].
      destruct (IH H); [now left | right; now right].
Qed.

Lemma mapM_length {A B} (f : A -> result B) (l : list A) (ys : list B) :
  mapM f l = Ok ys -> List.length ys = List.length l.
Proof.
  revert ys. induction l as [|x l IH]; intros ys; cbn [mapM].
  - now intros [= <-].
  - destruct (f x); [|discriminate]. destruct (mapM f l); [|discriminate].
    intros [= <-]. simpl. f_equal. now apply IH.
Qed.

Lemma broadcast2_wf {A B C} (f : A -> B -> C) (t1 : tensor A) (t2 : tensor B)
    (v : tensor C) :
  broadcast2 f t1 t2 = Ok v -> twf v.
Proof.
  unfold broadcast2. destruct (broadcast_shapes (tshape t1) (tshape t2)); [|discriminate].
  match goal with
  | |- context [mapM ?g ?l] => destruct (mapM g l) as [es|] eqn:E; [|discriminate]
  end.
  intros [= <-]. unfold twf. cbn [tshape tdata].
  apply mapM_length in E. now rewrite E, List.length_seq.
Qed.

Lemma draw_value_wf (d : Dist) (shape : list nat) (eps : tensor Q) :
  twf eps -> twf (draw_value d shape eps).
Proof.
  intros He. induction d as [loc scale|loc scale|n logits|n d IH|v];
    cbn [draw_value]; try exact IH.
  - destruct (broadcast2 Qmult scale eps) as [t|]; cbn [rbind]; [|exact He].
    destruct (tadd loc t) as [v|] eqn:E; [|exact He].
    destruct (shape_eqb (tshape v) shape); [|exact He].
    exact (broadcast2_wf _ _ _ _ E).
  - unfold twf, tmap in *. cbn [tshape tdata]. now rewrite List.length_map.
  - unfold twf, tmap in *. cbn [tshape tdata]. now rewrite List.length_map.
  - destruct (shape_eqb (tshape v) shape); cbn [andb]; [|exact He].
    destruct (twfb v) eqn:E; [|exact He].
    unfold twfb in E. now apply Nat.eqb_eq in E.
Qed.

Lemma draw_tape_wf : sampler_wf draw_tape.
Proof.
  intros g d shape. unfold draw_tape, take_tape. cbn [fst].
  apply draw_value_wf. unfold twf. cbn [tshape tdata].
  rewrite List.length_firstn, List.length_app, List.repeat_length. lia.
Qed.

Lemma fresh_step (name : string) (tr : list Site) (s : Site) :
  ~ In name (map s_name tr) -> s_name s <> name ->
  ~ In name (map s_name (tr ++ [s])).
Proof.
  intros Htr Hs. rewrite map_app, in_app_iff. cbn [map In]. intuition.
Qed.

Lemma response_name_not_coef (schema : Schema) (fb : list (list string))
    (extra : option (tensor Q)) (name : string) :
  In name response_site_names -> ~ In name (coef_site_names schema fb extra).
Proof.
  intros Hr Hc. apply coef_site_name_start in Hc. destruct Hc as [t ->].
  cbn [response_site_names In append] in Hr.
  repeat (destruct Hr as [Hr|Hr]; [discriminate Hr|]). exact Hr.
Qed.

Section ModelRuns.
Variable RNG : Type.
Variable draw : RNG -> Dist -> list nat -> tensor Q * RNG.
Variable validate : Schema -> Experiment -> result unit.
Hypothesis draw_ok : sampler_ok draw.
Hypothesis draw_wf : sampler_wf draw.

Lemma bind_assoc {A B C} (m : M RNG A) (k1 : A -> M RNG B) (k2 : B -> M RNG C)
    (st : MState RNG) :
  bind RNG (bind RNG m k1) k2 st = bind RNG m (fun a => bind RNG (k1 a) k2) st.
Proof.
  unfold bind. destruct (m st) as [s [a|e]]; reflexivity.
Qed.

Ltac fresh_name Hfresh :=
  repeat (match goal with
          | H : trace ?s = _ |- ~ In _ (map s_name (trace ?s)) => rewrite H
          end; apply fresh_step; [|cbn [s_name]; discriminate]);
  apply Hfresh; cbn [In]; tauto.

Lemma sample_drawn plate name d shape (st : MState RNG) :
  plate_shape plate d = Ok shape ->
  ~ In name (map s_name (trace st)) ->
  exists st' v,
    sample RNG draw plate name d None st = (st', Ok v) /\
    tshape v = shape /\ twf v /\
    trace st' = trace st ++ [mkSite name (Some d) v false].
Proof.
  intros Hp Hnew. unfold sample. rewrite Hp.
  destruct (draw (rng st) d shape) as [v g] eqn:E.
  rewrite (proj2 (visited_false RNG name st) Hnew).
  exists (mkMState (trace st ++ [mkSite name (Some d) v false]) g), v.
  pose proof (proj1 (draw_ok (rng st) d shape)) as Hs.
  pose proof (draw_wf (rng st) d shape) as Hw.
  rewrite E in Hs, Hw. cbn [fst] in *. auto.
Qed.

Lemma sample_wf plate name d (st st' : MState RNG) (v : tensor Q) :
  sample RNG draw plate name d None st = (st', Ok v) -> twf v.
Proof.
  intros H. apply sample_draws in H. destruct H as [shape [_ [-> _]]].
  apply draw_wf.
Qed.

Lemma sample_block_fit schema loc scale coefs block (st st' : MState RNG) coefs' :
  tshape loc = [] -> tshape scale = [] ->
  sample_block RNG draw schema loc scale coefs block st = (st', Ok coefs') ->
  coefs_fit schema coefs -> PyDict.get key_eqb None coefs = None ->
  coefs_fit schema coefs' /\ PyDict.get key_eqb None coefs' = None.
Proof.
  intros Hloc Hscale H Hfit Hnone.
  destruct (sample_block_shape RNG draw draw_ok schema loc scale coefs block
              st st' coefs' Hloc Hscale H) as [coef [-> Hshape]].
  assert (Hwf : twf coef).
  { unfold sample_block in H.
    apply bind_ok in H. destruct H as [s0 [shape [_ H]]].
    apply bind_ok in H. destruct H as [s1 [ps [_ H]]].
    apply bind_ok in H. destruct H as [s2 [cs [_ H]]].
    apply bind_ok in H. destruct H as [s3 [c [Hc H]]].
    injection H as _ Heq. apply sample_wf in Hc.
    assert (Hsame : Some c = Some coef).
    { rewrite <- (get_set_same key_eqb key_eqb_eq (Some block) c coefs), Heq.
      apply (get_set_same key_eqb key_eqb_eq). }
    now injection Hsame as <-. }
  split.
  - intros names c Hin. apply (in_set key_eqb _ _ _ _ key_eqb_eq) in Hin.
    destruct Hin as [Heq|Hin]; [|now apply Hfit].
    injection Heq as -> ->. auto.
  - rewrite (get_set_other key_eqb key_eqb_eq) by discriminate. exact Hnone.
Qed.

Lemma blocks_loop_fit schema loc scale (l : list (list string)) :
  tshape loc = [] -> tshape scale = [] ->
  forall coefs (st st' : MState RNG) coefs',
    foldMM RNG (sample_block RNG draw schema loc scale) l coefs st
    = (st', Ok coefs') ->
    coefs_fit schema coefs -> PyDict.get key_eqb None coefs = None ->
    coefs_fit schema coefs' /\ PyDict.get key_eqb None coefs' = None.
Proof.
  intros Hloc Hscale. induction l as [|block l IH]; intros coefs st st' coefs' H Hfit Hnone.
  - injection H as _ <-. auto.
  - cbn [foldMM] in H. apply bind_ok in H. destruct H as [s1 [coefs1 [Hstep H]]].
    destruct (sample_block_fit _ _ _ _ _ _ _ _ Hloc Hscale Hstep Hfit Hnone)
      as [Hfit1 Hnone1].
    exact (IH _ _ _ _ H Hfit1 Hnone1).
Qed.

Lemma sample_coefs_fit schema fb extra (N : nat) (st st' : MState RNG)
    (coefs : Coefs) :
  features_fit N extra ->
  sample_coefs RNG draw schema fb extra st = (st', Ok coefs) ->
  coefs_fit schema coefs /\ extras_fit N coefs extra.
Proof.
  intros Hextra H. unfold sample_coefs in H.
  apply bind_ok in H. destruct H as [s1 [loc [Hloc H]]].
  apply bind_ok in H. destruct H as [s2 [scale [Hscale H]]].
  apply bind_ok in H. destruct H as [s3 [coefs0 [Hloop H]]].
  assert (Hl : tshape loc = [])
    by (eapply (draw_shape RNG draw draw_ok); [exact Hloc | reflexivity]).
  assert (Hs : tshape scale = [])
    by (eapply (draw_shape RNG draw draw_ok); [exact Hscale | reflexivity]).
  destruct (blocks_loop_fit schema loc scale _ Hl Hs _ _ _ _ Hloop) as [Hfit Hnone].
  { intros names c []. }
  { reflexivity. }
  unfold extras_fit. destruct extra as [ef|].
  - destruct (Hextra ef eq_refl) as [f [Hef Hefwf]].
    apply bind_ok in H. destruct H as [s4 [cs [Hcs H]]].
    apply bind_ok in H. destruct H as [s5 [c [Hc H]]].
    injection H as _ <-.
    assert (Hcss : tshape cs = []).
    { eapply (draw_shape RNG draw draw_ok); [exact Hcs|]. simpl. now rewrite Hl, Hs. }
    assert (Hcshape : tshape c = [f]).
    { eapply (draw_shape RNG draw draw_ok); [exact Hc|].
      rewrite Hef. cbn [List.length Nat.sub skipn dist_shape zeros tshape].
      rewrite Hcss, broadcast_shapes_nil_r. reflexivity. }
    split.
    + intros names c' Hin. apply (in_set key_eqb _ _ _ _ key_eqb_eq) in Hin.
      destruct Hin as [Heq|Hin]; [discriminate | now apply Hfit].
    + rewrite (get_set_same key_eqb key_eqb_eq).
      exists f. repeat split; auto. eapply sample_wf. exact Hc.
  - injection H as _ <-. rewrite Hnone. auto.
Qed.

Lemma fold_max_upper (zs : list Z) (z x : Z) :
  In x (z :: zs) -> (x <= fold_left Z.max zs z)%Z.
Proof.
  revert z x. induction zs as [|a zs IH]; intros z x; cbn [fold_left].
  - intros [<-|[]]. lia.
  - pose proof (IH (Z.max z a) (Z.max z a) (or_introl eq_refl)) as Hmax.
    intros [<-|[<-|H]]; [lia | lia |].
    apply IH. now right.
Qed.

Lemma model_checks_ok schema extra e mb (N : nat) :
  experiment_fits schema e N -> 0 < N ->
  features_fit N extra -> bounds_batch_ids mb e ->
  validate schema e = Ok tt ->
  exists B,
    model_checks validate schema extra e mb = Ok (N, B) /\
    (1 <= B)%Z /\
    Forall (fun b => (0 <= b < B)%Z) (tdata (batch_ids e)).
Proof.
  intros [Hs [_ [_ [Hb [Hbwf Hnn]]]]] HN Hextra Hmb Hval.
  unfold twf in Hbwf. rewrite Hb in Hbwf. cbn [numel fold_right] in Hbwf.
  assert (Hmax : exists m,
             match mb with
             | None => tmax (batch_ids e)
             | Some m => Ok m
             end = Ok m /\
             Forall (fun b => (b <= m)%Z) (tdata (batch_ids e))).
  { destruct mb as [m|]; [exists m; split; [reflexivity | now apply Hmb]|].
    unfold tmax. destruct (tdata (batch_ids e)) as [|z zs] eqn:E;
      [simpl in Hbwf; lia|].
    eexists. split; [reflexivity|]. apply Forall_forall. intros x Hx.
    now apply fold_max_upper. }
  destruct Hmax as [m [Hm Hle]].
  exists (1 + m)%Z. unfold model_checks. rewrite Hm. cbn [rbind].
  unfold size0 at 1. rewrite Hs. cbn [rbind]. rewrite Hval. cbn [rbind].
  assert (Hfeat : match extra with
                  | Some ef =>
                      (assert (tdim ef =? 2) ;;;
                       n0 <- size0 ef ;;
                       assert (n0 =? N))%res
                  | None => Ok tt
                  end = Ok tt).
  { destruct extra as [ef|]; [|reflexivity].
    destruct (Hextra ef eq_refl) as [f [Hef _]].
    unfold tdim, size0. rewrite Hef. cbn [List.length Nat.eqb assert rbind].
    now rewrite Nat.eqb_refl. }
  rewrite Hfeat. cbn [rbind]. split; [reflexivity|].
  assert (Hall : Forall (fun b => (0 <= b < 1 + m)%Z) (tdata (batch_ids e))).
  { rewrite Forall_forall in *. intros x Hx.
    specialize (Hnn x Hx). specialize (Hle x Hx). lia. }
  split; [|exact Hall].
  destruct (tdata (batch_ids e)) as [|z zs]; [simpl in Hbwf; lia|].
  inversion Hall; subst. lia.
Qed.

Lemma batch_effect_rows (B : Z) (loc : tensor Q) (ids : tensor Z) (N : nat)
    (st : MState RNG) :
  (1 <= B)%Z -> per_row N loc ->
  tshape ids = [N] -> twf ids ->
  Forall (fun b => (0 <= b < B)%Z) (tdata ids) ->
  fresh_for ["within_batch_scale"; "across_batch_scale"; "batch_response"]%string st ->
  exists st' wloc wscale,
    batch_effect RNG draw B loc ids st = (st', Ok (wloc, wscale)) /\
    per_row N wloc /\ tshape wscale = [] /\
    (B = 1%Z -> wloc = loc) /\
    (B <> 1%Z ->
     exists s1 s2 across shifts,
       trace st'
       = trace st ++
         [s1; s2;
          mkSite "batch_response" (Some (Normal (scalar 0%Q) across)) shifts false] /\
       s_name s1 = "within_batch_scale"%string /\
       s_name s2 = "across_batch_scale"%string /\
       tshape shifts = [Z.to_nat B] /\
       forall r, r < N ->
         entry wloc r
         = (entry loc r
            + nth (Z.to_nat (nth r (tdata ids) 0%Z)) (tdata shifts) 0%Q)%Q).
Proof.
  intros HB Hloc Hids Hidswf Hrange Hfresh. unfold fresh_for in Hfresh.
  unfold batch_effect.
  destruct (sample_drawn None "within_batch_scale"
              (LogNormal (scalar 0%Q) (scalar 1%Q)) [] st eq_refl)
    as [s1 [wscale [Hw [Hwshape [_ Htr1]]]]]; [fresh_name Hfresh|].
  rewrite (bind_step RNG _ _ st s1 wscale Hw).
  destruct (Z.eqb_spec B 1) as [->|Hne].
  - exists s1, loc, wscale. unfold bind, ret.
    split; [reflexivity|]. split; [exact Hloc|]. split; [exact Hwshape|].
    split; [reflexivity | congruence].
  - destruct (sample_drawn None "across_batch_scale"
                (LogNormal (scalar 0%Q) (scalar 1%Q)) [] s1 eq_refl)
      as [s2 [across [Ha [Hashape [_ Htr2]]]]]; [fresh_name Hfresh|].
    assert (Hplate : plate RNG B s2 = (s2, Ok (Z.to_nat B))).
    { unfold plate. destruct (Z.eqb_spec B 0); [lia|].
      destruct (Z.ltb_spec B 0); [lia | reflexivity]. }
    destruct (sample_drawn (Some (Z.to_nat B)) "batch_response"
                (Normal (scalar 0%Q) across) [Z.to_nat B] s2)
      as [s3 [shifts [Hbr [Hbshape [Hbwf Htr3]]]]].
    { unfold plate_shape. cbn [dist_shape scalar tshape]. now rewrite Hashape. }
    { fresh_name Hfresh. }
    set (q := fun r => nth (Z.to_nat (nth r (tdata ids) 0%Z)) (tdata shifts) 0%Q).
    assert (Hlen : List.length (tdata ids) = N).
    { unfold twf in Hidswf. rewrite Hids in Hidswf. cbn [numel fold_right] in Hidswf. lia. }
    assert (Hlook : index_tuple shifts [ids] = Ok (mkTensor [N] (map q (seq 0 N)))).
    { apply index_tuple_rows.
      - discriminate.
      - constructor; [exact Hids | constructor].
      - now rewrite Hbshape.
      - intros r Hr. cbn [map]. unfold coef_at. rewrite Hbshape. cbn [ravel].
        assert (Hin : In (nth r (tdata ids) 0%Z) (tdata ids))
          by (apply nth_In; lia).
        rewrite Forall_forall in Hrange. specialize (Hrange _ Hin).
        unfold norm_index.
        replace ((0 <=? nth r (tdata ids) 0)%Z
                 && (nth r (tdata ids) 0 <? Z.of_nat (Z.to_nat B))%Z) with true
          by (symmetry; apply andb_true_iff; split;
              [apply Z.leb_le | apply Z.ltb_lt]; lia).
        cbn [ravel Nat.mul Nat.add]. apply nth_error_nth_lt.
        unfold twf in Hbwf. rewrite Hbshape in Hbwf.
        cbn [numel fold_right] in Hbwf. lia. }
    destruct (tadd_rows N loc (mkTensor [N] (map q (seq 0 N))) Hloc)
      as [wloc [Hadd [Hwloc [_ Hentry]]]].
    { split; [right; reflexivity|]. unfold twf. cbn [tshape tdata numel fold_right].
      rewrite List.length_map, List.length_seq. lia. }
    exists s3, wloc, wscale.
    rewrite bind_assoc, (bind_step RNG _ _ s1 s2 across Ha). cbv beta.
    rewrite bind_assoc, (bind_step RNG _ _ s2 s2 (Z.to_nat B) Hplate). cbv beta.
    rewrite bind_assoc, (bind_step RNG _ _ s2 s3 shifts Hbr). cbv beta.
    unfold lift, bind, ret. rewrite Hbshape.
    replace (shape_eqb [Z.to_nat B] [Z.to_nat B]) with true
      by (symmetry; apply list_eqb_refl; apply Nat.eqb_refl).
    cbn [assert]. rewrite Hlook, Hadd.
    split; [reflexivity|]. split; [exact Hwloc|]. split; [exact Hwshape|].
    split; [congruence|]. intros _.
    eexists. eexists. exists across, shifts.
    split; [rewrite Htr3, Htr2, Htr1, <- !app_assoc; reflexivity|].
    split; [reflexivity|]. split; [reflexivity|]. split; [exact Hbshape|].
    intros r Hr. rewrite (Hentry r Hr). unfold entry at 2. cbn [tshape tdata].
    now rewrite nth_map_seq.
Qed.

Lemma likelihood_total (N : nat) (rt : string) (bins : Z) (e : Experiment)
    (loc scale : tensor Q) (st : MState RNG) :
  0 < N -> per_row N loc -> tshape scale = [] ->
  rt = "real"%string \/ (rt = "unit_interval"%string /\ (0 <= bins)%Z) ->
  fresh_for ["logits"; "quantized_response"; "responses"]%string st ->
  exists st', likelihood RNG draw N rt bins e loc scale st = (st', Ok tt).
Proof.
  intros HN [Hloc _] Hscale Hrt Hfresh. unfold fresh_for in Hfresh.
  unfold likelihood.
  assert (Hplate : plate RNG (Z.of_nat N) st = (st, Ok N)).
  { unfold plate. destruct (Z.eqb_spec (Z.of_nat N) 0); [lia|].
    destruct (Z.ltb_spec (Z.of_nat N) 0); [lia|]. now rewrite Nat2Z.id. }
  rewrite (bind_step RNG _ _ st st N Hplate).
  assert (Hshape : plate_shape (Some N) (Normal loc scale) = Ok [N]).
  { unfold plate_shape. cbn [dist_shape]. rewrite Hscale, broadcast_shapes_nil_r.
    destruct Hloc as [->| ->]; unfold broadcast_shapes; cbn [rev app broadcast_rev];
      rewrite ?Nat.eqb_refl; reflexivity. }
  assert (Hany : forall name d obs s,
             plate_shape (Some N) d = Ok [N] ->
             ~ In name (map s_name (trace s)) ->
             exists s' v b,
               sample RNG draw (Some N) name d obs s = (s', Ok v) /\
               (obs = None -> tshape v = [N]) /\
               trace s' = trace s ++ [mkSite name (Some d) v b]).
  { intros name d obs s Hd Hnew. destruct obs as [v|].
    - unfold sample. rewrite Hd, (proj2 (visited_false RNG name s) Hnew).
      do 3 eexists. split; [reflexivity|]. split; [discriminate | reflexivity].
    - destruct (sample_drawn (Some N) name d [N] s Hd Hnew)
        as [s' [v [Hv [Hvs [_ Htr]]]]].
      exists s', v, false. auto. }
  destruct Hrt as [->|[-> Hbins]].
  - cbn [String.eqb Ascii.eqb Bool.eqb].
    destruct (Hany "responses"%string (Normal loc scale) (responses e) st Hshape)
      as [s' [v [b [Hv _]]]]; [fresh_name Hfresh|].
    rewrite (bind_step RNG _ _ st s' v Hv). unfold ret. eauto.
  - cbn [String.eqb Ascii.eqb Bool.eqb].
    destruct (Hany "logits"%string (Normal loc scale) None st Hshape)
      as [s1 [logits [b1 [Hl [Hls Htr1]]]]]; [fresh_name Hfresh|].
    rewrite (bind_step RNG _ _ st s1 logits Hl).
    specialize (Hls eq_refl).
    destruct (Hany "quantized_response"%string (Binomial bins logits)
                (option_map
                   (tmap (fun r => round_half_even (r * inject_Z bins)%Q))
                   (responses e)) s1) as [s2 [q [b2 [Hq [_ Htr2]]]]].
    { unfold plate_shape. cbn [dist_shape].
      destruct (Z.ltb_spec bins 0); [lia|]. rewrite Hls.
      unfold broadcast_shapes. cbn [rev app broadcast_rev].
      now rewrite Nat.eqb_refl. }
    { fresh_name Hfresh. }
    rewrite (bind_step RNG _ _ s1 s2 q Hq).
    destruct (responses e); [unfold ret; eauto|].
    assert (Hnew : ~ In "responses"%string (map s_name (trace s2)))
      by fresh_name Hfresh.
    unfold deterministic. rewrite (proj2 (visited_false RNG _ s2) Hnew). eauto.
Qed.

Lemma batch_effect_names B loc ids :
  grows (fun s => In (s_name s)
                    ["within_batch_scale"; "across_batch_scale";
                     "batch_response"]%string)
        (batch_effect RNG draw B loc ids).
Proof.
  unfold batch_effect.
  apply grows_bind; [apply grows_sample; intros; cbn; tauto | intros w].
  apply grows_bind; [|intros x; apply grows_ret].
  destruct (B =? 1)%Z; [apply grows_ret|].
  apply grows_bind; [apply grows_sample; intros; cbn; tauto | intros a].
  apply grows_bind; [apply grows_plate | intros b].
  apply grows_bind; [apply grows_sample; intros; cbn; tauto | intros br].
  apply grows_bind; [apply grows_lift | intros _].
  apply grows_bind; [apply grows_lift | intros t]. apply grows_lift.
Qed.

(** X15. The batch effect on valid batch ids, for [B >= 2] batches, on a
    trace that holds none of its sites: three sites are drawn, ["within_batch_scale"], ["across_batch_scale"] and
    ["batch_response"] with one entry per batch, and the location of every
    design is its linear response shifted by the entry of its batch, so
    that designs of one batch are shifted alike. *)
Theorem batch_effect_shifts_each_design_by_its_batch
    (B : Z) (loc : tensor Q) (ids : tensor Z) (N : nat) (st : MState RNG) :
  (2 <= B)%Z -> per_row N loc ->
  tshape ids = [N] -> twf ids ->
  Forall (fun b => (0 <= b < B)%Z) (tdata ids) ->
  fresh_for ["within_batch_scale"; "across_batch_scale"; "batch_response"]%string st ->
  exists st' wloc wscale s1 s2 across shifts,
    batch_effect RNG draw B loc ids st = (st', Ok (wloc, wscale)) /\
    trace st'
    = trace st ++
      [s1; s2;
       mkSite "batch_response" (Some (Normal (scalar 0%Q) across)) shifts false] /\
    s_name s1 = "within_batch_scale"%string /\
    s_name s2 = "across_batch_scale"%string /\
    tshape shifts = [Z.to_nat B] /\
    per_row N wloc /\
    (forall r, r < N ->
       entry wloc r
       = (entry loc r + nth (Z.to_nat (nth r (tdata ids) 0%Z)) (tdata shifts) 0%Q)%Q) /\
    (forall r r', r < N -> r' < N ->
       nth r (tdata ids) 0%Z = nth r' (tdata ids) 0%Z ->
       entry loc r = entry loc r' -> entry wloc r = entry wloc r').
Proof.
  intros HB Hloc Hids Hwf Hrange Hfresh.
  destruct (batch_effect_rows B loc ids N st ltac:(lia) Hloc Hids Hwf Hrange Hfresh)
    as [st' [wloc [wscale [Hrun [Hp [_ [_ Hsites]]]]]]].
  destruct (Hsites ltac:(lia))
    as [s1 [s2 [across [shifts [Htr [Hn1 [Hn2 [Hshape Hentry]]]]]]]].
  exists st', wloc, wscale, s1, s2, across, shifts.
  repeat (split; [assumption|]).
  intros r r' Hr Hr' Hsame Heq.
  now rewrite (Hentry r Hr), (Hentry r' Hr'), Hsame, Heq.
Qed.

Lemma block_error {A} (t : tensor A) (zs : list Z) (e : exn) :
  block t zs = Err e -> e = IndexError.
Proof.
  unfold block.
  assert (Hgen : forall shape acc, ravel shape zs acc = Err e -> e = IndexError).
  { induction zs as [|z zs IH]; intros shape acc; cbn [ravel]; [discriminate|].
    destruct shape as [|n shape]; [now intros [= <-]|].
    unfold norm_index.
    destruct ((0 <=? z)%Z && (z <? Z.of_nat n)%Z); [apply IH|].
    destruct ((- Z.of_nat n <=? z)%Z && (z <? 0)%Z); [apply IH|].
    now intros [= <-]. }
  destruct (ravel (tshape t) zs 0) as [[off rest]|e'] eqn:E; [discriminate|].
  intros [= <-]. exact (Hgen _ _ E).
Qed.

(** X16. A batch id outside the [B] batches is not caught by a check of
    the model: with [B >= 2], on a trace that holds none of them, the three
    sites of the batch effect are drawn first, and the lookup of the batch responses then raises
    [IndexError]. *)
Theorem batch_id_beyond_the_batches_raises_index_error
    (B : Z) (loc : tensor Q) (ids : tensor Z) (N r : nat) (st : MState RNG) :
  (2 <= B)%Z -> tshape ids = [N] -> r < N ->
  (B <= nth r (tdata ids) 0%Z \/ nth r (tdata ids) 0%Z < - B)%Z ->
  fresh_for ["within_batch_scale"; "across_batch_scale"; "batch_response"]%string st ->
  exists st' new,
    batch_effect RNG draw B loc ids st = (st', Err IndexError) /\
    trace st' = trace st ++ new /\
    map s_name new
    = ["within_batch_scale"; "across_batch_scale"; "batch_response"]%string.
Proof.
  intros HB Hids Hr Hout Hfresh. unfold fresh_for in Hfresh. unfold batch_effect.
  destruct (sample_drawn None "within_batch_scale"
              (LogNormal (scalar 0%Q) (scalar 1%Q)) [] st eq_refl)
    as [s1 [wscale [Hw [_ [_ Htr1]]]]]; [fresh_name Hfresh|].
  rewrite (bind_step RNG _ _ st s1 wscale Hw).
  destruct (Z.eqb_spec B 1) as [->|_]; [lia|].
  destruct (sample_drawn None "across_batch_scale"
              (LogNormal (scalar 0%Q) (scalar 1%Q)) [] s1 eq_refl)
    as [s2 [across [Ha [Hashape [_ Htr2]]]]]; [fresh_name Hfresh|].
  assert (Hplate : plate RNG B s2 = (s2, Ok (Z.to_nat B))).
  { unfold plate. destruct (Z.eqb_spec B 0); [lia|].
    destruct (Z.ltb_spec B 0); [lia | reflexivity]. }
  destruct (sample_drawn (Some (Z.to_nat B)) "batch_response"
              (Normal (scalar 0%Q) across) [Z.to_nat B] s2)
    as [s3 [shifts [Hbr [Hbshape [_ Htr3]]]]].
  { unfold plate_shape. cbn [dist_shape scalar tshape]. now rewrite Hashape. }
  { fresh_name Hfresh. }
  assert (Hlook : index_tuple shifts [ids] = Err IndexError).
  { unfold index_tuple. rewrite Hids. cbn [numel fold_right]. rewrite Nat.mul_1_r.
    rewrite (mapM_err _ IndexError); [reflexivity| |].
    - intros k e _. apply block_error.
    - exists r. split; [apply in_seq; lia|].
      unfold block. rewrite Hbshape. cbn [map ravel]. unfold norm_index.
      replace ((0 <=? nth r (tdata ids) 0)%Z
               && (nth r (tdata ids) 0 <? Z.of_nat (Z.to_nat B))%Z) with false
        by (symmetry; apply andb_false_iff; destruct Hout;
            [right; apply Z.ltb_ge | left; apply Z.leb_gt]; lia).
      replace ((- Z.of_nat (Z.to_nat B) <=? nth r (tdata ids) 0)%Z
               && (nth r (tdata ids) 0 <? 0)%Z) with false
        by (symmetry; apply andb_false_iff; destruct Hout;
            [right; apply Z.ltb_ge | left; apply Z.leb_gt]; lia).
      reflexivity. }
  exists s3. eexists.
  rewrite bind_assoc, (bind_step RNG _ _ s1 s2 across Ha). cbv beta.
  rewrite bind_assoc, (bind_step RNG _ _ s2 s2 (Z.to_nat B) Hplate). cbv beta.
  rewrite bind_assoc, (bind_step RNG _ _ s2 s3 shifts Hbr). cbv beta.
  unfold lift, bind, ret. rewrite Hbshape.
  replace (shape_eqb [Z.to_nat B] [Z.to_nat B]) with true
    by (symmetry; apply list_eqb_refl; apply Nat.eqb_refl).
  cbn [assert]. rewrite Hlook.
  split; [reflexivity|].
  split; [rewrite Htr3, Htr2, Htr1, <- !app_assoc; reflexivity|].
  reflexivity.
Qed.

(** X17. On valid data the model runs to its end: for an experiment of at
    least one design that passes validation, with designs within the
    domains, non-negative batch ids below any explicit bound, distinct
    non-empty feature blocks over variables of the schema, extra features
    (if any) in one row per design, either response type, and a trace that
    holds none of the names of the model's sites, the model returns
    coefficients; these fit the schema, the linear response of the designs
    under them is defined, one value per design, and the sites of the
    coefficients are the first that the run records. *)
Theorem model_runs_on_valid_data
    schema fb extra e mb rt bins (N : nat) (st : MState RNG) :
  NoDup (PyDict.keys schema) ->
  experiment_fits schema e N -> 0 < N ->
  features_fit N extra -> bounds_batch_ids mb e ->
  validate schema e = Ok tt ->
  (forall b name, In b fb -> In name b -> In name (PyDict.keys schema)) ->
  NoDup ([] :: fb) ->
  rt = "real"%string \/ (rt = "unit_interval"%string /\ (0 <= bins)%Z) ->
  fresh_for (model_site_names schema fb extra) st ->
  exists st' coefs loc more,
    model RNG draw validate schema fb extra e mb rt bins st = (st', Ok coefs) /\
    coefs_fit schema coefs /\
    linear_response schema coefs (sequences e) extra = Ok loc /\
    per_row N loc /\
    map s_name (trace st')
    = map s_name (trace st) ++ coef_site_names schema fb extra ++ more.
Proof.
  intros Hnd He HN Hextra Hmb Hval Hnames Hblocks Hrt Hfresh.
  unfold fresh_for, model_site_names in Hfresh.
  destruct (model_checks_ok schema extra e mb N He HN Hextra Hmb Hval)
    as [B [Hchecks [HB Hrange]]].
  destruct (sample_coefs_total RNG draw draw_ok schema fb extra st Hnames)
    as [s1 [coefs [Hcoefs Hnames1]]].
  { intros ef Hef. destruct (Hextra ef Hef) as [f [-> _]]. discriminate. }
  { exact Hblocks. }
  { intros name Hin. apply Hfresh. apply in_or_app. now left. }
  assert (Hfresh1 : forall name, In name response_site_names ->
                      ~ In name (map s_name (trace s1))).
  { intros name Hin. rewrite Hnames1, in_app_iff. intros [H|H].
    - revert H. apply Hfresh. apply in_or_app. now right.
    - revert H. now apply response_name_not_coef. }
  destruct (sample_coefs_fit schema fb extra N st s1 coefs Hextra Hcoefs)
    as [Hfit Hefit].
  destruct He as [Hs [Hswf [Hrows [Hb [Hbwf Hnn]]]]].
  destruct (batch_response_defined schema coefs (sequences e) extra N
              (List.length schema) Hnd Hs Hswf eq_refl Hrows Hfit Hefit)
    as [loc [Hloc [Hp _]]].
  destruct (batch_effect_rows B loc (batch_ids e) N s1 HB Hp Hb Hbwf Hrange)
    as [s2 [wloc [wscale [Hbatch [Hwp [Hws _]]]]]].
  { intros name Hin. apply Hfresh1. cbn [response_site_names In] in *. tauto. }
  destruct (batch_effect_names B loc (batch_ids e) s1 s2 _ Hbatch)
    as [new2 [Htr2 Hnew2]].
  destruct (likelihood_total N rt bins e wloc wscale s2 HN Hwp Hws Hrt)
    as [s3 Hlik].
  { intros name Hin. rewrite Htr2, map_app, in_app_iff. intros [H|H].
    - revert H. apply Hfresh1. cbn [response_site_names In] in *. tauto.
    - apply in_map_iff in H. destruct H as [site [<- Hsite]].
      rewrite Forall_forall in Hnew2. specialize (Hnew2 site Hsite).
      cbn [In] in Hin, Hnew2.
      destruct Hin as [Hin|[Hin|[Hin|[]]]]; rewrite <- Hin in Hnew2;
        intuition discriminate. }
  destruct (likelihood_grows RNG draw N rt bins e wloc wscale s2 s3 _ Hlik)
    as [new3 [Htr3 _]].
  exists s3, coefs, loc, (map s_name (new2 ++ new3)).
  split; [|split; [exact Hfit|split; [exact Hloc|split; [exact Hp|]]]].
  - unfold model.
    rewrite (bind_step RNG _ _ st st (N, B)) by (unfold lift; now rewrite Hchecks).
    cbv beta iota.
    rewrite (bind_step RNG _ _ st s1 coefs Hcoefs).
    rewrite (bind_step RNG _ _ s1 s1 loc) by (unfold lift; now rewrite Hloc).
    rewrite (bind_step RNG _ _ s1 s2 (wloc, wscale) Hbatch). cbn [fst snd].
    rewrite (bind_step RNG _ _ s2 s3 tt Hlik). reflexivity.
  - rewrite Htr3, Htr2, <- app_assoc, map_app, Hnames1, <- app_assoc. reflexivity.
Qed.
End ModelRuns.

Lemma batch_effect_shifts_each_design_by_its_batch_witness :
  exists st' wloc wscale s1 s2 across shifts,
    batch_effect (list Q) draw_tape 2 (zeros [3]) (mkTensor [3] [0; 1; 0]%Z)
      Example.start = (st', Ok (wloc, wscale)) /\
    trace st'
    = trace Example.start ++
      [s1; s2;
       mkSite "batch_response" (Some (Normal (scalar 0%Q) across)) shifts false] /\
    s_name s1 = "within_batch_scale"%string /\
    s_name s2 = "across_batch_scale"%string /\
    tshape shifts = [Z.to_nat 2] /\
    per_row 3 wloc /\
    (forall r, r < 3 ->
       entry wloc r
       = (entry (zeros [3%nat]) r
          + nth (Z.to_nat (nth r (tdata (mkTensor [3%nat] [0; 1; 0]%Z)) 0%Z))
              (tdata shifts) 0%Q)%Q) /\
    (forall r r', r < 3 -> r' < 3 ->
       nth r (tdata (mkTensor [3] [0; 1; 0]%Z)) 0%Z
       = nth r' (tdata (mkTensor [3] [0; 1; 0]%Z)) 0%Z ->
       entry (zeros [3]) r = entry (zeros [3]) r' -> entry wloc r = entry wloc r').
Proof.
  apply (batch_effect_shifts_each_design_by_its_batch (list Q) draw_tape
           draw_tape_ok draw_tape_wf 2%Z (zeros [3]) (mkTensor [3] [0; 1; 0]%Z) 3
           Example.start).
  - lia.
  - split; [now right | reflexivity].
  - reflexivity.
  - reflexivity.
  - repeat constructor; simpl; lia.
  - intros name _ [].
Defined.

Lemma batch_id_beyond_the_batches_raises_index_error_witness :
  exists st' new,
    batch_effect (list Q) draw_tape 2 (zeros [3]) (mkTensor [3] [0; 5; 0]%Z)
      Example.start = (st', Err IndexError) /\
    trace st' = trace Example.start ++ new /\
    map s_name new
    = ["within_batch_scale"; "across_batch_scale"; "batch_response"]%string.
Proof.
  apply (batch_id_beyond_the_batches_raises_index_error (list Q) draw_tape
           draw_tape_ok draw_tape_wf 2%Z (zeros [3]) (mkTensor [3] [0; 5; 0]%Z) 3 1
           Example.start).
  - lia.
  - reflexivity.
  - lia.
  - left. simpl. lia.
  - intros name _ [].
Defined.

Lemma model_runs_on_valid_data_witness :
  exists st' coefs loc more,
    model (list Q) draw_tape validate_spec Example.schema Example.feature_blocks
      (Some (mkTensor [3; 2] [1; 1; 2; 0; 0; 3]%Q))
      (mkExperiment (sequences Example.experiment) (responses Example.experiment)
         (mkTensor [3] [0; 1; 0]%Z))
      None "unit_interval" 100 Example.start = (st', Ok coefs) /\
    coefs_fit Example.schema coefs /\
    linear_response Example.schema coefs (sequences Example.experiment)
      (Some (mkTensor [3; 2] [1; 1; 2; 0; 0; 3]%Q)) = Ok loc /\
    per_row 3 loc /\
    map s_name (trace st')
    = map s_name (trace Example.start)
      ++ coef_site_names Example.schema Example.feature_blocks
           (Some (mkTensor [3; 2] [1; 1; 2; 0; 0; 3]%Q))
      ++ more.
Proof.
  apply (model_runs_on_valid_data (list Q) draw_tape validate_spec
           draw_tape_ok draw_tape_wf Example.schema Example.feature_blocks
           (Some (mkTensor [3; 2] [1; 1; 2; 0; 0; 3]%Q))
           (mkExperiment (sequences Example.experiment)
              (responses Example.experiment) (mkTensor [3] [0; 1; 0]%Z))
           None "unit_interval" 100%Z 3 Example.start).
  - repeat constructor; simpl; intuition discriminate.
  - split; [reflexivity|]. split; [reflexivity|]. split.
    + intros r Hr. destruct r as [|[|[|r]]]; [| | |lia];
        repeat constructor; simpl; lia.
    + split; [reflexivity|]. split; [reflexivity|].
      repeat constructor; simpl; lia.
  - lia.
  - intros ef [= <-]. exists 2. split; reflexivity.
  - intros m [=].
  - reflexivity.
  - intros b name Hb Hn. simpl in Hb.
    destruct Hb as [<-|[<-|[<-|[]]]]; simpl in Hn; simpl; intuition.
  - repeat constructor; simpl; intuition discriminate.
  - right. split; [reflexivity | lia].
  - intros name _ [].
Defined.

(** ** Negative category indices (models.py, [linear_response]) *)

Lemma norm_index_wrap (n : nat) (z : Z) :
  (0 <= z < Z.of_nat n)%Z -> norm_index n (z - Z.of_nat n) = norm_index n z.
Proof.
  intros Hz. unfold norm_index.
  replace ((0 <=? z - Z.of_nat n)%Z && (z - Z.of_nat n <? Z.of_nat n)%Z) with false
    by (symmetry; apply andb_false_iff; left; apply Z.leb_gt; lia).
  replace ((- Z.of_nat n <=? z - Z.of_nat n)%Z && (z - Z.of_nat n <? 0)%Z) with true
    by (symmetry; apply andb_true_iff; split; [apply Z.leb_le | apply Z.ltb_lt]; lia).
  replace ((0 <=? z)%Z && (z <? Z.of_nat n)%Z) with true
    by (symmetry; apply andb_true_iff; split; [apply Z.leb_le | apply Z.ltb_lt]; lia).
  f_equal. f_equal. lia.
Qed.

Lemma category_from_the_end (schema : Schema) (d : list Z) (flags : list bool)
    (name : string) (n : nat) :
  design_fits schema d -> List.length flags = List.length schema ->
  dom_size schema name = Some n ->
  exists z z',
    category schema d name = Some z /\
    category schema (from_the_end schema d flags) name = Some z' /\
    norm_index n z' = norm_index n z.
Proof.
  unfold design_fits, dom_size, category, from_the_end, PyDict.keys.
  intros Hfit. revert flags.
  induction Hfit as [|z [k dom] d schema Hz Hfit IH]; intros flags Hlen;
    cbn [map combine PyDict.get fst snd]; [discriminate|].
  destruct flags as [|b flags]; [discriminate|]. injection Hlen as Hlen.
  cbn [map combine PyDict.get fst snd].
  destruct (String.eqb name k).
  - cbn [option_map]. intros [= <-]. do 2 eexists.
    split; [reflexivity|]. split; [reflexivity|].
    destruct b; [now apply norm_index_wrap | reflexivity].
  - exact (IH flags Hlen).
Qed.

Lemma block_from_the_end (schema : Schema) (d : list Z) (flags : list bool)
    (names : list string) (shape : list nat) :
  design_fits schema d -> List.length flags = List.length schema ->
  mapO (dom_size schema) names = Some shape ->
  exists zs zs',
    mapO (category schema d) names = Some zs /\
    mapO (category schema (from_the_end schema d flags)) names = Some zs' /\
    forall acc, ravel shape zs' acc = ravel shape zs acc.
Proof.
  intros Hfit Hlen. revert shape.
  induction names as [|name names IH]; intros shape; cbn [mapO].
  - intros _. exists [], []. auto.
  - destruct (dom_size schema name) as [n|] eqn:Hn; [|discriminate].
    destruct (mapO (dom_size schema) names) as [shape'|]; [|discriminate].
    intros [= <-].
    destruct (category_from_the_end schema d flags name n Hfit Hlen Hn)
      as [z [z' [-> [-> Hnorm]]]].
    destruct (IH _ eq_refl) as [zs [zs' [-> [-> Hravel]]]].
    exists (z :: zs), (z' :: zs'). split; [reflexivity|]. split; [reflexivity|].
    intros acc. cbn [ravel]. rewrite Hnorm.
    destruct (norm_index n z); [apply Hravel | reflexivity].
Qed.

Lemma from_the_end_length (schema : Schema) (d : list Z) (flags : list bool) :
  List.length d = List.length schema -> List.length flags = List.length schema ->
  List.length (from_the_end schema d flags) = List.length schema.
Proof.
  intros Hd Hf. unfold from_the_end.
  rewrite List.length_map, !length_combine. lia.
Qed.

Lemma from_the_end_negative (schema : Schema) (d : list Z) (flags : list bool) :
  design_fits schema d -> List.length flags = List.length schema ->
  In true flags ->
  Exists (fun z => (z < 0)%Z) (from_the_end schema d flags).
Proof.
  unfold design_fits, from_the_end. intros Hfit. revert flags.
  induction Hfit as [|z [k dom] d schema Hz Hfit IH]; intros flags Hlen Hin.
  - destruct flags; [destruct Hin | discriminate].
  - destruct flags as [|b flags]; [discriminate|]. injection Hlen as Hlen.
    cbn [map combine fst snd]. destruct Hin as [->|Hin].
    + apply Exists_cons_hd. cbn [snd] in Hz. lia.
    + apply Exists_cons_tl. now apply IH.
Qed.

(** X18. [linear_response] does not reject negative category indices: a
    design whose categories are, at any set of positions, written as
    negative indices counted from the end of the domain gets the response
    of the design with the categories written from the front, although it
    lies outside the domains of the schema. *)
Theorem linear_response_reads_negative_categories_from_the_end
    (schema : Schema) (coefs : Coefs) (d : list Z) (flags : list bool)
    (extra : option (tensor Q)) :
  NoDup (PyDict.keys schema) ->
  design_fits schema d -> coefs_fit schema coefs -> extra_fit coefs extra ->
  List.length flags = List.length schema ->
  (exists r,
      linear_response schema coefs (design_tensor d) extra = Ok r /\
      linear_response schema coefs
        (design_tensor (from_the_end schema d flags)) extra = Ok r) /\
  (In true flags -> ~ design_fits schema (from_the_end schema d flags)).
Proof.
  intros Hnd Hfit Hcoefs Hextra Hlen. split.
  - destruct (contributions_defined schema coefs d extra Hfit Hcoefs Hextra coefs
                (incl_refl _)) as [terms Hterms].
    pose proof (Forall2_length Hfit) as Hd.
    exists (scalar (fold_left Qplus terms 0%Q)). split.
    + now apply single_response.
    + apply single_response; auto.
      * now apply from_the_end_length.
      * assert (Hsame : forall item, In item coefs ->
                  contribution schema coefs (from_the_end schema d flags) extra item
                  = contribution schema coefs d extra item).
        { intros [[names|] coef] Hin; [|reflexivity].
          destruct (Hcoefs _ _ Hin) as [_ Hshape].
          destruct (block_from_the_end schema d flags names _ Hfit Hlen Hshape)
            as [zs [zs' [Hzs [Hzs' Hravel]]]].
          unfold contribution. cbn [fst snd]. rewrite Hzs, Hzs'.
          unfold coef_at. now rewrite Hravel. }
        clear - Hterms Hsame.
        assert (Hall : forall l ts, incl l coefs ->
                  Forall2 (fun item q => contribution schema coefs d extra item = Some q)
                          l ts ->
                  Forall2 (fun item q =>
                             contribution schema coefs (from_the_end schema d flags)
                               extra item = Some q) l ts).
        { intros l ts Hincl H. induction H as [|item q l ts Hq _ IH]; constructor.
          - rewrite Hsame; [exact Hq | apply Hincl; now left].
          - apply IH. intros x Hx. apply Hincl. now right. }
        apply Hall; [apply incl_refl | exact Hterms].
  - intros Hin Hfit'.
    pose proof (from_the_end_negative schema d flags Hfit Hlen Hin) as Hneg.
    apply Exists_exists in Hneg. destruct Hneg as [z [Hz Hlt]].
    unfold design_fits in Hfit'.
    assert (Hall : Forall (fun z => (0 <= z)%Z) (from_the_end schema d flags)).
    { clear - Hfit'. induction Hfit' as [|z v l l' Hz _ IH]; constructor;
        [lia | exact IH]. }
    rewrite Forall_forall in Hall. specialize (Hall z Hz). lia.
Qed.

Lemma linear_response_reads_negative_categories_from_the_end_witness :
  (exists r,
      linear_response Example.schema Example.coefs (design_tensor [1; 2]%Z)
        (Some Example.extra) = Ok r /\
      linear_response Example.schema Example.coefs
        (design_tensor (from_the_end Example.schema [1; 2]%Z [true; false]))
        (Some Example.extra) = Ok r) /\
  (In true [true; false] ->
   ~ design_fits Example.schema
       (from_the_end Example.schema [1; 2]%Z [true; false])).
Proof.
  apply (linear_response_reads_negative_categories_from_the_end
           Example.schema Example.coefs [1; 2]%Z [true; false] (Some Example.extra)).
  - repeat constructor; simpl; intuition discriminate.
  - repeat constructor; simpl; lia.
  - exact example_coefs_fit.
  - exists 2. repeat split.
  - reflexivity.
Defined.

(** ** Simulation, and the keys of the coefficients (models.py, [model]) *)

Lemma grows_weaken {RNG A} (P P' : Site -> Prop) (m : M RNG A) :
  (forall s, P s -> P' s) -> grows P m -> grows P' m.
Proof.
  intros Himp Hm st st' r H. destruct (Hm st st' r H) as [new [Htr Hall]].
  exists new. split; [exact Htr|]. now apply Forall_impl with (2 := Hall).
Qed.

Lemma in_keys_set {K V} (eqb : K -> K -> bool) (k k' : K) (v : V)
    (d : list (K * V)) :
  (forall a b, eqb a b = true <-> a = b) ->
  In k' (PyDict.keys (PyDict.set eqb k v d)) <-> k' = k \/ In k' (PyDict.keys d).
Proof.
  intros eqb_eq. unfold PyDict.keys.
  induction d as [|[k0 v0] d IH]; cbn [PyDict.set map fst In].
  - intuition.
  - destruct (eqb k k0) eqn:E; cbn [map fst In].
    + apply eqb_eq in E. subst k0. intuition.
    + rewrite IH. intuition.
Qed.

Lemma nodup_keys_set {K V} (eqb : K -> K -> bool) (k : K) (v : V)
    (d : list (K * V)) :
  (forall a b, eqb a b = true <-> a = b) ->
  NoDup (PyDict.keys d) -> NoDup (PyDict.keys (PyDict.set eqb k v d)).
Proof.
  intros eqb_eq. unfold PyDict.keys.
  induction d as [|[k0 v0] d IH]; cbn [PyDict.set map fst]; intros Hnd.
  - repeat constructor. intros [].
  - inversion Hnd as [|? ? Hnot Hrest]; subst.
    destruct (eqb k k0) eqn:E; cbn [map fst]; [now constructor|].
    constructor; [|now apply IH].
    intros Hin. apply (in_keys_set eqb k k0 v d eqb_eq) in Hin.
    destruct Hin as [->|Hin]; [|contradiction].
    rewrite (proj2 (eqb_eq k k) eq_refl) in E. discriminate.
Qed.

Section Simulation.
Variable RNG : Type.
Variable draw : RNG -> Dist -> list nat -> tensor Q * RNG.
Variable validate : Schema -> Experiment -> result unit.

Lemma likelihood_simulates N rt bins e loc scale :
  responses e = None ->
  grows simulated_site (likelihood RNG draw N rt bins e loc scale).
Proof.
  intros Hr. unfold likelihood. rewrite Hr.
  assert (Hlatent : forall plate name d,
             grows simulated_site (sample RNG draw plate name d None)).
  { intros plate name d. apply grows_draw. intros v. left.
    split; [reflexivity | discriminate]. }
  apply grows_bind; [apply grows_plate | intros n].
  destruct (String.eqb rt "real").
  - apply grows_bind; [apply Hlatent | intros _; apply grows_ret].
  - destruct (String.eqb rt "unit_interval"); [|apply grows_raise].
    apply grows_bind; [apply Hlatent | intros logits].
    apply grows_bind; [apply Hlatent | intros q].
    apply grows_deterministic. right. cbn [s_name s_observed s_dist s_value]. auto.
Qed.

Lemma likelihood_real_latent N rt bins e loc scale :
  responses e = None -> rt <> "unit_interval"%string ->
  grows latent_site (likelihood RNG draw N rt bins e loc scale).
Proof.
  intros Hr Hrt. unfold likelihood. rewrite Hr.
  apply grows_bind; [apply grows_plate | intros n].
  destruct (String.eqb rt "real").
  - apply grows_bind; [|intros _; apply grows_ret].
    apply grows_draw. intros v. split; [reflexivity | discriminate].
  - apply String.eqb_neq in Hrt. rewrite Hrt. apply grows_raise.
Qed.

Lemma model_grows (P : Site -> Prop) schema fb extra e mb rt bins :
  (forall s, latent_site s -> P s) ->
  (forall N loc scale, grows P (likelihood RNG draw N rt bins e loc scale)) ->
  grows P (model RNG draw validate schema fb extra e mb rt bins).
Proof.
  intros Hlatent Hlik. unfold model.
  apply grows_bind; [apply grows_lift | intros [N B]].
  apply grows_bind;
    [apply (grows_weaken latent_site); [exact Hlatent|];
     apply sample_coefs_latent | intros coefs].
  apply grows_bind; [apply grows_lift | intros loc].
  apply grows_bind;
    [apply (grows_weaken latent_site); [exact Hlatent|];
     apply batch_effect_latent | intros ls].
  apply grows_bind; [apply Hlik | intros _; apply grows_ret].
Qed.

(** X19. Without responses the model conditions on no data: whether it
    returns or raises, every site it records is a latent draw, except the
    site of [pyro.deterministic] that holds the simulated responses under
    ["unit_interval"], which is marked observed under a masked [Delta] at
    its own value.  Under any other response type all recorded sites are
    latent draws. *)
Theorem model_without_responses_conditions_on_no_data
    schema fb extra e mb rt bins (st st' : MState RNG) (r : result Coefs) :
  responses e = None ->
  model RNG draw validate schema fb extra e mb rt bins st = (st', r) ->
  exists new,
    trace st' = trace st ++ new /\
    Forall simulated_site new /\
    (rt <> "unit_interval"%string -> Forall latent_site new).
Proof.
  intros Hr H.
  destruct (model_grows simulated_site schema fb extra e mb rt bins) with
    (st := st) (st' := st') (r := r) as [new [Htr Hall]].
  - intros s Hs. now left.
  - intros N loc scale. now apply likelihood_simulates.
  - exact H.
  - exists new. split; [exact Htr|]. split; [exact Hall|]. intros Hrt.
    destruct (model_grows latent_site schema fb extra e mb rt bins) with
      (st := st) (st' := st') (r := r) as [new' [Htr' Hall']].
    + auto.
    + intros N loc scale. now apply likelihood_real_latent.
    + exact H.
    + rewrite Htr in Htr'. apply app_inv_head in Htr'. now subst new'.
Qed.

Lemma blocks_loop_keys schema loc scale (l : list (list string)) :
  forall coefs (st st' : MState RNG) coefs',
    foldMM RNG (sample_block RNG draw schema loc scale) l coefs st
    = (st', Ok coefs') ->
    (forall key, In key (PyDict.keys coefs') <->
                 In key (PyDict.keys coefs) \/ exists b, key = Some b /\ In b l) /\
    (NoDup (PyDict.keys coefs) -> NoDup (PyDict.keys coefs')).
Proof.
  induction l as [|block l IH]; intros coefs st st' coefs' H.
  - injection H as _ <-. split; [|auto].
    intros key. split; [auto | intros [H|[b [_ []]]]; exact H].
  - cbn [foldMM] in H. apply bind_ok in H. destruct H as [s1 [coefs1 [Hstep H]]].
    assert (Hset : exists coef, coefs1 = PyDict.set key_eqb (Some block) coef coefs).
    { unfold sample_block in Hstep.
      apply bind_ok in Hstep. destruct Hstep as [s0 [shape [_ Hstep]]].
      apply bind_ok in Hstep. destruct Hstep as [s2 [ps [_ Hstep]]].
      apply bind_ok in Hstep. destruct Hstep as [s3 [cs [_ Hstep]]].
      apply bind_ok in Hstep. destruct Hstep as [s4 [c [_ Hstep]]].
      injection Hstep as _ <-. now exists c. }
    destruct Hset as [coef ->].
    destruct (IH _ _ _ _ H) as [Hkeys Hnd]. split.
    + intros key. rewrite Hkeys, (in_keys_set key_eqb _ _ _ _ key_eqb_eq).
      split.
      * intros [[->|Hin]|[b [-> Hb]]]; [right | now left | right].
        -- exists block. split; [reflexivity | now left].
        -- exists b. split; [reflexivity | now right].
      * intros [Hin|[b [-> [<-|Hb]]]]; [left; now right | left; now left | right].
        exists b. auto.
    + intros H0. apply Hnd. now apply nodup_keys_set; [apply key_eqb_eq|].
Qed.

(** X20. The dictionary the model returns has one entry for the constant
    term (the empty block), one for each distinct feature block, one under
    [None] exactly when extra features are given, and no other; no key
    occurs twice. *)
Theorem model_returns_one_coefficient_per_block
    schema fb extra e mb rt bins (st st' : MState RNG) (coefs : Coefs) :
  model RNG draw validate schema fb extra e mb rt bins st = (st', Ok coefs) ->
  NoDup (PyDict.keys coefs) /\
  forall key,
    In key (PyDict.keys coefs) <->
    (exists b, key = Some b /\ In b ([] :: fb)) \/ (key = None /\ extra <> None).
Proof.
  intros H. unfold model in H.
  apply bind_ok in H. destruct H as [s0 [[N B] [_ H]]].
  apply bind_ok in H. destruct H as [s1 [coefs1 [Hs H]]].
  apply bind_ok in H. destruct H as [s2 [loc [_ H]]].
  apply bind_ok in H. destruct H as [s3 [ls [_ H]]].
  apply bind_ok in H. destruct H as [s4 [u [_ H]]].
  injection H as _ <-.
  unfold sample_coefs in Hs.
  apply bind_ok in Hs. destruct Hs as [sa [l1 [_ Hs]]].
  apply bind_ok in Hs. destruct Hs as [sb [l2 [_ Hs]]].
  apply bind_ok in Hs. destruct Hs as [sc [coefs0 [Hloop Hs]]].
  destruct (blocks_loop_keys schema l1 l2 _ _ _ _ _ Hloop) as [Hkeys Hnd].
  specialize (Hnd (NoDup_nil _)).
  destruct extra as [ef|].
  - apply bind_ok in Hs. destruct Hs as [sd [cs [_ Hs]]].
    apply bind_ok in Hs. destruct Hs as [se [c [_ Hs]]].
    injection Hs as _ <-. split.
    + now apply nodup_keys_set; [apply key_eqb_eq|].
    + intros key. rewrite (in_keys_set key_eqb _ _ _ _ key_eqb_eq), Hkeys.
      cbn [PyDict.keys map In app]. split.
      * intros [->|[[]|Hb]]; [right; split; [reflexivity | discriminate] | now left].
      * intros [Hb|[-> _]]; [right; now right | now left].
  - injection Hs as _ <-. split; [exact Hnd|].
    intros key. rewrite Hkeys. cbn [PyDict.keys map In app]. split.
    + intros [[]|Hb]. now left.
    + intros [Hb|[_ Hne]]; [now right | congruence].
Qed.
End Simulation.

Lemma model_without_responses_conditions_on_no_data_witness :
  exists st' r new,
    Example.run Example.feature_blocks None Example.unobserved None
      "unit_interval" 100 = (st', r) /\
    trace st' = trace Example.start ++ new /\
    Forall simulated_site new /\
    ("unit_interval"%string <> "unit_interval"%string -> Forall latent_site new).
Proof.
  destruct (Example.run Example.feature_blocks None Example.unobserved None
              "unit_interval" 100) as [st' r] eqn:E.
  destruct (model_without_responses_conditions_on_no_data (list Q) draw_tape
              validate_spec Example.schema Example.feature_blocks None
              Example.unobserved None "unit_interval" 100%Z Example.start st' r
              eq_refl E) as [new H].
  exists st', r, new. split; [reflexivity | exact H].
Defined.

Lemma model_returns_one_coefficient_per_block_witness :
  exists st' coefs,
    Example.run Example.feature_blocks (Some (mkTensor [3; 2] [1; 1; 2; 0; 0; 3]%Q))
      Example.experiment None "real" 100 = (st', Ok coefs) /\
    NoDup (PyDict.keys coefs) /\
    forall key,
      In key (PyDict.keys coefs) <->
      (exists b, key = Some b /\ In b ([] :: Example.feature_blocks)) \/
      (key = None /\ Some (mkTensor [3; 2] [1; 1; 2; 0; 0; 3]%Q) <> None).
Proof.
  destruct (Example.run Example.feature_blocks
              (Some (mkTensor [3; 2] [1; 1; 2; 0; 0; 3]%Q))
              Example.experiment None "real" 100) as [st' [coefs|err]] eqn:E;
    [|vm_compute in E; discriminate E].
  exists st', coefs. split; [reflexivity|].
  exact (model_returns_one_coefficient_per_block (list Q) draw_tape validate_spec
           Example.schema Example.feature_blocks
           (Some (mkTensor [3; 2] [1; 1; 2; 0; 0; 3]%Q)) Example.experiment None
           "real" 100%Z Example.start st' coefs E).
Defined.
